(** * Polanalyser: demosaicing of polarization mosaics and Stokes-vector kernels

    A shallow embedding of [polanalyser/demosaicing.py] and
    [polanalyser/stokes.py].

    - [NumPy]: n-dimensional arrays as numpy stores them, a dtype, a shape and
      a flat C-ordered buffer, with the handful of array operations the two
      source files use.
    - [Cv2]: the OpenCV collaborator ([getattr(cv2, name)], [cv2.cvtColor],
      [cv2.split]); the debayer itself is a parameter, which may fail.
    - [Demosaicing]: [demosaicing], [__demosaicing_mono], [__demosaicing_color]
      in a small monad that logs the array computations and carries Python
      exceptions; the rescale of a floating-point frame is computed on
      IEEE-754 floats.
    - [LinAlg], [Stokes]: [calcStokes], [calcLinearStokes] and the
      [cvtStokesTo...] kernels, generic in the arithmetic so that they can be
      read over the real numbers and over IEEE-754 binary64; [Stokes64]:
      [cvtStokesToAoLP] on doubles.

    Part I holds the definitions, Part II the lemmas and theorems. *)

From Stdlib Require Import String.
From Stdlib Require Import Bool Arith ZArith QArith Qround Qminmax Qpower Lqa.
From Stdlib Require Import Reals Lra Lia List.
From Stdlib Require Import Floats.SpecFloat.
Import ListNotations.

(* Numbers are natural numbers unless a scope says otherwise. *)
Close Scope Q_scope.
Close Scope R_scope.
Close Scope Z_scope.

(* ===================================================================== *)
(** * Part I: definitions                                                 *)
(* ===================================================================== *)

(** ** numpy arrays *)
Module NumPy.

(** The dtypes a caller can hand in. *)
Inductive dtype : Set :=
| bool_ | int8 | int16 | int32 | int64
| uint8 | uint16 | uint32 | uint64
| float16 | float32 | float64 | complex128.

Definition dtype_eq_dec (a b : dtype) : {a = b} + {a <> b}.
Proof. decide equality. Defined.

Definition dtype_eqb (a b : dtype) : bool :=
  if dtype_eq_dec a b then true else false.

(** [np.issubdtype(dtype, np.floating)] *)
Definition issubdtype_floating (d : dtype) : bool :=
  match d with
  | float16 | float32 | float64 => true
  | _ => false
  end.

(** An array: dtype, shape, and the elements in C order. *)
Record ndarray (T : Type) : Type := mk_ndarray {
  dtype_of : dtype;
  shape : list nat;
  data : list T
}.
Arguments mk_ndarray {T} _ _ _.
Arguments dtype_of {T} _.
Arguments shape {T} _.
Arguments data {T} _.

Definition ndim {T} (a : ndarray T) : nat := length (shape a).

(** Number of elements a shape holds. *)
Definition size (sh : list nat) : nat := fold_right Nat.mul 1 sh.

(** The buffer holds exactly the elements the shape announces. *)
Definition wf {T} (a : ndarray T) : Prop := length (data a) = size (shape a).

Definition tabulate {T} (n : nat) (f : nat -> T) : list T := map f (seq 0 n).

Fixpoint map2 {A B C} (f : A -> B -> C) (l : list A) (l' : list B) : list C :=
  match l, l' with
  | a :: t, b :: t' => f a b :: map2 f t t'
  | _, _ => []
  end.

(** Elementwise unary operation ([np.sqrt(a)], [a ** 2], [a * 0.5], ...):
    shape and values.  The dtype tag is carried along unchanged and is not
    the dtype of the result: numpy and numba promote (a [float32] array
    times the literal [0.5] is a [float64] array).  Nothing below is stated
    about the dtype of what a kernel returns. *)
Definition ufunc1 {T} (f : T -> T) (a : ndarray T) : ndarray T :=
  mk_ndarray (dtype_of a) (shape a) (map f (data a)).

(** Elementwise binary operation on two arrays of one shape.  (numpy
    broadcasts or raises when the shapes differ; every use below combines
    slices of a single array, whose shapes agree.)  The dtype tag is that of
    the first argument, as for [ufunc1]. *)
Definition ufunc2 {T} (f : T -> T -> T) (a b : ndarray T) : ndarray T :=
  mk_ndarray (dtype_of a) (shape a) (map2 f (data a) (data b)).

(** [a[..., k]]: index [k] on the last axis, every leading axis kept.  With
    last-axis length [n], element [p] of the result is element [p * n + k] of
    the buffer.  [None] stands for an index that is not within the last axis
    (or an array without axes).  This is outside the model: numpy raises
    [IndexError] there, but the kernels of [stokes.py] are compiled by numba
    ([@njit]), which does not check bounds and reads whatever lies past the
    pixel.  The embedding is faithful for [k < n] only, and nothing below is
    concluded from a [None]. *)
Definition ellipsis_index {T} (d : T) (k : nat) (a : ndarray T)
  : option (ndarray T) :=
  match rev (shape a) with
  | [] => None
  | n :: lead =>
      if k <? n then
        Some (mk_ndarray (dtype_of a) (rev lead)
                (tabulate (length (data a) / n)
                   (fun p => nth (p * n + k) (data a) d)))
      else None
  end.

(** The buffer cut into consecutive runs of [n]: the rows of a 2-D array, the
    per-pixel vectors of an image whose last axis has length [n]. *)
Definition chunks {T} (n : nat) (l : list T) : list (list T) :=
  tabulate (length l / n) (fun p => firstn n (skipn (p * n) l)).

End NumPy.

(** ** Images, Python exceptions, and the OpenCV collaborator *)
Module Py.
Import NumPy.

(** Sample values are rationals: the integers of a [uint8] or [uint16]
    frame, and the values of the floats of a floating-point frame (finite
    ones: a frame that holds a NaN or an infinity is outside the model).
    Arithmetic on the samples of a floating-point frame is done on the
    floats themselves (see [Demosaicing.Q2SF]). *)
Abbreviation image := (ndarray Q).

(** The exceptions the code raises or lets through. *)
Inductive exn : Type :=
| TypeError_code                (* The type of 'code' must be 'ColorConversionCode' *)
| TypeError_dtype (d : dtype)   (* The dtype of input image must be `np.uint8` or `np.uint16`, not `d` *)
| ValueError_ndim (n : nat) (sh : list nat)
                                (* The dimension of the input image must be 2, not n sh *)
| ValueError_zero_size          (* np.max of an array without elements *)
| ValueError_unpack (n : nat)   (* unpacking n values into another number of names *)
| ValueError_shape              (* shapes that do not fit in an assignment or a stack *)
| AttributeError (name : string)  (* getattr(cv2, name) on a name cv2 lacks *)
| Cv2Error                      (* cv2.error *)
| RecursionError.               (* the call depth of the model is used up *)

(** The array computations a call performs, in order. *)
Inductive np_op : Set :=
| np_max | np_multiply | np_clip | np_astype (d : dtype) | np_true_divide.

Inductive event : Type :=
| Ev_cvtColor (src : image) (code : Z)   (* cv2.cvtColor(src, code) *)
| Ev_numpy (op : np_op).

(** A computation logs its events and ends in a value or an exception. *)
Definition M (A : Type) : Type := (list event * (exn + A))%type.

Definition ret {A} (x : A) : M A := ([], inr x).
Definition raise {A} (e : exn) : M A := ([], inl e).
Definition tell (ev : event) : M unit := ([ev], inr tt).

Definition bind {A B} (m : M A) (f : A -> M B) : M B :=
  match m with
  | (l, inl e) => (l, inl e)
  | (l, inr x) => let (l', r) := f x in (l ++ l', r)
  end.

Fixpoint foldM {A S} (f : S -> A -> M S) (s : S) (l : list A) : M S :=
  match l with
  | [] => ret s
  | a :: t => bind (f s a) (fun s' => foldM f s' t)
  end.

(** [m] ends in a value that satisfies [P]. *)
Definition returns {A} (m : M A) (P : A -> Prop) : Prop :=
  exists l x, m = (l, inr x) /\ P x.

(** What a caller can pass as [code]. *)
Record ColorConversionCode : Type := mk_code {
  is_color : bool;
  suffix : string   (* suffix for OpenCV's ColorConversionCodes (i.e. "", "_VNG", "_EA") *)
}.

Inductive pyobj : Type :=
| PyCode (c : ColorConversionCode)
| PyNone
| PyInt (z : Z)
| PyStr (s : string).

(** What [demosaicing] returns: a list of images, or (for a floating-point
    frame) one array of floats. *)
Inductive pyret : Type :=
| RList (l : list image)
| RArray (a : ndarray spec_float).

End Py.

Module Cv2.
Import NumPy Py.

(** The [cv2] module as the code uses it: attribute lookup by name, giving an
    integer conversion code, and [cvtColor] ([None] is [cv2.error]). *)
Record cv2 : Type := mk_cv2 {
  getattr : string -> option Z;
  cvtColor : image -> Z -> option image
}.

(** The three interpolation variants the module's constants name. *)
Definition known_suffixes : list string := [""; "_VNG"; "_EA"]%string.

Definition bayer_name (pattern suf : string) : string :=
  ("COLOR_Bayer" ++ pattern ++ "2BGR" ++ suf)%string.

(** Samples within the range of an unsigned integer dtype. *)
Definition in_range (d : dtype) (q : Q) : Prop :=
  match d with
  | uint8 => (0 <= q <= 255)%Q
  | uint16 => (0 <= q <= 65535)%Q
  | _ => True
  end.

Definition is_u8_u16 (d : dtype) : bool :=
  match d with
  | uint8 | uint16 => true
  | _ => false
  end.

(** What the code needs of the debayer primitive: for the "BG" and "GR"
    patterns and each known variant the conversion code exists, and on a 2-D
    8- or 16-bit image it returns a 3-channel image of the same height and
    width and the same dtype, with samples in the dtype's range. *)
Definition debayer_contract (cv : cv2) : Prop :=
  forall pattern suf,
    In pattern ["BG"; "GR"]%string -> In suf known_suffixes ->
    exists code,
      getattr cv (bayer_name pattern suf) = Some code /\
      forall (img : image) (h w : nat),
        shape img = [h; w] -> is_u8_u16 (dtype_of img) = true -> wf img ->
        exists out,
          cvtColor cv img code = Some out /\
          shape out = [h; w; 3] /\
          dtype_of out = dtype_of img /\
          wf out /\
          Forall (in_range (dtype_of img)) (data out).

End Cv2.

(** ** demosaicing.py *)
Module Demosaicing.
Import NumPy Py Cv2.

Notation "x <- m ;; k" := (bind m (fun x => k))
  (at level 61, m at next level, right associativity, only parsing).
Notation "m ;;; k" := (bind m (fun _ => k))
  (at level 61, right associativity, only parsing).

(** *** Indexing, slicing and assignment on images *)

(** [a[r, c]] of a 2-D image and [a[r, c, k]] of a 3-D one. *)
Definition get2 (a : image) (r c : nat) : Q :=
  match shape a with
  | [_; w] => nth (r * w + c) (data a) 0%Q
  | _ => 0%Q
  end.

Definition get3 (a : image) (r c k : nat) : Q :=
  match shape a with
  | [_; w; ch] => nth ((r * w + c) * ch + k) (data a) 0%Q
  | _ => 0%Q
  end.

(** The [h] x [w] image, and the [h] x [w] x [ch] image, with given entries. *)
Definition build2 (d : dtype) (h w : nat) (f : nat -> nat -> Q) : image :=
  mk_ndarray d [h; w] (tabulate (h * w) (fun p => f (p / w) (p mod w))).

Definition build3 (d : dtype) (h w ch : nat) (f : nat -> nat -> nat -> Q) : image :=
  mk_ndarray d [h; w; ch]
    (tabulate (h * w * ch)
       (fun p => f (p / (w * ch)) ((p / ch) mod w) (p mod ch))).

(** [np.empty((h, w, 3), dtype)].  The contents are unspecified; the code
    overwrites every entry before reading it, and the model starts from
    zeros. *)
Definition np_empty3 (d : dtype) (h w : nat) : image :=
  build3 d h w 3 (fun _ _ _ => 0%Q).

(** Length of [range(j, n, 2)]. *)
Definition half_from (j n : nat) : nat := (n - j + 1) / 2.

(** [a[j::2, i::2]] of a 2-D image. *)
Definition strided2 (j i : nat) (a : image) : image :=
  match shape a with
  | [h; w] =>
      build2 (dtype_of a) (half_from j h) (half_from i w)
        (fun r c => get2 a (2 * r + j) (2 * c + i))
  | _ => a
  end.

Definition shape_eqb (s s' : list nat) : bool :=
  if list_eq_dec Nat.eq_dec s s' then true else false.

(** [dst[j::2, i::2] = src] for [j, i] in {0, 1} on a 3-D [dst].  numpy
    raises when the shape of [src] does not fit the slice (shapes that would
    broadcast are not modelled; the code assigns the exact shape). *)
Definition assign_strided (j i : nat) (dst src : image) : exn + image :=
  match shape dst with
  | [h; w; ch] =>
      if shape_eqb (shape src) [half_from j h; half_from i w; ch] then
        inr (build3 (dtype_of dst) h w ch
               (fun r c k =>
                  if (r mod 2 =? j) && (c mod 2 =? i)
                  then get3 src (r / 2) (c / 2) k
                  else get3 dst r c k))
      else inl ValueError_shape
  | _ => inl ValueError_shape
  end.

(** [dst[..., i] = plane] on a 3-D [dst]. *)
Definition assign_channel (i : nat) (dst plane : image) : exn + image :=
  match shape dst with
  | [h; w; ch] =>
      if shape_eqb (shape plane) [h; w] then
        inr (build3 (dtype_of dst) h w ch
               (fun r c k => if k =? i then get2 plane r c else get3 dst r c k))
      else inl ValueError_shape
  | _ => inl ValueError_shape
  end.

(** Channel [k] of a 3-D image, as a 2-D image. *)
Definition channel (k : nat) (a : image) : image :=
  match shape a with
  | [h; w; _] => build2 (dtype_of a) h w (fun r c => get3 a r c k)
  | _ => a
  end.

(** [cv2.split(m)]: the channels of [m], one 2-D image each. *)
Definition cv2_split (m : image) : M (list image) :=
  match shape m with
  | [_; _] => ret [m]
  | [_; _; ch] => ret (tabulate ch (fun k => channel k m))
  | _ => raise Cv2Error
  end.

(** [a, _, b = t] *)
Definition unpack_first_third (t : list image) : M (image * image) :=
  match t with
  | [a; _; b] => ret (a, b)
  | _ => raise (ValueError_unpack (length t))
  end.

(** An image of dtype [d] and shape [sh], with as many samples as the shape
    says, all in the range of [d]. *)
Definition good (d : dtype) (sh : list nat) (a : image) : Prop :=
  dtype_of a = d /\ shape a = sh /\ wf a /\ Forall (in_range d) (data a).

(** *** The float rescale *)

(** The largest sample of a non-empty buffer. *)
Definition max_sample (l : list Q) : Q :=
  match l with
  | [] => 0%Q
  | x :: t => fold_left Qmax t x
  end.

(** [np.max(a)] *)
Definition np_max_of (a : image) : M Q :=
  tell (Ev_numpy np_max) ;;;
  match data a with
  | [] => raise ValueError_zero_size
  | _ :: _ => ret (max_sample (data a))
  end.

(** Arithmetic on a floating-point frame is IEEE-754 arithmetic as the
    Standard Library specifies it ([SpecFloat]), in the format of the
    frame's dtype: binary16, binary32 or binary64.  (That the Python float
    [65535.0] takes the dtype of the array it meets is numpy's rule from
    version 2 on; for a [float64] frame every version computes in binary64.) *)
Definition fprec (d : dtype) : Z :=
  match d with float16 => 11%Z | float32 => 24%Z | _ => 53%Z end.

Definition femax (d : dtype) : Z :=
  match d with float16 => 16%Z | float32 => 128%Z | _ => 1024%Z end.

(** The float of dtype [d] nearest to an integer. *)
Definition Z2SF (d : dtype) (z : Z) : spec_float :=
  binary_normalize (fprec d) (femax d) z 0 false.

(** [Some j] when [p] is [2 ^ j]. *)
Fixpoint pow2_exponent (p : positive) : option Z :=
  match p with
  | xH => Some 0%Z
  | xO p' => option_map Z.succ (pow2_exponent p')
  | xI _ => None
  end.

(** The float a sample stands for: the sample itself when it is a float of
    dtype [d] (a dyadic rational within the format), and otherwise the float
    nearest to it (a rational with another denominator is not the value of
    any float; it is rounded through a division). *)
Definition Q2SF (d : dtype) (q : Q) : spec_float :=
  match pow2_exponent (Qden q) with
  | Some j => binary_normalize (fprec d) (femax d) (Qnum q) (- j) false
  | None => SFdiv (fprec d) (femax d) (Z2SF d (Qnum q)) (Z2SF d (Zpos (Qden q)))
  end.

(** [f.astype(d)] for a float [f] of dtype [d0]. *)
Definition SFcast (d0 d : dtype) (f : spec_float) : spec_float :=
  if dtype_eqb d0 d then f
  else match f with
       | S754_finite s m e =>
           binary_normalize (fprec d) (femax d) (cond_Zopp s (Zpos m)) e s
       | _ => f
       end.

(** [np.clip(y, lo, hi)] on floats: [minimum(maximum(y, lo), hi)], where a
    NaN stays a NaN. *)
Definition np_clip_float (lo hi y : spec_float) : spec_float :=
  match y with
  | S754_nan => S754_nan
  | _ =>
      let t := if SFltb lo y then y else lo in
      if SFltb t hi then t else hi
  end.

(** The cast of a float to an integer truncates toward zero.  (C leaves the
    cast of a NaN or an infinity undefined; 0 stands for it here.) *)
Definition SFtrunc (f : spec_float) : Z :=
  match f with
  | S754_finite s m e =>
      cond_Zopp s
        (match e with
         | Zneg p => Z.shiftr (Zpos m) (Zpos p)
         | _ => Z.shiftl (Zpos m) e
         end)
  | _ => 0%Z
  end.

(** The value of a finite float. *)
Definition SF2Q (f : spec_float) : Q :=
  match f with
  | S754_finite s m e => (inject_Z (cond_Zopp s (Zpos m)) * Qpower 2 e)%Q
  | _ => 0%Q
  end.

(** [np.clip(a * scale, 0, 65535).astype(np.uint16)]: the array, and the
    computation that logs its three steps. *)
Definition rescale_u16 (a : image) (scale : spec_float) : image :=
  let d := dtype_of a in
  mk_ndarray uint16 (shape a)
    (map (fun x =>
            inject_Z
              (SFtrunc
                 (np_clip_float (S754_zero false) (Z2SF d 65535)
                    (SFmul (fprec d) (femax d) (Q2SF d x) scale))
               mod 65536))
         (data a)).

Definition to_uint16 (a : image) (scale : spec_float) : M image :=
  tell (Ev_numpy np_multiply) ;;;
  tell (Ev_numpy np_clip) ;;;
  tell (Ev_numpy (np_astype uint16)) ;;;
  ret (rescale_u16 a scale).

(** [np.asarray(l)] for a list of arrays: they stack along a new first axis
    when their shapes agree. *)
Definition stack (l : list image) : exn + image :=
  match l with
  | [] => inr (mk_ndarray float64 [0] [])
  | a :: t =>
      if forallb (fun b => shape_eqb (shape b) (shape a)) t then
        inr (mk_ndarray (dtype_of a) (length l :: shape a) (concat (map data l)))
      else inl ValueError_shape
  end.

(** The dtype in which a [uint16] array is divided by a float of dtype [d]
    (numpy's [result_type]: binary16 cannot hold every [uint16]). *)
Definition div_dtype (d : dtype) : dtype :=
  match d with float16 => float32 | _ => d end.

(** [(u / scale).astype(d)] for a sample [u] of a [uint16] array and a
    [scale] of dtype [d]. *)
Definition unscale (d : dtype) (scale : spec_float) (u : Q) : spec_float :=
  let d' := div_dtype d in
  SFcast d' d
    (SFdiv (fprec d') (femax d') (Q2SF d' u) (SFcast d d' scale)).

(** [(r / scale).astype(dtype)], where [r] is what the recursive call
    returned: a list is first made an array.  (The call is on a [uint16]
    frame and returns a list; an array of floats is divided as it is.) *)
Definition from_uint16 (r : pyret) (scale : spec_float) (d : dtype) : M pyret :=
  match r with
  | RList l =>
      match stack l with
      | inl e => raise e
      | inr a =>
          tell (Ev_numpy np_true_divide) ;;;
          tell (Ev_numpy (np_astype d)) ;;;
          ret (RArray (mk_ndarray d (shape a) (map (unscale d scale) (data a))))
      end
  | RArray a =>
      tell (Ev_numpy np_true_divide) ;;;
      tell (Ev_numpy (np_astype d)) ;;;
      ret (RArray (mk_ndarray d (shape a)
                     (map (fun f => SFdiv (fprec d) (femax d) f scale) (data a))))
  end.

(** *** The functions of the file *)

Section WithCv2.
Variable cv : cv2.

(** [getattr(cv2, name)] *)
Definition cv2_getattr (name : string) : M Z :=
  match getattr cv name with
  | Some code => ret code
  | None => raise (AttributeError name)
  end.

(** [cv2.cvtColor(src, code)] *)
Definition cv2_cvtColor (src : image) (code : Z) : M image :=
  tell (Ev_cvtColor src code) ;;;
  match cvtColor cv src code with
  | Some out => ret out
  | None => raise Cv2Error
  end.

Definition __demosaicing_mono (img_mpfa : image) (suffix : string)
  : M (list image) :=
  code_bg <- cv2_getattr ("COLOR_BayerBG2BGR" ++ suffix)%string ;;
  code_gr <- cv2_getattr ("COLOR_BayerGR2BGR" ++ suffix)%string ;;
  img_debayer_bg <- cv2_cvtColor img_mpfa code_bg ;;
  img_debayer_gr <- cv2_cvtColor img_mpfa code_gr ;;
  split_bg <- cv2_split img_debayer_bg ;;
  p_bg <- unpack_first_third split_bg ;;
  split_gr <- cv2_split img_debayer_gr ;;
  p_gr <- unpack_first_third split_gr ;;
  let '(img_000, img_090) := p_bg in
  let '(img_045, img_135) := p_gr in
  ret [img_000; img_045; img_090; img_135].

(** One turn of the first loop of [__demosaicing_color], for the
    sub-position [(j, i)]. *)
Definition color_step (img_cpfa : image) (code : Z)
           (img_mpfa_bgr : image) (ji : nat * nat) : M image :=
  let '(j, i) := ji in
  let img_bayer_ij := strided2 j i img_cpfa in
  img_bgr_ij <- cv2_cvtColor img_bayer_ij code ;;
  match assign_strided j i img_mpfa_bgr img_bgr_ij with
  | inr a => ret a
  | inl e => raise e
  end.

(** One turn of the second loop, for channel [i] and its plane. *)
Definition polar_step (suffix : string)
           (acc : image * image * image * image) (ip : nat * image)
  : M (image * image * image * image) :=
  let '(img_bgr_000, img_bgr_045, img_bgr_090, img_bgr_135) := acc in
  let '(i, img_mpfa) := ip in
  l <- __demosaicing_mono img_mpfa suffix ;;
  match l with
  | [img_000; img_045; img_090; img_135] =>
      match assign_channel i img_bgr_000 img_000,
            assign_channel i img_bgr_045 img_045,
            assign_channel i img_bgr_090 img_090,
            assign_channel i img_bgr_135 img_135 with
      | inr a, inr b, inr c, inr d => ret (a, b, c, d)
      | inl e, _, _, _ => raise e
      | _, inl e, _, _ => raise e
      | _, _, inl e, _ => raise e
      | _, _, _, inl e => raise e
      end
  | _ => raise (ValueError_unpack (length l))
  end.

Definition __demosaicing_color (img_cpfa : image) (suffix : string)
  : M (list image) :=
  match shape img_cpfa with
  | height :: width :: _ =>
      let dtype := dtype_of img_cpfa in
      (* 1. Color demosaicing process *)
      let img_mpfa_bgr0 := np_empty3 dtype height width in
      code <- cv2_getattr ("COLOR_BayerBG2BGR" ++ suffix)%string ;;
      img_mpfa_bgr <-
        foldM (color_step img_cpfa code) img_mpfa_bgr0
              [(0, 0); (0, 1); (1, 0); (1, 1)] ;;
      (* 2. Polarization demosaicing process *)
      let e := np_empty3 (dtype_of img_mpfa_bgr) height width in
      planes <- cv2_split img_mpfa_bgr ;;
      acc <- foldM (polar_step suffix) (e, e, e, e)
                   (combine (seq 0 (length planes)) planes) ;;
      let '(img_bgr_000, img_bgr_045, img_bgr_090, img_bgr_135) := acc in
      ret [img_bgr_000; img_bgr_045; img_bgr_090; img_bgr_135]
  | _ => raise (ValueError_unpack (ndim img_cpfa))
  end.

(** [demosaicing] calls itself once, on the rescaled image, when the
    input is floating-point; [fuel] bounds the call depth. *)
Fixpoint demosaicing_fuel (fuel : nat) (img_raw : image) (code : pyobj)
  : M pyret :=
  match fuel with
  | O => raise RecursionError
  | S fuel' =>
      match code with
      | PyCode c =>
          let dtype := dtype_of img_raw in
          if issubdtype_floating dtype then
            m <- np_max_of img_raw ;;
            let scale :=
              SFdiv (fprec dtype) (femax dtype) (Z2SF dtype 65535) (Q2SF dtype m) in
            img_raw_u16 <- to_uint16 img_raw scale ;;
            img_demosaiced_u16 <- demosaicing_fuel fuel' img_raw_u16 code ;;
            from_uint16 img_demosaiced_u16 scale dtype
          else if negb (is_u8_u16 dtype) then
            raise (TypeError_dtype dtype)
          else if negb (ndim img_raw =? 2) then
            raise (ValueError_ndim (ndim img_raw) (shape img_raw))
          else if is_color c then
            l <- __demosaicing_color img_raw (suffix c) ;; ret (RList l)
          else
            l <- __demosaicing_mono img_raw (suffix c) ;; ret (RList l)
      | _ => raise TypeError_code
      end
  end.

(** Two levels are all a call uses (see [demosaicing_fuel_enough]). *)
Definition demosaicing (img_raw : image) (code : pyobj) : M pyret :=
  demosaicing_fuel 2 img_raw code.

End WithCv2.

(** The module's six descriptors. *)
Definition COLOR_PolarRGB := mk_code true "".
Definition COLOR_PolarMono := mk_code false "".
Definition COLOR_PolarRGB_VNG := mk_code true "_VNG".
Definition COLOR_PolarMono_VNG := mk_code false "_VNG".
Definition COLOR_PolarRGB_EA := mk_code true "_EA".
Definition COLOR_PolarMono_EA := mk_code false "_EA".

(** *** A stand-in for OpenCV

    A nearest-neighbour debayer, for concrete runs: each of the six
    conversion names has a code, and every pixel takes, per channel, the
    sample of its own 2 x 2 cell that carries that channel.  In cv2's naming
    the two letters are the colours at row 1, columns 1 and 2 of the mosaic,
    and the output channels are B, G, R; so for "BG" channel 0 (B) sits at
    cell offset (1, 1) and channel 2 (R) at (0, 0), and for "GR" channel 0
    sits at (0, 1) and channel 2 at (1, 0).  It is not OpenCV's
    interpolation; it only meets [debayer_contract]. *)
Definition nearest_getattr (name : string) : option Z :=
  if String.eqb name "COLOR_BayerBG2BGR" then Some 46%Z
  else if String.eqb name "COLOR_BayerGR2BGR" then Some 49%Z
  else if String.eqb name "COLOR_BayerBG2BGR_VNG" then Some 62%Z
  else if String.eqb name "COLOR_BayerGR2BGR_VNG" then Some 65%Z
  else if String.eqb name "COLOR_BayerBG2BGR_EA" then Some 135%Z
  else if String.eqb name "COLOR_BayerGR2BGR_EA" then Some 138%Z
  else None.

(** Cell offset (row, column) of channel [k] for a conversion code. *)
Definition cell_offset (code : Z) (k : nat) : option (nat * nat) :=
  if (code =? 46)%Z || (code =? 62)%Z || (code =? 135)%Z then
    Some (match k with 0 => (1, 1) | 1 => (0, 1) | _ => (0, 0) end)
  else if (code =? 49)%Z || (code =? 65)%Z || (code =? 138)%Z then
    Some (match k with 0 => (0, 1) | 1 => (0, 0) | _ => (1, 0) end)
  else None.

Definition clamp (d : dtype) (q : Q) : Q :=
  match d with
  | uint8 => Qmin (Qmax q 0) 255
  | uint16 => Qmin (Qmax q 0) 65535
  | _ => q
  end.

Definition nearest_cvtColor (img : image) (code : Z) : option image :=
  match shape img, cell_offset code 0 with
  | [h; w], Some _ =>
      Some (build3 (dtype_of img) h w 3
              (fun r c k =>
                 match cell_offset code k with
                 | Some (dr, dc) =>
                     clamp (dtype_of img)
                       (get2 img (2 * (r / 2) + dr) (2 * (c / 2) + dc))
                 | None => 0%Q
                 end))
  | _, _ => None
  end.

Definition cv2_nearest : cv2 := mk_cv2 nearest_getattr nearest_cvtColor.

(** OpenCV's variable-number-of-gradients debayer accepts 8-bit images only:
    with one of its four codes [cv2.cvtColor] raises [cv2.error] on a 16-bit
    image.  [cv2_depths] is [cv2_nearest] with that rule. *)
Definition is_vng (code : Z) : bool := ((62 <=? code) && (code <=? 65))%Z.

Definition depths_cvtColor (img : image) (code : Z) : option image :=
  if is_vng code && negb (dtype_eqb (dtype_of img) uint8) then None
  else nearest_cvtColor img code.

Definition cv2_depths : cv2 := mk_cv2 nearest_getattr depths_cvtColor.

(** Sample frames: the 2 x 2 8-bit mosaic whose samples are the angles of
    their polarizers (90, 45 / 135, 0), a 2 x 2 float mosaic, and a
    1 x 1 x 1 float array. *)
Definition mosaic_u8 : image := mk_ndarray uint8 [2; 2] [90; 45; 135; 0]%Q.
Definition mosaic_f64 : image :=
  mk_ndarray float64 [2; 2] [(1 # 2); (1 # 4); 1; (3 # 4)]%Q.
Definition cube_f64 : image := mk_ndarray float64 [1; 1; 1] [1]%Q.

(** A 4 x 4 16-bit mosaic (the 2 x 2 cell 900, 450 / 1350, 0 repeated), and
    a 2 x 2 float mosaic whose largest sample is 13. *)
Definition mosaic_u16 : image :=
  mk_ndarray uint16 [4; 4]
    [900; 450; 900; 450; 1350; 0; 1350; 0;
     900; 450; 900; 450; 1350; 0; 1350; 0]%Q.
Definition mosaic_f64_13 : image :=
  mk_ndarray float64 [2; 2] [13; (13 # 2); (13 # 4); 0]%Q.

End Demosaicing.

(** ** Dense linear algebra over the reals *)
Module LinAlg.
Import NumPy.
Local Open Scope R_scope.

(** A vector is a list of reals, a matrix the list of its rows. *)
Abbreviation vec := (list R).
Abbreviation matrix := (list (list R)).

Fixpoint dot (u v : vec) : R :=
  match u, v with
  | a :: u', b :: v' => a * b + dot u' v'
  | _, _ => 0
  end.

Definition vadd (u v : vec) : vec := map2 Rplus u v.
Definition vsub (u v : vec) : vec := map2 Rminus u v.
Definition vscale (c : R) (u : vec) : vec := map (Rmult c) u.

(** Squared Euclidean norm. *)
Definition norm2 (u : vec) : R := dot u u.

Definition matvec (A : matrix) (x : vec) : vec := map (fun row => dot row x) A.

Definition col (j : nat) (A : matrix) : vec := map (fun row => nth j row 0) A.

(** The row vector [u^T A], for [A] with [n] columns. *)
Definition vecmat (n : nat) (u : vec) (A : matrix) : vec :=
  tabulate n (fun j => dot u (col j A)).

(** [A B], for [B] with [p] columns. *)
Definition mmul (p : nat) (A B : matrix) : matrix :=
  map (fun row => vecmat p row B) A.

(** [A^T], for [A] with [n] columns. *)
Definition transpose (n : nat) (A : matrix) : matrix :=
  tabulate n (fun j => col j A).

(** [A] has [m] rows of [n] entries. *)
Definition is_matrix (m n : nat) (A : matrix) : Prop :=
  length A = m /\ Forall (fun row => length row = n) A.

(** [B] is the Moore-Penrose pseudo-inverse of the [m] x [n] matrix [A]:
    the four Penrose conditions. *)
Definition is_pinv (m n : nat) (A B : matrix) : Prop :=
  is_matrix m n A /\ is_matrix n m B /\
  mmul n (mmul m A B) A = A /\
  mmul m (mmul n B A) B = B /\
  transpose m (mmul m A B) = mmul m A B /\
  transpose n (mmul n B A) = mmul n B A.

(** The squared residual of [x] for the system [A x = b]. *)
Definition residual (A : matrix) (x b : vec) : R := norm2 (vsub (matvec A x) b).

(** [x] solves the least-squares problem [A x = b] over vectors of length
    [n]; and it is the solution of least norm. *)
Definition least_squares (n : nat) (A : matrix) (b x : vec) : Prop :=
  length x = n /\
  forall y, length y = n -> residual A x b <= residual A y b.

Definition minimum_norm (n : nat) (A : matrix) (b x : vec) : Prop :=
  forall y, length y = n -> residual A y b <= residual A x b ->
            norm2 x <= norm2 y.

End LinAlg.

(** ** Stokes vectors: the fit and the derived-quantity kernels *)
Module Stokes.
Import NumPy LinAlg.

(** The arithmetic the kernels need of the element type. *)
Class Arith (T : Type) : Type := {
  fzero : T;
  fadd : T -> T -> T;
  fsub : T -> T -> T;
  fmul : T -> T -> T;
  fdiv : T -> T -> T;
  fsqrt : T -> T;
  lit_half : T;   (* the literal 0.5 *)
  lit_one : T     (* the literal 1.0 *)
}.

(** Exact real arithmetic. *)
#[export] Instance Arith_R : Arith R := {|
  fzero := 0%R;
  fadd := Rplus;
  fsub := Rminus;
  fmul := Rmult;
  fdiv := Rdiv;
  fsqrt := sqrt;
  lit_half := 0.5%R;
  lit_one := 1%R
|}.

(** IEEE-754 binary64 ([np.float64]): 53 bits of precision, [emax = 1024]. *)
Definition prec64 : Z := 53.
Definition emax64 : Z := 1024.

#[export] Instance Arith_binary64 : Arith spec_float := {|
  fzero := S754_zero false;
  fadd := SFadd prec64 emax64;
  fsub := SFsub prec64 emax64;
  fmul := SFmul prec64 emax64;
  fdiv := SFdiv prec64 emax64;
  fsqrt := SFsqrt prec64 emax64;
  lit_half := S754_finite false 4503599627370496 (-53);
  lit_one := S754_finite false 4503599627370496 (-52)
|}.

(** A float that is NaN or an infinity. *)
Definition nonfinite (x : spec_float) : bool :=
  match x with
  | S754_nan | S754_infinity _ => true
  | _ => false
  end.

Definition is_zero (x : spec_float) : bool :=
  match x with
  | S754_zero _ => true
  | _ => false
  end.

Notation "x <- e ;; k" :=
  (match e with Some x => k | None => None end)
  (at level 61, e at next level, right associativity, only parsing).

(** *** The Stokes fit *)

(** The vectors along the last axis: the rows of a matrix, the per-pixel
    vectors of an image. *)
Definition rows {T} (a : ndarray T) : list (list T) :=
  chunks (last (shape a) 0) (data a).

(** [M[..., 0, :]]: of every trailing [r] x [c] matrix, row 0. *)
Definition first_rows (M : ndarray R) : option (ndarray R) :=
  match rev (shape M) with
  | c :: r :: lead =>
      if 0 <? r then
        Some (mk_ndarray (dtype_of M) (rev lead ++ [c])
                (concat (map (firstn c) (chunks (r * c) (data M)))))
      else None
  | _ => None
  end.

(** [np.tensordot(P, I, axes=(1, -1))] for a 2-D [P]: axis 1 of [P] is summed
    against the last axis of [I]; the result has axis 0 of [P] first and the
    leading axes of [I] after it.  [None] is numpy's shape-mismatch error. *)
Definition tensordot_1_last (P I : ndarray R) : option (ndarray R) :=
  match shape P, rev (shape I) with
  | [c; n], n' :: lead =>
      if n =? n' then
        Some (mk_ndarray (dtype_of P) (c :: rev lead)
                (concat (map (fun row => map (dot row) (rows I)) (rows P))))
      else None
  | _, _ => None
  end.

(** [np.moveaxis(S, 0, -1)]: element [(p, k)] of the result is element
    [(k, p)] of [S]. *)
Definition moveaxis_0_last (a : ndarray R) : option (ndarray R) :=
  match shape a with
  | c :: rest =>
      let np := length (data a) / c in
      Some (mk_ndarray (dtype_of a) (rest ++ [c])
              (tabulate (length (data a))
                 (fun q => nth ((q mod c) * np + q / c) (data a) 0%R)))
  | [] => None
  end.

(** [a[..., :3, :3]] *)
Definition slice_3_3 (M : ndarray R) : option (ndarray R) :=
  match rev (shape M) with
  | c :: r :: lead =>
      Some (mk_ndarray (dtype_of M) (rev lead ++ [Nat.min 3 r; Nat.min 3 c])
              (concat (map (fun slab => concat (map (firstn 3) (firstn 3 (chunks c slab))))
                         (chunks (r * c) (data M)))))
  | _ => None
  end.

(** Modelled from the spec: [mueller.polarizer] is not among the source
    files.  The spec describes it as the closed-form linear-polarizer model,
    one 4 x 4 matrix per angle, whose first row is [[1, cos 2t, sin 2t]] "up to
    scaling"; the scale is the parameter [k], and the rows below the first
    (which the fit never reads) follow the same closed form. *)
Definition polarizer (k : R) (theta : ndarray R) : ndarray R :=
  mk_ndarray (dtype_of theta) (shape theta ++ [4; 4])
    (flat_map
       (fun t =>
          let c := cos (2 * t) in
          let s := sin (2 * t) in
          map (Rmult k)
            [1; c; s; 0;
             c; c * c; s * c; 0;
             s; s * c; s * s; 0;
             0; 0; 0; 0])
       (data theta))%R.

Section Fit.
(** [np.linalg.pinv] *)
Variable pinv : ndarray R -> ndarray R.

Definition calcStokes (I M : ndarray R) : option (ndarray R) :=
  match first_rows M with
  | Some A =>
      let A_pinv := pinv A in
      match tensordot_1_last A_pinv I with
      | Some S_ => moveaxis_0_last S_
      | None => None
      end
  | None => None
  end.

(** [k] is the scale of the polarizer model. *)
Definition calcLinearStokes (k : R) (I theta : ndarray R) : option (ndarray R) :=
  match slice_3_3 (polarizer k theta) with
  | Some M => calcStokes I M
  | None => None
  end.

End Fit.

(** The measurement matrix [calcLinearStokes] hands to [pinv]:
    [polarizer(theta)[..., :3, :3][..., 0, :]]. *)
Definition linear_design (k : R) (theta : ndarray R) : option (ndarray R) :=
  match slice_3_3 (polarizer k theta) with
  | Some M => first_rows M
  | None => None
  end.

(** The synthetic intensity stack of a Stokes image for the polarizer angles
    [theta]: [I_j = S0 + S1 cos(2 theta_j) + S2 sin(2 theta_j)] at every
    pixel. *)
Definition synthetic_intensity (theta : ndarray R) (stokes : ndarray R)
  : ndarray R :=
  mk_ndarray (dtype_of stokes) (removelast (shape stokes) ++ [length (data theta)])
    (concat
       (map (fun s =>
               map (fun t => nth 0 s 0 + nth 1 s 0 * cos (2 * t)
                             + nth 2 s 0 * sin (2 * t))
                 (data theta))
          (rows stokes)))%R.

(** The four polarizer angles 0, 45, 90 and 135 degrees, in radians. *)
Definition theta_0_45_90_135 : ndarray R :=
  mk_ndarray float64 [4] [0; PI / 4; PI / 2; 3 * (PI / 4)]%R.

(** The design matrix of those four angles for a polarizer model of scale
    [k], entries as [polarizer] computes them. *)
Definition design_0_45_90_135 (k : R) : ndarray R :=
  mk_ndarray float64 [4; 3]
    [k * 1; k * cos (2 * 0); k * sin (2 * 0);
     k * 1; k * cos (2 * (PI / 4)); k * sin (2 * (PI / 4));
     k * 1; k * cos (2 * (PI / 2)); k * sin (2 * (PI / 2));
     k * 1; k * cos (2 * (3 * (PI / 4))); k * sin (2 * (3 * (PI / 4)))]%R.

(** The pseudo-inverse of the design matrix of those four angles, for a
    polarizer model of scale [k]: the matrix
    [(1/k) [[1/4, 1/4, 1/4, 1/4], [1/2, 0, -1/2, 0], [0, 1/2, 0, -1/2]]],
    as a stand-in for [np.linalg.pinv] on that one argument. *)
Definition pinv_linear (k : R) (_ : ndarray R) : ndarray R :=
  mk_ndarray float64 [3; 4]
    [/ k * / 4; / k * / 4; / k * / 4; / k * / 4;
     / k * / 2; 0; - (/ k * / 2); 0;
     0; / k * / 2; 0; - (/ k * / 2)]%R.

(** Sample data: a one-pixel Stokes image, and a two-acquisition fit of one
    unknown whose pseudo-inverse is the mean. *)
Definition stokes_1_0_0 : ndarray R := mk_ndarray float64 [1; 3] [1; 0; 0]%R.

Definition mueller_ones : ndarray R := mk_ndarray float64 [2; 1; 1] [1; 1]%R.
Definition design_ones : ndarray R := mk_ndarray float64 [2; 1] [1; 1]%R.
Definition intensity_1_3 : ndarray R := mk_ndarray float64 [1; 2] [1; 3]%R.
Definition pinv_mean (_ : ndarray R) : ndarray R :=
  mk_ndarray float64 [1; 2] [/ 2; / 2]%R.

(** *** The derived-quantity kernels *)

(** An image whose last axis holds at least [c] Stokes components: shape
    [(..., n)] with [c <= n]. *)
Definition stokes_image {T} (c : nat) (img : ndarray T) : Prop :=
  exists lead n, shape img = lead ++ [n] /\ c <= n.

(** Number of pixels, and component [k] of pixel [p], read off the buffer. *)
Definition npixels {T} (img : ndarray T) : nat :=
  length (data img) / last (shape img) 0.

Definition stokes_at {T} (d : T) (img : ndarray T) (p k : nat) : T :=
  nth (p * last (shape img) 0 + k) (data img) d.

(** Elementwise [<=] of two real arrays of one shape. *)
Definition arr_le (a b : ndarray R) : Prop :=
  shape a = shape b /\ Forall2 Rle (data a) (data b).

(** Sample data: a 1 x 2 Stokes image over the reals, with pixels (2, 1, 0)
    and (4, 3, 4), and the all-zero 1 x 2 Stokes image in binary64. *)
Definition stokes_two_pixels : ndarray R :=
  mk_ndarray float64 [1; 2; 3] [2; 1; 0; 4; 3; 4]%R.

Definition stokes_zeros : ndarray spec_float :=
  mk_ndarray float64 [1; 2; 3] (repeat (S754_zero false) 6).

Section Kernels.
Context {T : Type} {AT : Arith T}.

(** [img[..., k]] *)
Definition component (k : nat) (img : ndarray T) : option (ndarray T) :=
  ellipsis_index fzero k img.

Definition arr_add := ufunc2 fadd.
Definition arr_sub := ufunc2 fsub.
Definition arr_div := ufunc2 fdiv.
(** [a ** 2] *)
Definition arr_sq := ufunc1 (fun x => fmul x x).
Definition arr_sqrt := ufunc1 fsqrt.
(** [a * c] and [c * a] for a scalar [c] *)
Definition arr_mul_scalar (a : ndarray T) (c : T) := ufunc1 (fun x => fmul x c) a.
Definition scalar_mul_arr (c : T) (a : ndarray T) := ufunc1 (fun x => fmul c x) a.
(** [a / c] for a scalar [c] *)
Definition arr_div_scalar (a : ndarray T) (c : T) := ufunc1 (fun x => fdiv x c) a.

Definition cvtStokesToImax (img_stokes : ndarray T) : option (ndarray T) :=
  S0 <- component 0 img_stokes ;;
  S1 <- component 1 img_stokes ;;
  S2 <- component 2 img_stokes ;;
  Some (arr_mul_scalar
          (arr_add S0 (arr_sqrt (arr_add (arr_sq S1) (arr_sq S2)))) lit_half).

Definition cvtStokesToImin (img_stokes : ndarray T) : option (ndarray T) :=
  S0 <- component 0 img_stokes ;;
  S1 <- component 1 img_stokes ;;
  S2 <- component 2 img_stokes ;;
  Some (arr_mul_scalar
          (arr_sub S0 (arr_sqrt (arr_add (arr_sq S1) (arr_sq S2)))) lit_half).

Definition cvtStokesToDoLP (img_stokes : ndarray T) : option (ndarray T) :=
  S0 <- component 0 img_stokes ;;
  S1 <- component 1 img_stokes ;;
  S2 <- component 2 img_stokes ;;
  Some (arr_div (arr_sqrt (arr_add (arr_sq S1) (arr_sq S2))) S0).

Definition cvtStokesToIntensity (img_stokes : ndarray T) : option (ndarray T) :=
  S0 <- component 0 img_stokes ;;
  Some (arr_mul_scalar S0 lit_half).

Definition cvtStokesToDiffuse (img_stokes : ndarray T) : option (ndarray T) :=
  Imin <- cvtStokesToImin img_stokes ;;
  Some (scalar_mul_arr lit_one Imin).

Definition cvtStokesToSpecular (img_stokes : ndarray T) : option (ndarray T) :=
  S1 <- component 1 img_stokes ;;
  S2 <- component 2 img_stokes ;;
  Some (arr_sqrt (arr_add (arr_sq S1) (arr_sq S2))).

Definition cvtStokesToDoP (img_stokes : ndarray T) : option (ndarray T) :=
  S0 <- component 0 img_stokes ;;
  S1 <- component 1 img_stokes ;;
  S2 <- component 2 img_stokes ;;
  S3 <- component 3 img_stokes ;;
  Some (arr_div
          (arr_sqrt (arr_add (arr_add (arr_sq S1) (arr_sq S2)) (arr_sq S3))) S0).

End Kernels.

(** The angle kernels need [arctan2], [mod] and [pi]; they are read over the
    reals here, and [cvtStokesToAoLP] over binary64 in [Stokes64]. *)
Section AngleKernels.
Local Open Scope R_scope.

(** [np.arctan2(y, x)]: the angle of the point [(x, y)], in (-pi, pi]. *)
Definition arctan2 (y x : R) : R :=
  if Rlt_dec 0 x then atan (y / x)
  else if Rlt_dec x 0 then
    if Rle_dec 0 y then atan (y / x) + PI else atan (y / x) - PI
  else if Rlt_dec 0 y then PI / 2
  else if Rlt_dec y 0 then - (PI / 2)
  else 0.

(** [np.mod(a, b)] in exact arithmetic: the remainder of the floored
    division, which takes the sign of [b] and is always below [b] in
    magnitude.  (For [b = 0] numpy answers nan; the kernels divide by [pi]
    only.)  On doubles [np.mod] is [Stokes64.np_mod64], which can return
    [b] itself: a tiny negative remainder plus [b] rounds to [b]. *)
Definition np_mod (a b : R) : R := a - IZR (Int_part (a / b)) * b.

Definition cvtStokesToAoLP (img_stokes : ndarray R) : option (ndarray R) :=
  S1 <- component 1 img_stokes ;;
  S2 <- component 2 img_stokes ;;
  Some (ufunc1 (fun x => np_mod x PI)
          (scalar_mul_arr 0.5 (ufunc2 arctan2 S2 S1))).

Definition cvtStokesToEllipticityAngle (img_stokes : ndarray R)
  : option (ndarray R) :=
  S1 <- component 1 img_stokes ;;
  S2 <- component 2 img_stokes ;;
  S3 <- component 3 img_stokes ;;
  Some (scalar_mul_arr 0.5
          (ufunc2 arctan2 S3 (arr_sqrt (arr_add (arr_sq S1) (arr_sq S2))))).

End AngleKernels.

End Stokes.
(** ** Further sample data and helper definitions *)
Module StokesSamples.
Import NumPy Stokes.

(** A 1 x 2 Stokes image with four components per pixel: (2, 1, 0, 1) and
    (4, 3, 4, 0). *)
Definition stokes_four_components : ndarray R :=
  mk_ndarray float64 [1; 2; 4] [2; 1; 0; 1; 4; 3; 4; 0]%R.

(** A one-pixel Stokes image of circularly polarized light: (1, 0, 0, 1). *)
Definition stokes_circular : ndarray R :=
  mk_ndarray float64 [1; 4] [1; 0; 0; 1]%R.

(** The image [c * img]. *)
Definition scale_image (c : R) (img : ndarray R) : ndarray R :=
  ufunc1 (Rmult c) img.

(** A kernel's result keeps the leading axes of the image and has one
    value per pixel: [o] is [Some a] with [a] of shape [lead] and a buffer
    of that size.  (The dtype of the result is not modelled, see
    [NumPy.ufunc1].) *)
Definition keeps_leading {T} (lead : list nat) (o : option (ndarray T)) : Prop :=
  exists a, o = Some a /\ shape a = lead /\ wf a.

End StokesSamples.

Module FitSamples.
Import NumPy LinAlg Stokes.

(** The noise-free observation of a Stokes image through the design matrix
    [A]: at every pixel the intensity vector is [A s]. *)
Definition observe (A St : ndarray R) : ndarray R :=
  mk_ndarray (dtype_of St)
    (removelast (shape St) ++ [length (rows A)])
    (concat (map (matvec (rows A)) (rows St))).

(** The columns of [A] are linearly independent: [A z = 0] only for
    [z = 0], over vectors of length [c]. *)
Definition independent_columns (c : nat) (A : list (list R)) : Prop :=
  forall z, length z = c ->
            Forall (fun a => a = 0%R) (matvec A z) -> Forall (fun a => a = 0%R) z.

(** A second intensity image for the two-acquisition sample fit. *)
Definition intensity_5_7 : ndarray R := mk_ndarray float64 [1; 2] [5; 7]%R.

(** A one-pixel, one-component Stokes image. *)
Definition stokes_scalar_4 : ndarray R := mk_ndarray float64 [1; 1] [4]%R.

End FitSamples.

(** ** stokes.py: the colour map of the angle image *)
Module ColorMap.
Import NumPy Py Cv2 Demosaicing.

(** An argument that is a float or an array. *)
Inductive scalar_or_array : Type :=
| Scalar (x : R)
| Array (a : ndarray R).

(** Truncation toward zero, as a cast from float to integer does. *)
Definition Rtrunc (x : R) : Z :=
  if Rle_dec 0 x then Int_part x else (- Int_part (- x))%Z.

(** [a.astype(np.uint8)] of a float array: truncate, and wrap to eight
    bits. *)
Definition astype_uint8 (a : ndarray R) : image :=
  mk_ndarray uint8 (shape a)
    (map (fun x => inject_Z (Rtrunc x mod 256)) (data a)).

(** [np.ones_like(a)] *)
Definition np_ones_like (a : ndarray R) : ndarray R :=
  mk_ndarray (dtype_of a) (shape a) (map (fun _ => 1%R) (data a)).

(** [a * s] for a float or an array [s].  (An array of another shape would
    broadcast or raise; only arrays of the shape of [a] are modelled, others
    raise.) *)
Definition times (a : ndarray R) (s : scalar_or_array) : exn + ndarray R :=
  match s with
  | Scalar x => inr (ufunc1 (fun y => (y * x)%R) a)
  | Array b =>
      if shape_eqb (shape b) (shape a) then inr (ufunc2 Rmult a b)
      else inl ValueError_shape
  end.

(** [np.clip(a, lo, hi)] *)
Definition np_clip_R (a : ndarray R) (lo hi : R) : ndarray R :=
  ufunc1 (fun x => Rmin (Rmax x lo) hi) a.

(** [np.clip(img_ones * s * 255, 0, 255).astype(np.uint8)] *)
Definition to_byte_plane (img_ones : ndarray R) (s : scalar_or_array)
  : M image :=
  match times img_ones s with
  | inr a =>
      ret (astype_uint8 (np_clip_R (ufunc1 (fun y => (y * 255)%R) a) 0 255))
  | inl e => raise e
  end.

(** [cv2.merge([a, b, c])] of three 2-D planes of one shape.  (Planes that
    are not 2-D are not modelled and raise.) *)
Definition cv2_merge3 (a b c : image) : M image :=
  match shape a with
  | [h; w] =>
      if shape_eqb (shape b) [h; w] && shape_eqb (shape c) [h; w] then
        ret (build3 (dtype_of a) h w 3
               (fun r col k =>
                  match k with
                  | 0 => get2 a r col
                  | 1 => get2 b r col
                  | _ => get2 c r col
                  end))
      else raise Cv2Error
  | _ => raise Cv2Error
  end.

(** Of the computations only [cv2.cvtColor] is logged here. *)
Definition applyColorToAoLP (cv : cv2) (img_AoLP : ndarray R)
           (saturation value : scalar_or_array) : M image :=
  let img_ones := np_ones_like img_AoLP in
  let img_hue :=
    astype_uint8 (ufunc1 (fun x => (Stokes.np_mod x PI / PI * 179)%R) img_AoLP) in
  img_saturation <- to_byte_plane img_ones saturation ;;
  img_value <- to_byte_plane img_ones value ;;
  img_hsv <- cv2_merge3 img_hue img_saturation img_value ;;
  code <- cv2_getattr cv "COLOR_HSV2BGR" ;;
  cv2_cvtColor cv img_hsv code.

(** The HSV image the function builds, for float [saturation] and
    [value]. *)
Definition hsv_of (img_AoLP : ndarray R) (saturation value : R) : image :=
  match shape img_AoLP with
  | [h; w] =>
      build3 uint8 h w 3
        (fun r col k =>
           let p := r * w + col in
           match k with
           | 0 => inject_Z
                    (Rtrunc (Stokes.np_mod (nth p (data img_AoLP) 0%R) PI / PI * 179)
                     mod 256)
           | 1 => inject_Z
                    (Rtrunc (Rmin (Rmax (1 * saturation * 255) 0) 255) mod 256)
           | _ => inject_Z
                    (Rtrunc (Rmin (Rmax (1 * value * 255) 0) 255) mod 256)
           end)
  | _ => mk_ndarray uint8 [] []
  end.

(** A 1 x 2 image of angles: 0 and pi/2. *)
Definition aolp_two_pixels : ndarray R :=
  mk_ndarray float64 [1; 2] [0; PI / 2]%R.

(** A stand-in [cv2] that knows the HSV conversion and returns its input. *)
Definition cv2_identity : cv2 :=
  mk_cv2 (fun name => if String.eqb name "COLOR_HSV2BGR" then Some 54%Z else None)
         (fun img _ => Some img).

End ColorMap.


(** ** demosaicing.py: what the colour path computes *)
Module ColorPath.
Import NumPy Py Cv2 Demosaicing.

(** [cv2.cvtColor(src, code)] as a value (the empty image where cv2
    fails). *)
Definition debayer (cv : cv2) (src : image) (code : Z) : image :=
  match cvtColor cv src code with
  | Some out => out
  | None => mk_ndarray (dtype_of src) [] []
  end.

(** The four debayered sub-mosaics, interleaved: pixel [(r, c)] is pixel
    [(r / 2, c / 2)] of the debayered sub-mosaic
    [img[r mod 2 :: 2, c mod 2 :: 2]]. *)
Definition interleaved_bgr (cv : cv2) (code : Z) (img : image) (h w : nat)
  : image :=
  build3 (dtype_of img) h w 3
    (fun r c k =>
       get3 (debayer cv (strided2 (r mod 2) (c mod 2) img) code)
            (r / 2) (c / 2) k).

(** The image whose colour channel [k] is channel [ch] of the debayered
    colour plane [k] of [bgr]. *)
Definition per_channel (cv : cv2) (code : Z) (ch : nat) (bgr : image)
           (h w : nat) : image :=
  build3 (dtype_of bgr) h w 3
    (fun r c k => get3 (debayer cv (channel k bgr) code) r c ch).

(** One [cv2.cvtColor] call does what the debayer primitive is required to
    do: on the image [x] of height [h] and width [w] it returns a 3-channel
    image of that height and width, of dtype [d] (samples within the
    dtype's range). *)
Definition call_ok (cv : cv2) (d : dtype) (x : image) (code : Z) (h w : nat)
  : Prop :=
  exists out, cvtColor cv x code = Some out /\ good d [h; w; 3] out.

(** Every [cv2.cvtColor] call that [demosaicing] makes on the frame [img]
    does so.  Monochrome path: the two calls on the frame.  Colour path:
    the four calls on the sub-mosaics, and the two calls on each colour
    plane of the interleaved image. *)
Definition debayer_calls_succeed (cv : cv2) (d : dtype) (color : bool)
           (code_bg code_gr : Z) (img : image) (h w : nat) : Prop :=
  if color then
    (forall j i, j < 2 -> i < 2 ->
       call_ok cv d (strided2 j i img) code_bg (half_from j h) (half_from i w)) /\
    (forall k, k < 3 ->
       call_ok cv d (channel k (interleaved_bgr cv code_bg img h w)) code_bg h w /\
       call_ok cv d (channel k (interleaved_bgr cv code_bg img h w)) code_gr h w)
  else
    call_ok cv d img code_bg h w /\ call_ok cv d img code_gr h w.

(** The ten [cv2.cvtColor] calls of the colour path. *)
Definition color_log (img : image) (code_bg code_gr : Z) (bgr : image)
  : list event :=
  [Ev_cvtColor (strided2 0 0 img) code_bg;
   Ev_cvtColor (strided2 0 1 img) code_bg;
   Ev_cvtColor (strided2 1 0 img) code_bg;
   Ev_cvtColor (strided2 1 1 img) code_bg;
   Ev_cvtColor (channel 0 bgr) code_bg; Ev_cvtColor (channel 0 bgr) code_gr;
   Ev_cvtColor (channel 1 bgr) code_bg; Ev_cvtColor (channel 1 bgr) code_gr;
   Ev_cvtColor (channel 2 bgr) code_bg; Ev_cvtColor (channel 2 bgr) code_gr].

(** A [cv2] that knows no conversion name, and one that knows the names of
    [cv2_nearest] but whose [cvtColor] always fails. *)
Definition cv2_no_names : cv2 := mk_cv2 (fun _ => None) nearest_cvtColor.
Definition cv2_failing : cv2 := mk_cv2 nearest_getattr (fun _ _ => None).

End ColorPath.

(** ** stokes.py: the angle kernel in binary64 *)
Module Stokes64.
Import NumPy Stokes.

(** [np.pi]: the double nearest to pi, 0x1.921fb54442d18p+1. *)
Definition pi64 : spec_float := S754_finite false 7074237752028440 (-51).

(** C's [fmod] (LLVM's [frem]) on doubles: the remainder of the division
    truncated toward zero.  It is exact and has the sign of [x]. *)
Definition SFfmod (x y : spec_float) : spec_float :=
  match x, y with
  | S754_nan, _ | _, S754_nan => S754_nan
  | S754_infinity _, _ => S754_nan
  | _, S754_zero _ => S754_nan
  | S754_zero _, _ => x
  | _, S754_infinity _ => x
  | S754_finite sx mx ex, S754_finite sy my ey =>
      let ez := Z.min ex ey in
      let a := Zpos (fst (shl_align mx ex ez)) in
      let b := Zpos (fst (shl_align my ey ez)) in
      binary_normalize prec64 emax64 (cond_Zopp sx (a mod b)) ez sx
  end.

(** [np.mod(a, b)] on doubles: [fmod(a, b)], to which [b] is added when the
    remainder is not zero and its sign is not that of [b]; a remainder that
    needs no fixing has [0.0] added.  (This is the code numba generates;
    numpy's own loop gives the same doubles for a positive [b].) *)
Definition np_mod64 (a b : spec_float) : spec_float :=
  let zero := S754_zero false in
  let res := SFfmod a b in
  let res_ne_zero :=
    match SFcompare res zero with
    | Some Eq | None => false
    | Some _ => true
    end in
  let needs_fixing :=
    res_ne_zero && xorb (SFltb b zero) (SFltb res zero) in
  SFadd prec64 emax64 res (if needs_fixing then b else zero).

Section AngleKernel64.
(** The C library's [atan2] on doubles. *)
Variable atan2 : spec_float -> spec_float -> spec_float.

Definition cvtStokesToAoLP64 (img_stokes : ndarray spec_float)
  : option (ndarray spec_float) :=
  S1 <- component 1 img_stokes ;;
  S2 <- component 2 img_stokes ;;
  Some (ufunc1 (fun x => np_mod64 x pi64)
          (scalar_mul_arr lit_half (ufunc2 atan2 S2 S1))).

End AngleKernel64.

(** A stand-in for [atan2] near the positive x axis: for [x > 0] and a
    ratio [y / x] of magnitude below 2^-27 the angle and the ratio are the
    same double. *)
Definition atan2_near_axis (y x : spec_float) : spec_float :=
  SFdiv prec64 emax64 y x.

(** A one-pixel Stokes image in binary64, with a tiny negative [S2]:
    (1.0, 1.0, -1e-300). *)
Definition stokes_tiny_negative : ndarray spec_float :=
  mk_ndarray float64 [1; 3]
    [S754_finite false 4503599627370496 (-52);
     S754_finite false 4503599627370496 (-52);
     S754_finite true 6032057205060441 (-1049)].

(** The real number [m * 2^e], and the value of a double (zeros, and for
    definiteness infinities and NaN, have value 0). *)
Definition F2R (m e : Z) : R := (IZR m * powerRZ 2 e)%R.

Definition SF2R (f : spec_float) : R :=
  match f with
  | S754_finite s m e => F2R (cond_Zopp s (Zpos m)) e
  | _ => 0%R
  end.

(** What a rounding to a float of sign [sx] may return when the number
    rounded is at most [B]: a zero, or a finite float that is at most [B]. *)
Definition le_result (sx : bool) (v : spec_float) (B : R) : Prop :=
  match v with
  | S754_zero s => s = sx
  | S754_finite s m e => s = sx /\ (F2R (Zpos m) e <= B)%R
  | _ => False
  end.

End Stokes64.

(* ===================================================================== *)
(** * Part II: lemmas and theorems                                        *)
(* ===================================================================== *)

(** ** Facts about the array operations *)
Module NumPyFacts.
Import NumPy.

Lemma tabulate_length {T} n (f : nat -> T) : length (tabulate n f) = n.
Proof. unfold tabulate. now rewrite length_map, length_seq. Qed.

Lemma tabulate_ext {T} n (f g : nat -> T) :
  (forall p, p < n -> f p = g p) -> tabulate n f = tabulate n g.
Proof.
  intros E. unfold tabulate. apply map_ext_in.
  intros p Hp. apply in_seq in Hp. apply E. lia.
Qed.

Lemma tabulate_nth {T} n (f : nat -> T) d p :
  p < n -> nth p (tabulate n f) d = f p.
Proof.
  intros Hp. unfold tabulate.
  rewrite (nth_indep _ d (f 0)) by now rewrite length_map, length_seq.
  rewrite map_nth, seq_nth; auto.
Qed.

Lemma map_tabulate {T U} (g : T -> U) n (f : nat -> T) :
  map g (tabulate n f) = tabulate n (fun p => g (f p)).
Proof. unfold tabulate. now rewrite map_map. Qed.

Lemma map2_map {A B C D} (f : B -> C -> D) (g : A -> B) (h : A -> C) l :
  map2 f (map g l) (map h l) = map (fun x => f (g x) (h x)) l.
Proof. induction l; simpl; congruence. Qed.

Lemma map2_tabulate {T U V} (f : T -> U -> V) n g h :
  map2 f (tabulate n g) (tabulate n h) = tabulate n (fun p => f (g p) (h p)).
Proof. unfold tabulate. apply map2_map. Qed.

Lemma map2_length {A B C} (f : A -> B -> C) l l' :
  length (map2 f l l') = Nat.min (length l) (length l').
Proof. revert l'; induction l; intros [|b l']; simpl; auto. Qed.

Lemma Forall_tabulate {T} (P : T -> Prop) n f :
  (forall p, p < n -> P (f p)) -> Forall P (tabulate n f).
Proof.
  intros H. unfold tabulate. apply Forall_forall. intros x Hx.
  apply in_map_iff in Hx. destruct Hx as [p [<- Hp]].
  apply in_seq in Hp. apply H. lia.
Qed.

(** [a[..., k]] on an array whose last axis has length [n > k]. *)
Lemma ellipsis_index_some {T} (d : T) k a lead n :
  shape a = lead ++ [n] -> k < n ->
  ellipsis_index d k a =
    Some (mk_ndarray (dtype_of a) lead
            (tabulate (length (data a) / n)
               (fun p => nth (p * n + k) (data a) d))).
Proof.
  intros Hs Hk. unfold ellipsis_index.
  rewrite Hs, rev_app_distr. simpl.
  apply Nat.ltb_lt in Hk. rewrite Hk. now rewrite rev_involutive.
Qed.

Lemma tabulate_S {T} n (f : nat -> T) :
  tabulate (S n) f = f 0 :: tabulate n (fun p => f (S p)).
Proof.
  unfold tabulate. simpl. f_equal. now rewrite <- seq_shift, map_map.
Qed.

Lemma length_concat_uniform {T} n (ll : list (list T)) :
  Forall (fun r => length r = n) ll -> length (concat ll) = length ll * n.
Proof.
  induction 1 as [|r ll Hr _ IH]; simpl; auto.
  rewrite length_app, IH, Hr. lia.
Qed.

Lemma chunks_length {T} n (l : list T) : length (chunks n l) = length l / n.
Proof. apply tabulate_length. Qed.

(** Every chunk has exactly [n] elements. *)
Lemma chunks_uniform {T} n (l : list T) :
  Forall (fun r => length r = n) (chunks n l).
Proof.
  unfold chunks. apply Forall_tabulate. intros p Hp.
  rewrite length_firstn, length_skipn.
  destruct n as [|n]; [reflexivity|].
  assert (S n * (length l / S n) <= length l) by (apply Nat.Div0.mul_div_le).
  nia.
Qed.

Lemma chunks_nth {T} n (l : list T) p :
  p < length l / n ->
  nth p (chunks n l) [] = firstn n (skipn (p * n) l).
Proof. intros Hp. unfold chunks. now rewrite tabulate_nth. Qed.

(** Cutting a concatenation of [n]-element runs gives the runs back. *)
Lemma chunks_concat {T} n (ll : list (list T)) :
  0 < n -> Forall (fun r => length r = n) ll -> chunks n (concat ll) = ll.
Proof.
  intros Hn. induction 1 as [|r ll Hr Hll IH]; unfold chunks in *; simpl.
  - now rewrite Nat.Div0.div_0_l.
  - rewrite length_app, Hr.
    replace (n + length (concat ll)) with (1 * n + length (concat ll)) by lia.
    rewrite Nat.div_add_l by lia. simpl Nat.add.
    rewrite tabulate_S. simpl. f_equal.
    + rewrite <- Hr. rewrite firstn_app, Nat.sub_diag, firstn_all. simpl.
      apply app_nil_r.
    + rewrite <- IH at 2. apply tabulate_ext. intros p _.
      f_equal. replace (n + p * n) with (length r + p * n) by lia.
      now rewrite skipn_app, skipn_all2, Nat.add_comm, Nat.add_sub by lia.
Qed.

Lemma nth_concat_uniform {T} n (ll : list (list T)) k p d :
  Forall (fun r => length r = n) ll -> k < length ll -> p < n ->
  nth (k * n + p) (concat ll) d = nth p (nth k ll []) d.
Proof.
  intros H. revert k. induction H as [|r ll Hr _ IH]; intros k Hk Hp.
  - simpl in Hk. lia.
  - destruct k as [|k]; simpl.
    + rewrite app_nth1 by lia. reflexivity.
    + rewrite app_nth2 by lia. rewrite Hr.
      replace (n + k * n + p - n) with (k * n + p) by lia.
      apply IH; [simpl in Hk; lia | assumption].
Qed.

(** Cutting a tabulated buffer: chunk [p] tabulates the entries from
    [p * c]. *)
Lemma chunks_tabulate {T} c P (f : nat -> T) :
  0 < c ->
  chunks c (tabulate (P * c) f) =
    tabulate P (fun p => tabulate c (fun k => f (p * c + k))).
Proof.
  intros Hc. unfold chunks. rewrite tabulate_length, Nat.div_mul by lia.
  apply tabulate_ext. intros p Hp.
  destruct c as [|c]; [lia|].
  apply nth_ext with (d := f 0) (d' := f 0).
  - rewrite length_firstn, length_skipn, !tabulate_length. nia.
  - intros k Hk. rewrite length_firstn, length_skipn, tabulate_length in Hk.
    assert (k < S c) by lia.
    rewrite nth_firstn. 
    replace (k <? S c) with true by (symmetry; apply Nat.ltb_lt; lia).
    rewrite nth_skipn, !tabulate_nth by nia. reflexivity.
Qed.

Lemma chunks_map {A B} (f : A -> B) n l :
  chunks n (map f l) = map (map f) (chunks n l).
Proof.
  unfold chunks. rewrite length_map, map_tabulate.
  apply tabulate_ext. intros p _. now rewrite skipn_map, firstn_map.
Qed.

(** A buffer of [P * n] elements is the concatenation of its chunks. *)
Lemma concat_chunks {T} n P (l : list T) :
  0 < n -> length l = P * n -> concat (chunks n l) = l.
Proof.
  intros Hn Hl.
  assert (E : exists ll, Forall (fun r => length r = n) ll /\ concat ll = l).
  { revert l Hl. induction P as [|P IH]; intros l Hl.
    - exists []. split; [constructor|]. destruct l; [reflexivity|discriminate].
    - destruct (IH (skipn n l)) as (ll & U & C).
      { rewrite length_skipn. lia. }
      exists (firstn n l :: ll). split.
      + constructor; [|assumption]. rewrite length_firstn. lia.
      + simpl. rewrite C. apply firstn_skipn. }
  destruct E as (ll & U & <-). now rewrite chunks_concat.
Qed.

Lemma size_app sh sh' : size (sh ++ sh') = size sh * size sh'.
Proof. induction sh; simpl; [lia|]. rewrite IHsh. lia. Qed.

Lemma nth_map_in {A B} (f : A -> B) l k d d' :
  k < length l -> nth k (map f l) d' = f (nth k l d).
Proof.
  intros Hk. rewrite (nth_indep _ d' (f d)) by now rewrite length_map.
  apply map_nth.
Qed.

End NumPyFacts.

(** ** The effect monad *)
Module MonadFacts.
Import Py.

Lemma returns_ret {A} (x : A) (P : A -> Prop) : P x -> returns (ret x) P.
Proof. intros H. now exists [], x. Qed.

Lemma returns_bind {A B} (m : M A) (f : A -> M B) (P : A -> Prop) (Q : B -> Prop) :
  returns m P -> (forall x, P x -> returns (f x) Q) -> returns (bind m f) Q.
Proof.
  intros (l & x & -> & Hx) Hf.
  destruct (Hf x Hx) as (l' & y & E & Hy).
  exists (l ++ l'), y. unfold bind. now rewrite E.
Qed.

Lemma bind_ret_l {A B} (x : A) (f : A -> M B) : bind (ret x) f = f x.
Proof. unfold bind, ret. now destruct (f x). Qed.

Lemma returns_inr {A} (l : list event) (x : A) (P : A -> Prop) :
  P x -> returns (l, inr x) P.
Proof. intros H. now exists l, x. Qed.

Lemma returns_weaken {A} (m : M A) (P Q : A -> Prop) :
  returns m P -> (forall x, P x -> Q x) -> returns m Q.
Proof. intros (l & x & -> & Hx) H. exists l, x. auto. Qed.

Lemma returns_tell {A} ev (k : M A) (P : A -> Prop) :
  returns k P -> returns (bind (tell ev) (fun _ => k)) P.
Proof.
  intros H. apply returns_bind with (P := fun _ => True); [|auto].
  now exists [ev], tt.
Qed.

(** A loop keeps an invariant that each of its turns keeps. *)
Lemma returns_foldM {A S} (f : S -> A -> M S) (Inv : S -> Prop) l :
  (forall s a, In a l -> Inv s -> returns (f s a) Inv) ->
  forall s, Inv s -> returns (foldM f s l) Inv.
Proof.
  induction l as [|a l IH]; intros Hf s Hs; simpl.
  - now apply returns_ret.
  - apply returns_bind with (P := Inv).
    + apply Hf; [now left | assumption].
    + intros s' Hs'. apply IH; [|assumption].
      intros s0 a0 Hin. apply Hf. now right.
Qed.

End MonadFacts.

(** ** Images: shapes, sizes and ranges through slicing and assignment *)
Module ImageFacts.
Import NumPy NumPyFacts Py Cv2 Demosaicing.

Lemma in_range_0 d : in_range d 0%Q.
Proof. destruct d; simpl; auto; split; discriminate. Qed.

Lemma nth_in_range d l n : Forall (in_range d) l -> in_range d (nth n l 0%Q).
Proof.
  intros H. destruct (Nat.lt_ge_cases n (length l)) as [Hn|Hn].
  - rewrite Forall_forall in H. apply H. now apply nth_In.
  - rewrite nth_overflow by assumption. apply in_range_0.
Qed.

Lemma get2_in_range d a r c :
  Forall (in_range d) (data a) -> in_range d (get2 a r c).
Proof.
  intros H. unfold get2.
  destruct (shape a) as [|? [|? [|? ?]]]; try apply in_range_0.
  now apply nth_in_range.
Qed.

Lemma get3_in_range d a r c k :
  Forall (in_range d) (data a) -> in_range d (get3 a r c k).
Proof.
  intros H. unfold get3.
  destruct (shape a) as [|? [|? [|? [|? ?]]]]; try apply in_range_0.
  now apply nth_in_range.
Qed.

Lemma build2_good d h w f :
  (forall r c, in_range d (f r c)) -> good d [h; w] (build2 d h w f).
Proof.
  intros H. unfold good, build2, wf. simpl. repeat split.
  - rewrite tabulate_length. lia.
  - apply Forall_tabulate. intros p _. apply H.
Qed.

Lemma build3_good d h w ch f :
  (forall r c k, in_range d (f r c k)) -> good d [h; w; ch] (build3 d h w ch f).
Proof.
  intros H. unfold good, build3, wf. simpl. repeat split.
  - rewrite tabulate_length. lia.
  - apply Forall_tabulate. intros p _. apply H.
Qed.

Lemma np_empty3_good d h w : good d [h; w; 3] (np_empty3 d h w).
Proof. apply build3_good. intros. apply in_range_0. Qed.

Lemma shape_eqb_refl s : shape_eqb s s = true.
Proof. unfold shape_eqb. now destruct (list_eq_dec Nat.eq_dec s s). Qed.

Lemma shape_eqb_eq s s' : shape_eqb s s' = true -> s = s'.
Proof.
  unfold shape_eqb. now destruct (list_eq_dec Nat.eq_dec s s').
Qed.

Lemma strided2_good d h w j i a :
  good d [h; w] a -> good d [half_from j h; half_from i w] (strided2 j i a).
Proof.
  intros (Hd & Hs & _ & Hr). unfold strided2. rewrite Hs, Hd.
  apply build2_good. intros. now apply get2_in_range.
Qed.

Lemma channel_good d h w ch k a :
  good d [h; w; ch] a -> good d [h; w] (channel k a).
Proof.
  intros (Hd & Hs & _ & Hr). unfold channel. rewrite Hs, Hd.
  apply build2_good. intros. now apply get3_in_range.
Qed.

Lemma assign_strided_good d h w ch j i dst src :
  good d [h; w; ch] dst -> good d [half_from j h; half_from i w; ch] src ->
  exists a, assign_strided j i dst src = inr a /\ good d [h; w; ch] a.
Proof.
  intros (Hd & Hs & _ & Hr) (_ & Hs' & _ & Hr').
  unfold assign_strided. rewrite Hs, Hs', shape_eqb_refl, Hd.
  eexists. split; [reflexivity|].
  apply build3_good. intros r c k.
  destruct ((r mod 2 =? j) && (c mod 2 =? i)); now apply get3_in_range.
Qed.

Lemma assign_channel_good d h w ch i dst plane :
  good d [h; w; ch] dst -> good d [h; w] plane ->
  exists a, assign_channel i dst plane = inr a /\ good d [h; w; ch] a.
Proof.
  intros (Hd & Hs & _ & Hr) (_ & Hs' & _ & Hr').
  unfold assign_channel. rewrite Hs, Hs', shape_eqb_refl, Hd.
  eexists. split; [reflexivity|].
  apply build3_good. intros r c k.
  destruct (k =? i); [now apply get2_in_range | now apply get3_in_range].
Qed.

Lemma clamp_in_range d q : in_range d (clamp d q).
Proof.
  destruct d; simpl; auto; split;
    first [ apply Q.min_glb; [apply Q.le_max_r | discriminate]
          | apply Q.le_min_r ].
Qed.

(** The rescaled image is a good [uint16] image of the same shape. *)
Lemma rescale_u16_good (img : image) (scale : spec_float) :
  wf img -> good uint16 (shape img) (rescale_u16 img scale).
Proof.
  intros Hwf. unfold good, rescale_u16, wf. simpl.
  split; [reflexivity|]. split; [reflexivity|]. split.
  - now rewrite length_map.
  - apply Forall_forall. intros q Hq. apply in_map_iff in Hq.
    destruct Hq as [x [<- _]].
    match goal with |- context [(?z mod 65536)%Z] =>
      pose proof (Z.mod_pos_bound z 65536 eq_refl) as [B0 B1];
      generalize dependent (z mod 65536)%Z end.
    intros r B0 B1. split.
    + change 0%Q with (inject_Z 0). now rewrite <- Zle_Qle.
    + change 65535%Q with (inject_Z 65535). rewrite <- Zle_Qle. lia.
Qed.

(** Four images of one shape stack into one array. *)
Lemma stack_four d sh a b c e :
  good d sh a -> good d sh b -> good d sh c -> good d sh e ->
  exists u,
    stack [a; b; c; e] = inr u /\
    dtype_of u = d /\ shape u = 4 :: sh /\
    data u = data a ++ data b ++ data c ++ data e /\
    Forall (in_range d) (data u).
Proof.
  intros (Da & Sa & _ & Ra) (_ & Sb & _ & Rb) (_ & Sc & _ & Rc) (_ & Se & _ & Re).
  unfold stack. cbn [forallb]. rewrite Sa, Sb, Sc, Se, !shape_eqb_refl. cbn.
  eexists. split; [reflexivity|]. cbn. rewrite app_nil_r.
  repeat split; auto.
  repeat (apply Forall_app; split); assumption.
Qed.

(** [cv2.split] of a 3-channel image gives its three planes. *)
Lemma cv2_split_3 a h w :
  shape a = [h; w; 3] ->
  cv2_split a = ret [channel 0 a; channel 1 a; channel 2 a].
Proof. intros Hs. unfold cv2_split. now rewrite Hs. Qed.

End ImageFacts.

(** ** Entries of tabulated images *)
Module ImageIndex.
Import NumPy NumPyFacts Py Cv2 Demosaicing ImageFacts.

(** Reading back an entry of a tabulated image. *)
Lemma build3_index h w ch r c k :
  r < h -> c < w -> k < ch ->
  let p := (r * w + c) * ch + k in
  p < h * w * ch /\ p / (w * ch) = r /\ (p / ch) mod w = c /\ p mod ch = k.
Proof.
  intros Hr Hc Hk p.
  assert (E1 : p / ch = r * w + c).
  { unfold p. rewrite Nat.div_add_l by lia. rewrite Nat.div_small; lia. }
  repeat split.
  - assert (H1 : r * w + c + 1 <= h * w) by nia.
    assert (H2 : (r * w + c + 1) * ch <= h * w * ch) by (apply Nat.mul_le_mono_r; exact H1).
    unfold p. lia.
  - rewrite (Nat.mul_comm w ch), <- Nat.Div0.div_div, E1.
    rewrite Nat.div_add_l by lia. rewrite Nat.div_small; lia.
  - rewrite E1, Nat.add_comm, Nat.Div0.mod_add. now apply Nat.mod_small.
  - unfold p. rewrite Nat.add_comm, Nat.Div0.mod_add. now apply Nat.mod_small.
Qed.

Lemma get3_build3 d h w ch f r c k :
  r < h -> c < w -> k < ch -> get3 (build3 d h w ch f) r c k = f r c k.
Proof.
  intros Hr Hc Hk.
  destruct (build3_index h w ch r c k Hr Hc Hk) as (Hp & E1 & E2 & E3).
  unfold get3, build3. simpl.
  rewrite tabulate_nth by assumption. now rewrite E1, E2, E3.
Qed.

Lemma build3_ext d h w ch f g :
  (forall r c k, r < h -> c < w -> k < ch -> f r c k = g r c k) ->
  build3 d h w ch f = build3 d h w ch g.
Proof.
  intros E. unfold build3. f_equal. apply tabulate_ext. intros p Hp.
  assert (Hw : 0 < w) by nia. assert (Hch : 0 < ch) by nia.
  apply E.
  - apply Nat.Div0.div_lt_upper_bound. nia.
  - apply Nat.mod_upper_bound. lia.
  - apply Nat.mod_upper_bound. lia.
Qed.

Lemma get2_build2 d h w f r c :
  r < h -> c < w -> get2 (build2 d h w f) r c = f r c.
Proof.
  intros Hr Hc. unfold get2, build2. cbn [shape data].
  rewrite tabulate_nth by nia.
  rewrite Nat.div_add_l by lia. rewrite (Nat.div_small c w) by assumption.
  rewrite Nat.add_0_r.
  rewrite Nat.add_comm, Nat.Div0.mod_add, Nat.mod_small by assumption.
  reflexivity.
Qed.

(** A pixel of a plane is the channel's sample of the pixel. *)
Lemma get2_channel a h w ch k r c :
  shape a = [h; w; ch] -> r < h -> c < w ->
  get2 (channel k a) r c = get3 a r c k.
Proof.
  intros Hs Hr Hc. unfold channel. rewrite Hs.
  now rewrite get2_build2 by assumption.
Qed.

(** Two well-formed 3-D images of one shape with the same entries are the
    same image. *)
Lemma image_ext3 (a b : image) h w ch :
  dtype_of a = dtype_of b -> shape a = [h; w; ch] -> shape b = [h; w; ch] ->
  wf a -> wf b ->
  (forall r c k, r < h -> c < w -> k < ch -> get3 a r c k = get3 b r c k) ->
  a = b.
Proof.
  destruct a as [da sa la], b as [db sb lb]. cbn [dtype_of shape].
  intros -> -> -> Wa Wb E. f_equal.
  unfold wf in Wa, Wb. cbn [shape data size fold_right] in Wa, Wb.
  apply (nth_ext _ _ 0%Q 0%Q); [lia|].
  intros p Hp.
  assert (Hp' : p < h * w * ch) by lia.
  assert (Hw : 0 < w) by nia. assert (Hch : 0 < ch) by nia.
  assert (Hr : p / (w * ch) < h) by (apply Nat.Div0.div_lt_upper_bound; nia).
  assert (Hc : (p / ch) mod w < w) by (apply Nat.mod_upper_bound; lia).
  assert (Hk : p mod ch < ch) by (apply Nat.mod_upper_bound; lia).
  specialize (E _ _ _ Hr Hc Hk). unfold get3 in E. cbn [shape data] in E.
  assert (Ep : (p / (w * ch) * w + (p / ch) mod w) * ch + p mod ch = p).
  { rewrite (Nat.mul_comm w ch), <- Nat.Div0.div_div.
    pose proof (Nat.div_mod_eq (p / ch) w). pose proof (Nat.div_mod_eq p ch).
    nia. }
  now rewrite Ep in E.
Qed.

End ImageIndex.

(** ** Runs of the two demosaicing paths *)
Module DemosaicingRuns.
Import NumPy NumPyFacts Py Cv2 Demosaicing MonadFacts ImageFacts ImageIndex.
Import ColorPath.

Lemma assign_strided_get d h w ch j i dst src :
  good d [h; w; ch] dst -> good d [half_from j h; half_from i w; ch] src ->
  exists a, assign_strided j i dst src = inr a /\ good d [h; w; ch] a /\
    forall r c k, r < h -> c < w -> k < ch ->
      get3 a r c k = if (r mod 2 =? j) && (c mod 2 =? i)
                     then get3 src (r / 2) (c / 2) k else get3 dst r c k.
Proof.
  intros Gd Gs.
  destruct (assign_strided_good d h w ch j i dst src Gd Gs) as (a & E & Ga).
  exists a. split; [assumption|]. split; [assumption|].
  intros r c k Hr Hc Hk.
  destruct Gd as (Hd & Hs & _ & _), Gs as (_ & Hs' & _ & _).
  unfold assign_strided in E. rewrite Hs, Hs', shape_eqb_refl in E.
  injection E as <-. now rewrite get3_build3.
Qed.

Lemma assign_channel_get d h w ch i dst plane :
  good d [h; w; ch] dst -> good d [h; w] plane ->
  exists a, assign_channel i dst plane = inr a /\ good d [h; w; ch] a /\
    forall r c k, r < h -> c < w -> k < ch ->
      get3 a r c k = if k =? i then get2 plane r c else get3 dst r c k.
Proof.
  intros Gd Gp.
  destruct (assign_channel_good d h w ch i dst plane Gd Gp) as (a & E & Ga).
  exists a. split; [assumption|]. split; [assumption|].
  intros r c k Hr Hc Hk.
  destruct Gd as (Hd & Hs & _ & _), Gp as (_ & Hs' & _ & _).
  unfold assign_channel in E. rewrite Hs, Hs', shape_eqb_refl in E.
  injection E as <-. now rewrite get3_build3.
Qed.

(** The buffer of a colour plane: sample [p] of plane [k] is sample
    [3 p + k] of the image. *)
Lemma channel_data (a : image) h w k :
  shape a = [h; w; 3] ->
  channel k a =
    mk_ndarray (dtype_of a) [h; w]
      (tabulate (h * w) (fun p => nth (p * 3 + k) (data a) 0%Q)).
Proof.
  intros Hs. unfold channel. rewrite Hs. unfold build2. f_equal.
  apply tabulate_ext. intros p Hp. unfold get3. rewrite Hs.
  assert (Hw : 0 < w) by nia.
  replace (p / w * w + p mod w) with p; [reflexivity|].
  pose proof (Nat.div_mod_eq p w). lia.
Qed.

Section Runs.
Variable cv : cv2.

Lemma call_ok_debayer d x code h w :
  call_ok cv d x code h w ->
  cvtColor cv x code = Some (debayer cv x code) /\
  good d [h; w; 3] (debayer cv x code).
Proof.
  intros (out & E & G). unfold debayer. rewrite E. auto.
Qed.

(** The monochrome path, when both names are known and both calls return
    a 3-channel image. *)
Lemma mono_run_at suf (img bg gr : image) code_bg code_gr h w :
  getattr cv ("COLOR_BayerBG2BGR" ++ suf)%string = Some code_bg ->
  getattr cv ("COLOR_BayerGR2BGR" ++ suf)%string = Some code_gr ->
  cvtColor cv img code_bg = Some bg -> cvtColor cv img code_gr = Some gr ->
  shape bg = [h; w; 3] -> shape gr = [h; w; 3] ->
  __demosaicing_mono cv img suf =
    ([Ev_cvtColor img code_bg; Ev_cvtColor img code_gr],
     inr [channel 0 bg; channel 0 gr; channel 2 bg; channel 2 gr]).
Proof.
  intros Gbg Ggr Ebg Egr Sbg Sgr.
  unfold __demosaicing_mono, cv2_getattr, cv2_cvtColor.
  rewrite Gbg, Ggr. cbn [bind ret tell app].
  rewrite Ebg, Egr. cbn [bind ret tell app].
  rewrite (cv2_split_3 bg h w Sbg), (cv2_split_3 gr h w Sgr).
  reflexivity.
Qed.

(** One turn of the first loop of the colour path. *)
Lemma color_step_run img d h w code acc j i :
  good d [h; w] img -> good d [h; w; 3] acc ->
  call_ok cv d (strided2 j i img) code (half_from j h) (half_from i w) ->
  exists a,
    color_step cv img code acc (j, i)
      = ([Ev_cvtColor (strided2 j i img) code], inr a) /\
    good d [h; w; 3] a /\
    forall r c k, r < h -> c < w -> k < 3 ->
      get3 a r c k =
        if (r mod 2 =? j) && (c mod 2 =? i)
        then get3 (debayer cv (strided2 j i img) code) (r / 2) (c / 2) k
        else get3 acc r c k.
Proof.
  intros Gi Ga C.
  destruct (call_ok_debayer _ _ _ _ _ C) as (E & Go).
  destruct (assign_strided_get d h w 3 j i acc _ Ga Go) as (a & Ea & Ga' & Va).
  exists a. split; [|split; assumption].
  unfold color_step, cv2_cvtColor. rewrite E. cbn [bind tell ret app].
  now rewrite Ea.
Qed.

(** The first loop: four debayer passes, one per sub-mosaic, fill every
    entry of the buffer. *)
Lemma color_loop_run img d h w code acc :
  good d [h; w] img -> good d [h; w; 3] acc ->
  (forall j i, j < 2 -> i < 2 ->
     call_ok cv d (strided2 j i img) code (half_from j h) (half_from i w)) ->
  foldM (color_step cv img code) acc [(0, 0); (0, 1); (1, 0); (1, 1)]
    = ([Ev_cvtColor (strided2 0 0 img) code;
        Ev_cvtColor (strided2 0 1 img) code;
        Ev_cvtColor (strided2 1 0 img) code;
        Ev_cvtColor (strided2 1 1 img) code],
       inr (interleaved_bgr cv code img h w)) /\
  good d [h; w; 3] (interleaved_bgr cv code img h w).
Proof.
  intros Gi G0 C.
  destruct (color_step_run img d h w code acc 0 0 Gi G0 (C 0 0 ltac:(lia) ltac:(lia)))
    as (a1 & E1 & G1 & V1).
  destruct (color_step_run img d h w code a1 0 1 Gi G1 (C 0 1 ltac:(lia) ltac:(lia)))
    as (a2 & E2 & G2 & V2).
  destruct (color_step_run img d h w code a2 1 0 Gi G2 (C 1 0 ltac:(lia) ltac:(lia)))
    as (a3 & E3 & G3 & V3).
  destruct (color_step_run img d h w code a3 1 1 Gi G3 (C 1 1 ltac:(lia) ltac:(lia)))
    as (a4 & E4 & G4 & V4).
  assert (E : a4 = interleaved_bgr cv code img h w).
  { destruct G4 as (D4 & S4 & W4 & _). destruct Gi as (Di & _).
    apply (image_ext3 _ _ h w 3); try assumption.
    - unfold interleaved_bgr. cbn [build3 dtype_of]. congruence.
    - reflexivity.
    - unfold interleaved_bgr, build3, wf. cbn [shape data size fold_right].
      rewrite tabulate_length. lia.
    - intros r c k Hr Hc Hk.
      unfold interleaved_bgr. rewrite get3_build3 by assumption.
      rewrite V4, V3, V2, V1 by assumption.
      pose proof (Nat.mod_upper_bound r 2 ltac:(lia)) as Br.
      pose proof (Nat.mod_upper_bound c 2 ltac:(lia)) as Bc.
      destruct (r mod 2) as [|[|?]], (c mod 2) as [|[|?]];
        try lia; reflexivity. }
  subst a4. split; [|assumption].
  cbn [foldM]. rewrite E1. cbn [bind app]. rewrite E2. cbn [bind app].
  rewrite E3. cbn [bind app]. rewrite E4. reflexivity.
Qed.

(** One turn of the second loop, on colour plane [i]. *)
Lemma polar_step_run suf d h w code_bg code_gr a0 a1 a2 a3 i plane :
  getattr cv ("COLOR_BayerBG2BGR" ++ suf)%string = Some code_bg ->
  getattr cv ("COLOR_BayerGR2BGR" ++ suf)%string = Some code_gr ->
  good d [h; w] plane ->
  call_ok cv d plane code_bg h w -> call_ok cv d plane code_gr h w ->
  good d [h; w; 3] a0 -> good d [h; w; 3] a1 ->
  good d [h; w; 3] a2 -> good d [h; w; 3] a3 ->
  exists b0 b1 b2 b3,
    polar_step cv suf (a0, a1, a2, a3) (i, plane)
      = ([Ev_cvtColor plane code_bg; Ev_cvtColor plane code_gr],
         inr (b0, b1, b2, b3)) /\
    good d [h; w; 3] b0 /\ good d [h; w; 3] b1 /\
    good d [h; w; 3] b2 /\ good d [h; w; 3] b3 /\
    forall r c k, r < h -> c < w -> k < 3 ->
      get3 b0 r c k = (if k =? i then get3 (debayer cv plane code_bg) r c 0
                       else get3 a0 r c k) /\
      get3 b1 r c k = (if k =? i then get3 (debayer cv plane code_gr) r c 0
                       else get3 a1 r c k) /\
      get3 b2 r c k = (if k =? i then get3 (debayer cv plane code_bg) r c 2
                       else get3 a2 r c k) /\
      get3 b3 r c k = (if k =? i then get3 (debayer cv plane code_gr) r c 2
                       else get3 a3 r c k).
Proof.
  intros Gbg Ggr Gp Cbg Cgr G0 G1 G2 G3.
  destruct (call_ok_debayer _ _ _ _ _ Cbg) as (Ebg & Bbg).
  destruct (call_ok_debayer _ _ _ _ _ Cgr) as (Egr & Bgr).
  set (bg := debayer cv plane code_bg) in *.
  set (gr := debayer cv plane code_gr) in *.
  pose proof Bbg as (_ & Sbg & _). pose proof Bgr as (_ & Sgr & _).
  pose proof (mono_run_at suf plane bg gr code_bg code_gr h w
                Gbg Ggr Ebg Egr Sbg Sgr) as E.
  destruct (assign_channel_get d h w 3 i a0 _ G0 (channel_good d h w 3 0 bg Bbg))
    as (b0 & E0 & H0 & V0).
  destruct (assign_channel_get d h w 3 i a1 _ G1 (channel_good d h w 3 0 gr Bgr))
    as (b1 & E1 & H1 & V1).
  destruct (assign_channel_get d h w 3 i a2 _ G2 (channel_good d h w 3 2 bg Bbg))
    as (b2 & E2 & H2 & V2).
  destruct (assign_channel_get d h w 3 i a3 _ G3 (channel_good d h w 3 2 gr Bgr))
    as (b3 & E3 & H3 & V3).
  exists b0, b1, b2, b3.
  split.
  { unfold polar_step. rewrite E. cbn [bind app]. now rewrite E0, E1, E2, E3. }
  repeat (split; [assumption|]).
  intros r c k Hr Hc Hk.
  rewrite V0, V1, V2, V3 by assumption.
  rewrite !(get2_channel bg h w 3) by assumption.
  rewrite !(get2_channel gr h w 3) by assumption.
  auto.
Qed.

Lemma per_channel_eq code ch bgr d h w b :
  dtype_of bgr = d -> good d [h; w; 3] b ->
  (forall r c k, r < h -> c < w -> k < 3 ->
     get3 b r c k = get3 (debayer cv (channel k bgr) code) r c ch) ->
  b = per_channel cv code ch bgr h w.
Proof.
  intros Db (D & S_ & W & _) V.
  apply (image_ext3 _ _ h w 3); try assumption.
  - unfold per_channel. cbn [build3 dtype_of]. congruence.
  - reflexivity.
  - unfold per_channel, build3, wf. cbn [shape data size fold_right].
    rewrite tabulate_length. lia.
  - intros r c k Hr Hc Hk. unfold per_channel.
    rewrite get3_build3 by assumption. now apply V.
Qed.

Lemma per_channel_good code ch bgr d h w :
  dtype_of bgr = d ->
  (forall k, k < 3 -> call_ok cv d (channel k bgr) code h w) ->
  good d [h; w; 3] (per_channel cv code ch bgr h w).
Proof.
  intros Db C. unfold per_channel. rewrite Db.
  unfold good, build3, wf. cbn [dtype_of shape data size fold_right].
  split; [reflexivity|]. split; [reflexivity|]. split.
  - rewrite tabulate_length. lia.
  - apply Forall_tabulate. intros p Hp.
    assert (Hk : p mod 3 < 3) by (apply Nat.mod_upper_bound; lia).
    destruct (call_ok_debayer _ _ _ _ _ (C _ Hk)) as (_ & (_ & _ & _ & R)).
    now apply get3_in_range.
Qed.

(** The colour path, when both names are known and each of its ten calls
    returns a 3-channel image of the size of its argument. *)
Lemma color_run suf (img : image) d h w code_bg code_gr :
  good d [h; w] img ->
  getattr cv ("COLOR_BayerBG2BGR" ++ suf)%string = Some code_bg ->
  getattr cv ("COLOR_BayerGR2BGR" ++ suf)%string = Some code_gr ->
  debayer_calls_succeed cv d true code_bg code_gr img h w ->
  let bgr := interleaved_bgr cv code_bg img h w in
  __demosaicing_color cv img suf =
    (color_log img code_bg code_gr bgr,
     inr [per_channel cv code_bg 0 bgr h w;
          per_channel cv code_gr 0 bgr h w;
          per_channel cv code_bg 2 bgr h w;
          per_channel cv code_gr 2 bgr h w]).
Proof.
  intros Hg Gbg Ggr [Csub Cpl] bgr.
  pose proof Hg as (Hdt & Hs & _ & _).
  destruct (color_loop_run img d h w code_bg (np_empty3 d h w) Hg
              (np_empty3_good d h w) Csub) as (Eloop & Gbgr).
  fold bgr in Eloop, Gbgr, Cpl.
  pose proof Gbgr as (Bd & Bs & _ & _).
  pose proof (np_empty3_good d h w) as Ge.
  destruct (Cpl 0 ltac:(lia)) as [B0 R0].
  destruct (Cpl 1 ltac:(lia)) as [B1 R1].
  destruct (Cpl 2 ltac:(lia)) as [B2 R2].
  destruct (polar_step_run suf d h w code_bg code_gr _ _ _ _ 0
              (channel 0 bgr) Gbg Ggr
              (channel_good d h w 3 0 bgr Gbgr) B0 R0 Ge Ge Ge Ge)
    as (x0 & x1 & x2 & x3 & Ex & Gx0 & Gx1 & Gx2 & Gx3 & Vx).
  destruct (polar_step_run suf d h w code_bg code_gr _ _ _ _ 1
              (channel 1 bgr) Gbg Ggr
              (channel_good d h w 3 1 bgr Gbgr) B1 R1 Gx0 Gx1 Gx2 Gx3)
    as (y0 & y1 & y2 & y3 & Ey & Gy0 & Gy1 & Gy2 & Gy3 & Vy).
  destruct (polar_step_run suf d h w code_bg code_gr _ _ _ _ 2
              (channel 2 bgr) Gbg Ggr
              (channel_good d h w 3 2 bgr Gbgr) B2 R2 Gy0 Gy1 Gy2 Gy3)
    as (z0 & z1 & z2 & z3 & Ez & Gz0 & Gz1 & Gz2 & Gz3 & Vz).
  assert (V : forall r col k, r < h -> col < w -> k < 3 ->
            get3 z0 r col k = get3 (debayer cv (channel k bgr) code_bg) r col 0 /\
            get3 z1 r col k = get3 (debayer cv (channel k bgr) code_gr) r col 0 /\
            get3 z2 r col k = get3 (debayer cv (channel k bgr) code_bg) r col 2 /\
            get3 z3 r col k = get3 (debayer cv (channel k bgr) code_gr) r col 2).
  { intros r col k Hr Hc Hk.
    destruct (Vz r col k Hr Hc Hk) as (-> & -> & -> & ->).
    destruct (Vy r col k Hr Hc Hk) as (-> & -> & -> & ->).
    destruct (Vx r col k Hr Hc Hk) as (-> & -> & -> & ->).
    destruct k as [|[|[|k]]]; [| | |lia]; cbn [Nat.eqb]; auto. }
  rewrite <- (per_channel_eq code_bg 0 bgr d h w z0 Bd Gz0)
    by (intros; now apply V).
  rewrite <- (per_channel_eq code_gr 0 bgr d h w z1 Bd Gz1)
    by (intros; now apply V).
  rewrite <- (per_channel_eq code_bg 2 bgr d h w z2 Bd Gz2)
    by (intros; now apply V).
  rewrite <- (per_channel_eq code_gr 2 bgr d h w z3 Bd Gz3)
    by (intros; now apply V).
  unfold __demosaicing_color. rewrite Hs, Hdt.
  unfold cv2_getattr. rewrite Gbg, bind_ret_l.
  rewrite Eloop. cbn [bind]. fold bgr.
  rewrite (cv2_split_3 bgr h w Bs). cbn [bind ret app length seq combine].
  rewrite Bd. cbn [foldM]. rewrite Ex. cbn [bind app].
  rewrite Ey. cbn [bind app]. rewrite Ez. reflexivity.
Qed.

(** The integer branch of [demosaicing], whatever the call depth left. *)
Lemma integer_branch fuel (img : image) (c : ColorConversionCode) h w :
  is_u8_u16 (dtype_of img) = true -> shape img = [h; w] ->
  demosaicing_fuel cv (S fuel) img (PyCode c) =
    if is_color c
    then bind (__demosaicing_color cv img (suffix c)) (fun l => ret (RList l))
    else bind (__demosaicing_mono cv img (suffix c)) (fun l => ret (RList l)).
Proof.
  intros Hd Hs. cbn [demosaicing_fuel].
  replace (issubdtype_floating (dtype_of img)) with false
    by (destruct (dtype_of img); try reflexivity; discriminate Hd).
  rewrite Hd. unfold ndim. rewrite Hs. reflexivity.
Qed.

(** Both paths at once: when every debayer call succeeds, the run ends in
    a list of four images of the frame's dtype, of shape [(h, w)] on the
    monochrome path and [(h, w, 3)] on the colour path. *)
Lemma integer_run fuel (img : image) (c : ColorConversionCode) d h w
      code_bg code_gr :
  is_u8_u16 d = true -> good d [h; w] img ->
  getattr cv ("COLOR_BayerBG2BGR" ++ suffix c)%string = Some code_bg ->
  getattr cv ("COLOR_BayerGR2BGR" ++ suffix c)%string = Some code_gr ->
  debayer_calls_succeed cv d (is_color c) code_bg code_gr img h w ->
  exists log i0 i1 i2 i3,
    demosaicing_fuel cv (S fuel) img (PyCode c)
      = (log, inr (RList [i0; i1; i2; i3])) /\
    Forall (good d (if is_color c then [h; w; 3] else [h; w]))
           [i0; i1; i2; i3].
Proof.
  intros Hd Hg Gbg Ggr C. pose proof Hg as (Hdt & Hs & _ & _).
  rewrite integer_branch with (h := h) (w := w)
    by (rewrite ?Hdt; assumption).
  destruct (is_color c).
  - pose proof C as [Csub Cpl].
    destruct (color_loop_run img d h w code_bg (np_empty3 d h w) Hg
                (np_empty3_good d h w) Csub) as (_ & (Bd & _)).
    rewrite (color_run (suffix c) img d h w code_bg code_gr Hg Gbg Ggr C).
    cbn [bind ret app]. rewrite app_nil_r.
    do 5 eexists. split; [reflexivity|].
    repeat (apply Forall_cons;
            [apply per_channel_good;
             [exact Bd | intros k Hk; apply (Cpl k Hk)]|]).
    apply Forall_nil.
  - destruct C as [Cbg Cgr].
    destruct (call_ok_debayer _ _ _ _ _ Cbg) as (Ebg & Bbg).
    destruct (call_ok_debayer _ _ _ _ _ Cgr) as (Egr & Bgr).
    pose proof Bbg as (_ & Sbg & _). pose proof Bgr as (_ & Sgr & _).
    rewrite (mono_run_at (suffix c) img _ _ code_bg code_gr h w
               Gbg Ggr Ebg Egr Sbg Sgr).
    cbn [bind ret app].
    do 5 eexists. split; [reflexivity|].
    repeat (apply Forall_cons; [eapply channel_good; eassumption|]).
    apply Forall_nil.
Qed.

(** *** Whatever cv2 returns *)

Lemma bind_inr {A B} (m : M A) (f : A -> M B) log (r : B) :
  bind m f = (log, inr r) ->
  exists l1 x l2, m = (l1, inr x) /\ f x = (l2, inr r) /\ log = l1 ++ l2.
Proof.
  unfold bind. destruct m as [l1 [e|x]]; [discriminate|].
  destruct (f x) as [l2 r'] eqn:E. intros H. inversion H; subst.
  exists l1, x, l2. auto.
Qed.

Lemma foldM_inv {A S} (f : S -> A -> M S) (Inv : S -> Prop) :
  (forall s a log s', Inv s -> f s a = (log, inr s') -> Inv s') ->
  forall l s log s', Inv s -> foldM f s l = (log, inr s') -> Inv s'.
Proof.
  intros Hf. induction l as [|a l IH]; intros s log s' Hs H; cbn [foldM] in H.
  - inversion H; subst. exact Hs.
  - apply bind_inr in H. destruct H as (l1 & x & l2 & E1 & E2 & _).
    eapply IH; [|exact E2]. eapply Hf; eassumption.
Qed.

Ltac bind_inv H :=
  let l1 := fresh "l" in let x := fresh "x" in let l2 := fresh "l" in
  let E := fresh "E" in
  apply bind_inr in H; destruct H as (l1 & x & l2 & E & H & _).

(** The monochrome pass returns four images or nothing. *)
Lemma mono_returns_four (img : image) suf log l :
  __demosaicing_mono cv img suf = (log, inr l) ->
  exists i0 i1 i2 i3, l = [i0; i1; i2; i3].
Proof.
  unfold __demosaicing_mono. intros H. do 8 bind_inv H.
  match goal with
  | H : (let '(_, _) := ?p in _) = _ |- _ =>
      destruct p as [a0 a2]
  end.
  match goal with
  | H : (let '(_, _) := ?p in _) = _ |- _ =>
      destruct p as [a1 a3]
  end.
  inversion H; subst. eauto.
Qed.

Lemma assign_channel_shape i dst plane a :
  assign_channel i dst plane = inr a -> shape a = shape dst.
Proof.
  unfold assign_channel. destruct (shape dst) as [|h [|w [|ch [|? ?]]]];
    try discriminate.
  destruct (shape_eqb _ _); [|discriminate].
  intros H. inversion H; subst. reflexivity.
Qed.

Lemma polar_step_shape suf sh a0 a1 a2 a3 ip log b0 b1 b2 b3 :
  Forall (fun x => shape x = sh) [a0; a1; a2; a3] ->
  polar_step cv suf (a0, a1, a2, a3) ip = (log, inr (b0, b1, b2, b3)) ->
  Forall (fun x => shape x = sh) [b0; b1; b2; b3].
Proof.
  intros Ha H. unfold polar_step in H. destruct ip as [i plane].
  bind_inv H.
  destruct x as [|i0 [|i1 [|i2 [|i3 [|? ?]]]]]; try discriminate H.
  destruct (assign_channel i a0 i0) as [e0|c0] eqn:E0;
    destruct (assign_channel i a1 i1) as [e1|c1] eqn:E1;
    destruct (assign_channel i a2 i2) as [e2|c2] eqn:E2;
    destruct (assign_channel i a3 i3) as [e3|c3] eqn:E3;
    try discriminate H.
  inversion H; subst.
  apply assign_channel_shape in E0, E1, E2, E3.
  inversion Ha as [|? ? H0 Ha1]; subst.
  inversion Ha1 as [|? ? H1 Ha2]; subst.
  inversion Ha2 as [|? ? H2 Ha3]; subst.
  inversion Ha3 as [|? ? H3 _]; subst.
  repeat constructor; congruence.
Qed.

(** The colour pass returns four images of shape [(h, w, 3)] or nothing. *)
Lemma color_returns_four (img : image) suf h w log l :
  shape img = [h; w] ->
  __demosaicing_color cv img suf = (log, inr l) ->
  exists i0 i1 i2 i3,
    l = [i0; i1; i2; i3] /\
    Forall (fun x => shape x = [h; w; 3]) [i0; i1; i2; i3].
Proof.
  intros Hs H. unfold __demosaicing_color in H. rewrite Hs in H.
  do 4 bind_inv H.
  destruct x2 as [[[b0 b1] b2] b3]. inversion H; subst.
  exists b0, b1, b2, b3. split; [reflexivity|].
  match goal with
  | E : foldM (polar_step cv suf) _ _ = _ |- _ =>
      refine (foldM_inv (polar_step cv suf)
                (fun '(c0, c1, c2, c3) =>
                   Forall (fun x => shape x = [h; w; 3]) [c0; c1; c2; c3])
                _ _ _ _ _ _ E)
  end.
  - intros [[[a0 a1] a2] a3] ip lg [[[c0 c1] c2] c3] Ha Hp.
    eapply polar_step_shape; eassumption.
  - repeat constructor.
Qed.

(** On an integer 2-D frame, whatever cv2 does, the function returns a list
    of four images or does not return; on the colour path the four have
    the frame's height and width and three channels. *)
Lemma integer_returns_four fuel (img : image) (c : ColorConversionCode) h w
      log r :
  is_u8_u16 (dtype_of img) = true -> shape img = [h; w] ->
  demosaicing_fuel cv (S fuel) img (PyCode c) = (log, inr r) ->
  exists i0 i1 i2 i3,
    r = RList [i0; i1; i2; i3] /\
    (is_color c = true ->
     Forall (fun x => shape x = [h; w; 3]) [i0; i1; i2; i3]).
Proof.
  intros Hd Hs H. rewrite (integer_branch fuel img c h w Hd Hs) in H.
  destruct (is_color c); bind_inv H; inversion H; subst.
  - destruct (color_returns_four img (suffix c) h w _ _ Hs E)
      as (i0 & i1 & i2 & i3 & -> & F).
    exists i0, i1, i2, i3. auto.
  - destruct (mono_returns_four img (suffix c) _ _ E)
      as (i0 & i1 & i2 & i3 & ->).
    exists i0, i1, i2, i3. split; [reflexivity | discriminate].
Qed.


(** Under the debayer contract every call of a run on a good frame
    succeeds. *)
Lemma contract_call_ok pattern suf d x code h w :
  debayer_contract cv ->
  In pattern ["BG"; "GR"]%string -> In suf known_suffixes ->
  getattr cv (bayer_name pattern suf) = Some code ->
  is_u8_u16 d = true -> good d [h; w] x ->
  call_ok cv d x code h w.
Proof.
  intros Hcv Hp Hsuf G Hd (Dx & Sx & Wx & _).
  destruct (Hcv pattern suf Hp Hsuf) as (code' & G' & C).
  assert (code' = code) by congruence. subst code'.
  rewrite <- Dx in Hd.
  destruct (C x h w Sx Hd Wx) as (out & E & So & Do & Wo & Ro).
  exists out. split; [assumption|]. unfold good. rewrite <- Dx. auto.
Qed.

Lemma contract_calls_succeed suf color d (img : image) code_bg code_gr h w :
  debayer_contract cv -> In suf known_suffixes ->
  getattr cv ("COLOR_BayerBG2BGR" ++ suf)%string = Some code_bg ->
  getattr cv ("COLOR_BayerGR2BGR" ++ suf)%string = Some code_gr ->
  is_u8_u16 d = true -> good d [h; w] img ->
  debayer_calls_succeed cv d color code_bg code_gr img h w.
Proof.
  intros Hcv Hsuf Gbg Ggr Hd Hg.
  assert (Cbg : forall x h' w', good d [h'; w'] x -> call_ok cv d x code_bg h' w').
  { intros x h' w' Gx.
    apply (contract_call_ok "BG" suf); simpl; auto. }
  assert (Cgr : forall x h' w', good d [h'; w'] x -> call_ok cv d x code_gr h' w').
  { intros x h' w' Gx.
    apply (contract_call_ok "GR" suf); simpl; auto. }
  destruct color; cbn [debayer_calls_succeed].
  - assert (Csub : forall j i, j < 2 -> i < 2 ->
              call_ok cv d (strided2 j i img) code_bg
                      (half_from j h) (half_from i w)).
    { intros j i _ _. apply Cbg. now apply strided2_good. }
    split; [exact Csub|].
    destruct (color_loop_run img d h w code_bg (np_empty3 d h w) Hg
                (np_empty3_good d h w) Csub) as (_ & Gbgr).
    intros k _. split; [apply Cbg | apply Cgr]; eapply channel_good; eassumption.
  - split; [apply Cbg | apply Cgr]; assumption.
Qed.

End Runs.
End DemosaicingRuns.

(** ** Demosaicing *)
Module DemosaicingSpec.
Import NumPy NumPyFacts Py Cv2 Demosaicing MonadFacts ImageFacts ImageIndex.
Import ColorPath DemosaicingRuns.

(** *** The call depth *)

(** On an image that is not floating-point, [demosaicing] does not call
    itself: any positive depth gives the same run. *)
Lemma fuel_integer cv n img code :
  issubdtype_floating (dtype_of img) = false ->
  demosaicing_fuel cv (S n) img code = demosaicing_fuel cv 1 img code.
Proof. intros H. cbn [demosaicing_fuel]. now rewrite H. Qed.

(** Two levels are enough for every input. *)
Lemma demosaicing_fuel_enough cv n img code :
  demosaicing_fuel cv (S (S n)) img code = demosaicing cv img code.
Proof.
  unfold demosaicing. cbn [demosaicing_fuel].
  destruct code as [c| | |]; reflexivity.
Qed.

(** *** Validation *)

(** C6 (amended). [demosaicing] fails with the TypeError on [code] when
    [code] is not a [ColorConversionCode]; with the TypeError on the dtype
    when the dtype is neither floating-point nor [uint8] / [uint16]; with
    the ValueError on the dimension when an 8- or 16-bit input is not 2-D.
    In these three cases nothing has been computed (the log is empty).  A
    floating-point input that is not 2-D (and not empty) fails with the
    same ValueError too, but only in the recursive call, after the rescale
    to [uint16] has been computed.  A failure returns no result. *)
Theorem validation_errors (cv : cv2) (img : image) :
  (forall obj, (forall c, obj <> PyCode c) ->
               demosaicing cv img obj = ([], inl TypeError_code)) /\
  (forall c, issubdtype_floating (dtype_of img) = false ->
             is_u8_u16 (dtype_of img) = false ->
             demosaicing cv img (PyCode c) =
               ([], inl (TypeError_dtype (dtype_of img)))) /\
  (forall c, is_u8_u16 (dtype_of img) = true -> ndim img <> 2 ->
             demosaicing cv img (PyCode c) =
               ([], inl (ValueError_ndim (ndim img) (shape img)))) /\
  (forall c, issubdtype_floating (dtype_of img) = true -> ndim img <> 2 ->
             data img <> [] ->
             demosaicing cv img (PyCode c) =
               ([Ev_numpy np_max; Ev_numpy np_multiply; Ev_numpy np_clip;
                 Ev_numpy (np_astype uint16)],
                inl (ValueError_ndim (ndim img) (shape img)))).
Proof.
  unfold demosaicing. repeat split.
  - intros obj Hobj. destruct obj as [c| | |]; try reflexivity.
    now destruct (Hobj c).
  - intros c Hf Hd. cbn [demosaicing_fuel]. now rewrite Hf, Hd.
  - intros c Hd Hn. cbn [demosaicing_fuel].
    replace (issubdtype_floating (dtype_of img)) with false
      by (destruct (dtype_of img); try reflexivity; discriminate Hd).
    rewrite Hd. apply Nat.eqb_neq in Hn. now rewrite Hn.
  - intros c Hf Hn Hdata. cbn [demosaicing_fuel]. rewrite Hf.
    unfold np_max_of. destruct (data img) as [|x t] eqn:E; [now destruct Hdata|].
    cbn [bind tell ret app to_uint16 demosaicing_fuel].
    unfold rescale_u16 at 1 2.
    cbn [dtype_of issubdtype_floating is_u8_u16 negb].
    unfold ndim in *. unfold rescale_u16. cbn [shape].
    apply Nat.eqb_neq in Hn. now rewrite Hn.
Qed.

Lemma validation_errors_witness :
  demosaicing cv2_nearest mosaic_u8 PyNone = ([], inl TypeError_code) /\
  demosaicing cv2_nearest (mk_ndarray int32 [2; 2] [1; 2; 3; 4]%Q)
    (PyCode COLOR_PolarMono) = ([], inl (TypeError_dtype int32)) /\
  demosaicing cv2_nearest (mk_ndarray uint8 [4] [1; 2; 3; 4]%Q)
    (PyCode COLOR_PolarMono) = ([], inl (ValueError_ndim 1 [4])) /\
  demosaicing cv2_nearest cube_f64 (PyCode COLOR_PolarMono) =
    ([Ev_numpy np_max; Ev_numpy np_multiply; Ev_numpy np_clip;
      Ev_numpy (np_astype uint16)],
     inl (ValueError_ndim 3 [1; 1; 1])).
Proof.
  split; [|split; [|split]].
  - apply (proj1 (validation_errors cv2_nearest mosaic_u8)). discriminate.
  - apply (proj1 (proj2 (validation_errors cv2_nearest
                           (mk_ndarray int32 [2; 2] [1; 2; 3; 4]%Q))));
      reflexivity.
  - apply (proj1 (proj2 (proj2 (validation_errors cv2_nearest
                                  (mk_ndarray uint8 [4] [1; 2; 3; 4]%Q)))));
      [reflexivity | discriminate].
  - apply (proj2 (proj2 (proj2 (validation_errors cv2_nearest cube_f64))));
      [reflexivity | discriminate | discriminate].
Defined.

(** C6, as stated, fails on a floating-point input that is not 2-D: for the
    1 x 1 x 1 float array the dimension is rejected only after [np.max], the
    multiplication, the clip and the cast have run. *)
Lemma validation_after_rescale_counterexample :
  issubdtype_floating (dtype_of cube_f64) = true /\
  ndim cube_f64 <> 2 /\
  snd (demosaicing cv2_nearest cube_f64 (PyCode COLOR_PolarMono)) =
    inl (ValueError_ndim 3 [1; 1; 1]) /\
  fst (demosaicing cv2_nearest cube_f64 (PyCode COLOR_PolarMono)) <> [].
Proof.
  split; [reflexivity|]. split; [discriminate|].
  split; [reflexivity|]. discriminate.
Qed.

(** *** The stand-in debayers *)

Lemma nearest_contract : debayer_contract cv2_nearest.
Proof.
  intros pattern suf Hp Hsuf. simpl in Hp, Hsuf.
  destruct Hp as [<-|[<-|[]]]; destruct Hsuf as [<-|[<-|[<-|[]]]];
    (eexists; split; [reflexivity|];
     intros img h w Hs Hd Hwf;
     unfold cv2_nearest, nearest_cvtColor; cbn [cvtColor];
     rewrite Hs; cbn [cell_offset Z.eqb Pos.eqb orb];
     eexists; split; [reflexivity|];
     match goal with
     | |- context [build3 ?d ?h ?w 3 ?f] =>
         assert (G : good d [h; w; 3] (build3 d h w 3 f))
     end;
     [ apply build3_good; intros r c0 k;
       destruct k as [|[|k]]; apply clamp_in_range
     | destruct G as (G1 & G2 & G3 & G4); auto ]).
Qed.

Lemma mosaic_u8_good : good uint8 [2; 2] mosaic_u8.
Proof.
  unfold good, mosaic_u8, wf. simpl.
  repeat split; repeat constructor; discriminate.
Qed.

Lemma mosaic_u16_good : good uint16 [4; 4] mosaic_u16.
Proof.
  unfold good, mosaic_u16, wf. simpl.
  repeat split; repeat constructor; discriminate.
Qed.

(** *** The monochrome path *)




(** *** Four images of the frame's size *)




(** *** Dtype closure *)

(** The cast truncates: for a positive finite float it gives the integer
    part of the value. *)
Lemma SFtrunc_floor (m : positive) (e : Z) :
  (inject_Z (SFtrunc (S754_finite false m e))
     <= SF2Q (S754_finite false m e)
     < inject_Z (SFtrunc (S754_finite false m e)) + 1)%Q.
Proof.
  cbn [SFtrunc SF2Q cond_Zopp]. destruct e as [|p|p].
  - cbn [Qpower]. rewrite Z.shiftl_0_r, Qmult_1_r. Lqa.lra.
  - rewrite Z.shiftl_mul_pow2 by lia.
    rewrite inject_Z_mult.
    rewrite (Zpower_Qpower 2 (Z.pos p)) by lia.
    change (inject_Z 2) with 2%Q. Lqa.lra.
  - rewrite Z.shiftr_div_pow2 by lia.
    set (k := (2 ^ Z.pos p)%Z).
    assert (Hk : (0 < k)%Z) by (unfold k; apply Z.pow_pos_nonneg; lia).
    assert (Ek : (Qpower 2 (Z.neg p) == / inject_Z k)%Q).
    { unfold k. rewrite (Zpower_Qpower 2 (Z.pos p)) by lia.
      change (Z.neg p) with (- Z.pos p)%Z. apply Qpower_opp. }
    rewrite Ek.
    pose proof (Z.mul_div_le (Z.pos m) k Hk) as L1.
    pose proof (Z.mul_succ_div_gt (Z.pos m) k Hk) as L2.
    assert (Qk : (0 < inject_Z k)%Q).
    { change 0%Q with (inject_Z 0). rewrite <- Zlt_Qlt. exact Hk. }
    split.
    + apply Qle_shift_div_l; [exact Qk|].
      rewrite <- inject_Z_mult, <- Zle_Qle. lia.
    + apply Qlt_shift_div_r; [exact Qk|].
      change 1%Q with (inject_Z 1).
      rewrite <- inject_Z_plus, <- inject_Z_mult, <- Zlt_Qlt. lia.
Qed.

Lemma unscale_float64 (scale : spec_float) (u : Q) :
  unscale float64 scale u = SFdiv 53 1024 (Q2SF float64 u) scale.
Proof. reflexivity. Qed.

(** Dividing a [uint16] sample by [65535 / m], exactly, lands in [[0, m]]. *)
Lemma unscale_range (m v : Q) :
  (0 < m)%Q -> (0 <= v <= 65535)%Q ->
  (0 <= v / (65535 / m) <= m)%Q.
Proof.
  intros Hm [H0 H1].
  assert (Hs : (0 < 65535 / m)%Q).
  { apply Qlt_shift_div_l; [assumption|]. rewrite Qmult_0_l. reflexivity. }
  split.
  - apply Qle_shift_div_l; [assumption|]. now rewrite Qmult_0_l.
  - apply Qle_shift_div_r; [assumption|].
    assert (E : (m * (65535 / m) == 65535)%Q).
    { field. intros E. rewrite E in Hm. discriminate Hm. }
    now rewrite E.
Qed.

(** The float branch, whatever cv2 does. *)
Lemma float_branch (cv : cv2) (img : image) (c : ColorConversionCode) :
  issubdtype_floating (dtype_of img) = true -> data img <> [] ->
  let d := dtype_of img in
  let scale :=
    SFdiv (fprec d) (femax d) (Z2SF d 65535) (Q2SF d (max_sample (data img))) in
  demosaicing cv img (PyCode c) =
    match demosaicing cv (rescale_u16 img scale) (PyCode c) with
    | (log16, inr r) =>
        let (log, res) := from_uint16 r scale d in
        ([Ev_numpy np_max; Ev_numpy np_multiply; Ev_numpy np_clip;
          Ev_numpy (np_astype uint16)] ++ log16 ++ log, res)
    | (log16, inl e) =>
        ([Ev_numpy np_max; Ev_numpy np_multiply; Ev_numpy np_clip;
          Ev_numpy (np_astype uint16)] ++ log16, inl e)
    end.
Proof.
  intros Hf Hdata d scale. unfold demosaicing.
  rewrite (fuel_integer cv 1 (rescale_u16 img scale) (PyCode c) eq_refl).
  assert (E0 : demosaicing_fuel cv 2 img (PyCode c) =
               bind (np_max_of img)
                 (fun m0 =>
                    let scale0 :=
                      SFdiv (fprec d) (femax d) (Z2SF d 65535) (Q2SF d m0) in
                    bind (to_uint16 img scale0)
                      (fun u =>
                         bind (demosaicing_fuel cv 1 u (PyCode c))
                           (fun r => from_uint16 r scale0 d)))).
  { cbn [demosaicing_fuel]. now rewrite Hf. }
  rewrite E0. unfold np_max_of, scale.
  destruct (data img) as [|x t] eqn:E; [now destruct Hdata|].
  unfold to_uint16. cbn [bind tell ret app].
  match goal with
  | |- context [demosaicing_fuel cv 1 ?u (PyCode c)] =>
      destruct (demosaicing_fuel cv 1 u (PyCode c)) as [log16 [e|r]]
  end; cbn [bind app]; [reflexivity|].
  match goal with
  | |- context [from_uint16 r ?sc d] => now destruct (from_uint16 r sc d)
  end.
Qed.




(** *** Concrete runs *)

(** In binary64 the largest sample does not always reach 65535:
    [13.0 * (65535.0 / 13.0)] is 65534.99999999999, which the cast
    truncates to 65534. *)
Example rescale_of_13 :
  data (rescale_u16 mosaic_f64_13
          (SFdiv 53 1024 (Z2SF float64 65535) (Q2SF float64 13)))
    = [65534; 32767; 16383; 0]%Q.
Proof. vm_compute. reflexivity. Qed.

(** The 2 x 2 mosaic whose samples are the polarizer angles demosaics, with
    the stand-in debayer, to four constant images: 0, 45, 90, 135. *)
Example demosaicing_angles :
  snd (demosaicing cv2_nearest mosaic_u8 (PyCode COLOR_PolarMono)) =
    inr (RList [mk_ndarray uint8 [2; 2] [0; 0; 0; 0]%Q;
                mk_ndarray uint8 [2; 2] [45; 45; 45; 45]%Q;
                mk_ndarray uint8 [2; 2] [90; 90; 90; 90]%Q;
                mk_ndarray uint8 [2; 2] [135; 135; 135; 135]%Q]).
Proof. vm_compute. reflexivity. Qed.

End DemosaicingSpec.

(** ** Linear algebra: the pseudo-inverse solves least squares *)
Module LinAlgFacts.
Import NumPy NumPyFacts LinAlg.
Local Open Scope R_scope.

Lemma dot_nil_r u : dot u [] = 0.
Proof. now destruct u. Qed.

Lemma dot_comm u v : dot u v = dot v u.
Proof.
  revert v. induction u as [|a u IH]; intros [|b v]; simpl; auto.
  rewrite IH. lra.
Qed.

Lemma dot_vadd_l u v w :
  length u = length v -> dot (vadd u v) w = dot u w + dot v w.
Proof.
  revert v w. induction u as [|a u IH]; intros [|b v] w E; try discriminate.
  - simpl. lra.
  - destruct w as [|c w]; simpl; [lra|].
    injection E as E. unfold vadd in IH. rewrite IH by assumption. lra.
Qed.

Lemma dot_vsub_l u v w :
  length u = length v -> dot (vsub u v) w = dot u w - dot v w.
Proof.
  revert v w. induction u as [|a u IH]; intros [|b v] w E; try discriminate.
  - simpl. lra.
  - destruct w as [|c w]; simpl; [lra|].
    injection E as E. unfold vsub in IH. rewrite IH by assumption. lra.
Qed.

Lemma dot_vscale_l c u w : dot (vscale c u) w = c * dot u w.
Proof.
  revert w. induction u as [|a u IH]; intros [|b w]; simpl; try lra.
  unfold vscale in IH. rewrite IH. lra.
Qed.

Lemma dot_zeros_l n w : dot (tabulate n (fun _ => 0)) w = 0.
Proof.
  unfold tabulate. generalize 0%nat as s. revert w.
  induction n as [|n IH]; intros [|b w] s; simpl; auto.
  rewrite IH. lra.
Qed.

Lemma norm2_nonneg u : 0 <= norm2 u.
Proof.
  unfold norm2. induction u as [|a u IH]; simpl; [lra|].
  pose proof (Rle_0_sqr a) as H. unfold Rsqr in H. lra.
Qed.

Lemma norm2_zero u : norm2 u = 0 -> Forall (fun a => a = 0) u.
Proof.
  unfold norm2. induction u as [|a u IH]; simpl; intros H; constructor.
  - pose proof (norm2_nonneg u) as Hu. unfold norm2 in Hu. nra.
  - apply IH. pose proof (norm2_nonneg u) as Hu. unfold norm2 in Hu. nra.
Qed.

Lemma dot_all_zero_r u z : Forall (fun a => a = 0) z -> dot u z = 0.
Proof.
  intros Hz. revert u. induction Hz as [|a z Ha Hz IH]; intros [|b u]; simpl; auto.
  rewrite IH, Ha. lra.
Qed.

Lemma vadd_length u v : length u = length v -> length (vadd u v) = length u.
Proof. intros E. unfold vadd. rewrite map2_length, E. apply Nat.min_id. Qed.

Lemma vsub_length u v : length u = length v -> length (vsub u v) = length u.
Proof. intros E. unfold vsub. rewrite map2_length, E. apply Nat.min_id. Qed.

Lemma norm2_vadd u v :
  length u = length v ->
  norm2 (vadd u v) = norm2 u + 2 * dot u v + norm2 v.
Proof.
  intros E. unfold norm2.
  rewrite dot_vadd_l by assumption.
  rewrite (dot_comm u (vadd u v)), (dot_comm v (vadd u v)).
  rewrite !dot_vadd_l by assumption.
  rewrite (dot_comm v u). lra.
Qed.

Lemma vsub_vadd u v : length u = length v -> vadd (vsub u v) v = u.
Proof.
  revert v. induction u as [|a u IH]; intros [|b v] E; try discriminate; auto.
  injection E as E. unfold vadd, vsub in *. simpl. rewrite IH by assumption.
  f_equal. lra.
Qed.

Lemma vsub_vadd_assoc u v w :
  length u = length v -> length v = length w ->
  vsub (vadd u v) w = vadd u (vsub v w).
Proof.
  revert v w. induction u as [|a u IH]; intros [|b v] [|c w] L1 L2;
    try discriminate; auto.
  injection L1 as L1. injection L2 as L2.
  unfold vadd, vsub in *. simpl. rewrite IH by assumption. f_equal. lra.
Qed.

Lemma matvec_length A x : length (matvec A x) = length A.
Proof. apply length_map. Qed.

Lemma matvec_vadd A x y n :
  Forall (fun row => length row = n) A -> length x = n -> length y = n ->
  matvec A (vadd x y) = vadd (matvec A x) (matvec A y).
Proof.
  intros HA Hx Hy. induction HA as [|row A Hrow HA IH]; simpl; auto.
  unfold vadd in *. simpl. rewrite <- IH. f_equal.
  rewrite (dot_comm row), (dot_comm row x), (dot_comm row y).
  apply dot_vadd_l. congruence.
Qed.

Lemma matvec_vsub A x y n :
  Forall (fun row => length row = n) A -> length x = n -> length y = n ->
  matvec A (vsub x y) = vsub (matvec A x) (matvec A y).
Proof.
  intros HA Hx Hy. induction HA as [|row A Hrow HA IH]; simpl; auto.
  unfold vsub in *. simpl. rewrite <- IH. f_equal.
  rewrite (dot_comm row), (dot_comm row x), (dot_comm row y).
  apply dot_vsub_l. congruence.
Qed.

Lemma vsub_self_zero u : Forall (fun a => a = 0) (vsub u u).
Proof.
  induction u as [|a u IH]; unfold vsub in *; simpl; constructor; auto. lra.
Qed.

Lemma vsub_zero_eq u v :
  length u = length v -> Forall (fun a => a = 0) (vsub u v) -> u = v.
Proof.
  revert v. induction u as [|a u IH]; intros [|b v] E H; try discriminate; auto.
  injection E as E. unfold vsub in *. simpl in H. inversion H; subst.
  f_equal; [lra|]. now apply IH.
Qed.

Lemma matvec_all_zero A z :
  Forall (fun a => a = 0) z -> Forall (fun a => a = 0) (matvec A z).
Proof.
  intros Hz. unfold matvec. apply Forall_forall. intros a Ha.
  apply in_map_iff in Ha. destruct Ha as [row [<- _]].
  now apply dot_all_zero_r.
Qed.

Lemma tabulate_nth_id n (a : vec) :
  length a = n -> tabulate n (fun j => nth j a 0) = a.
Proof.
  intros <-. unfold tabulate.
  apply nth_ext with (d := 0) (d' := 0).
  - now rewrite length_map, length_seq.
  - intros j Hj. rewrite length_map, length_seq in Hj.
    apply (tabulate_nth (length a) (fun j => nth j a 0) 0 j Hj).
Qed.

(** The adjoint identity: [(u^T A) . v = u . (A v)]. *)
Lemma dot_vecmat n u A v :
  is_matrix (length u) n A ->
  dot (vecmat n u A) v = dot u (matvec A v).
Proof.
  intros [Hlen Hrows]. revert u Hlen.
  induction Hrows as [|row A Hrow Hrows IH]; intros [|a u] Hlen;
    try discriminate; unfold vecmat in *; simpl.
  - apply dot_zeros_l.
  - injection Hlen as Hlen.
    rewrite <- (IH u Hlen).
    rewrite <- (map2_tabulate Rplus n (fun j => a * nth j row 0)).
    change (map2 Rplus ?p ?q) with (vadd p q).
    rewrite dot_vadd_l by now rewrite !tabulate_length.
    f_equal.
    rewrite <- (map_tabulate (Rmult a) n (fun j => nth j row 0)).
    rewrite tabulate_nth_id by assumption.
    apply dot_vscale_l.
Qed.

Lemma vecmat_length n u A : length (vecmat n u A) = n.
Proof. apply tabulate_length. Qed.

Lemma mmul_is_matrix p A B : is_matrix (length A) p (mmul p A B).
Proof.
  split; [apply length_map|].
  apply Forall_forall. intros r Hr. apply in_map_iff in Hr.
  destruct Hr as [row [<- _]]. apply vecmat_length.
Qed.

(** [(A B) x = A (B x)]. *)
Lemma matvec_mmul k p A B x :
  Forall (fun row => length row = k) A -> is_matrix k p B ->
  matvec (mmul p A B) x = matvec A (matvec B x).
Proof.
  intros HA HB. unfold matvec at 1 2, mmul. rewrite map_map.
  apply map_ext_in. intros row Hrow.
  apply dot_vecmat. rewrite Forall_forall in HA.
  rewrite (HA row Hrow). exact HB.
Qed.

Lemma matvec_transpose n A u :
  matvec (transpose n A) u = vecmat n u A.
Proof.
  unfold matvec, transpose, vecmat. rewrite map_tabulate.
  apply tabulate_ext. intros j _. apply dot_comm.
Qed.

(** A symmetric matrix is self-adjoint. *)
Lemma symmetric_adjoint n P u v :
  is_matrix n n P -> transpose n P = P -> length u = n ->
  dot (matvec P u) v = dot u (matvec P v).
Proof.
  intros HP Hsym Hu.
  rewrite <- Hsym at 1. rewrite matvec_transpose.
  apply dot_vecmat. now rewrite Hu.
Qed.

Section PseudoInverse.
Variables (m n : nat) (A B : matrix).
Hypothesis HAB : is_pinv m n A B.

Let HA : is_matrix m n A := proj1 HAB.
Let HB : is_matrix n m B := proj1 (proj2 HAB).

Lemma pinv_AB_matrix : is_matrix m m (mmul m A B).
Proof.
  pose proof (mmul_is_matrix m A B) as H. now rewrite (proj1 HA) in H.
Qed.

Lemma pinv_BA_matrix : is_matrix n n (mmul n B A).
Proof.
  pose proof (mmul_is_matrix n B A) as H. now rewrite (proj1 HB) in H.
Qed.

(** [A B A x = A x] *)
Lemma pinv_ABA x : matvec A (matvec B (matvec A x)) = matvec A x.
Proof.
  pose proof HAB as (_ & _ & P1 & _).
  rewrite <- (matvec_mmul n m A B) by (apply HA || exact HB).
  rewrite <- (matvec_mmul m n (mmul m A B) A)
    by (apply pinv_AB_matrix || exact HA).
  now rewrite P1.
Qed.

(** [B A B b = B b] *)
Lemma pinv_BAB b : matvec B (matvec A (matvec B b)) = matvec B b.
Proof.
  pose proof HAB as (_ & _ & _ & P2 & _).
  rewrite <- (matvec_mmul m n B A) by (apply HB || exact HA).
  rewrite <- (matvec_mmul n m (mmul n B A) B)
    by (apply pinv_BA_matrix || exact HB).
  now rewrite P2.
Qed.

(** The residual of [B b] is orthogonal to the range of [A]. *)
Lemma pinv_orthogonal b d :
  length b = m ->
  dot (matvec A d) (vsub (matvec A (matvec B b)) b) = 0.
Proof.
  intros Hb.
  pose proof HAB as (_ & _ & _ & _ & P3 & _).
  rewrite dot_comm, dot_vsub_l
    by (rewrite matvec_length, (proj1 HA); auto).
  rewrite <- (matvec_mmul n m A B) by (apply HA || exact HB).
  rewrite (symmetric_adjoint m _ b (matvec A d) pinv_AB_matrix P3 Hb).
  rewrite (matvec_mmul n m A B) by (apply HA || exact HB).
  rewrite pinv_ABA. lra.
Qed.

(** Pythagoras: the residual of any [y] splits along the range of [A]. *)
Lemma residual_split b y :
  length b = m -> length y = n ->
  residual A y b =
    norm2 (matvec A (vsub y (matvec B b))) + residual A (matvec B b) b.
Proof.
  intros Hb Hy. unfold residual.
  set (x0 := matvec B b).
  assert (Hx0 : length x0 = n) by (unfold x0; rewrite matvec_length; apply HB).
  assert (Ey : y = vadd (vsub y x0) x0) by (symmetry; apply vsub_vadd; congruence).
  assert (Hd : length (vsub y x0) = n) by (rewrite vsub_length; congruence).
  set (d := vsub y x0) in *.
  rewrite Ey at 1.
  rewrite (matvec_vadd A d x0 n) by (apply HA || assumption).
  set (r := vsub (matvec A x0) b).
  assert (Hlen : length (matvec A d) = length r).
  { unfold r. rewrite vsub_length; rewrite !matvec_length; auto.
    now rewrite (proj1 HA). }
  assert (E : vsub (vadd (matvec A d) (matvec A x0)) b = vadd (matvec A d) r).
  { unfold r. apply vsub_vadd_assoc.
    - now rewrite !matvec_length.
    - rewrite matvec_length, (proj1 HA); auto. }
  rewrite E, norm2_vadd by assumption.
  unfold r at 1, x0. rewrite pinv_orthogonal by assumption. lra.
Qed.

(** [B b] is a least-squares solution of [A x = b]. *)
Lemma pinv_least_squares b :
  length b = m -> least_squares n A b (matvec B b).
Proof.
  intros Hb. split.
  { rewrite matvec_length. apply HB. }
  intros y Hy. rewrite (residual_split b y Hb Hy).
  pose proof (norm2_nonneg (matvec A (vsub y (matvec B b)))). lra.
Qed.

(** Among the least-squares solutions, [B b] has the least norm. *)
Lemma pinv_minimum_norm b :
  length b = m -> minimum_norm n A b (matvec B b).
Proof.
  intros Hb y Hy Hres.
  rewrite (residual_split b y Hb Hy) in Hres.
  set (x0 := matvec B b) in *.
  assert (Hx0 : length x0 = n) by (unfold x0; rewrite matvec_length; apply HB).
  set (d := vsub y x0) in *.
  assert (Hd : length d = n) by (unfold d; rewrite vsub_length; congruence).
  assert (Z : Forall (fun a => a = 0) (matvec A d)).
  { apply norm2_zero. pose proof (norm2_nonneg (matvec A d)). lra. }
  assert (O : dot d x0 = 0).
  { unfold x0. rewrite <- pinv_BAB. fold x0.
    rewrite <- (matvec_mmul m n B A) by (apply HB || exact HA).
    pose proof HAB as (_ & _ & _ & _ & _ & P4).
    rewrite <- (symmetric_adjoint n _ d x0 pinv_BA_matrix P4 Hd).
    rewrite (matvec_mmul m n B A) by (apply HB || exact HA).
    rewrite dot_comm. apply dot_all_zero_r.
    now apply matvec_all_zero. }
  assert (Ey : y = vadd d x0) by (symmetry; apply vsub_vadd; congruence).
  rewrite Ey, norm2_vadd, O by congruence.
  pose proof (norm2_nonneg d). lra.
Qed.

(** When [A] is injective, [B] is a left inverse of [A]. *)
Lemma pinv_left_inverse s :
  length s = n ->
  (forall z, length z = n ->
             Forall (fun a => a = 0) (matvec A z) -> Forall (fun a => a = 0) z) ->
  matvec B (matvec A s) = s.
Proof.
  intros Hs Hinj.
  set (t := matvec B (matvec A s)).
  assert (Ht : length t = n) by (unfold t; rewrite matvec_length; apply HB).
  apply vsub_zero_eq; [congruence|].
  apply Hinj; [rewrite vsub_length; congruence|].
  rewrite (matvec_vsub A t s n) by (apply HA || assumption).
  unfold t. rewrite pinv_ABA.
  apply vsub_self_zero.
Qed.

End PseudoInverse.

End LinAlgFacts.

(** ** The derived-quantity kernels *)
Module StokesKernels.
Import NumPy NumPyFacts Stokes.

Lemma Forall2_tabulate {T U} (P : T -> U -> Prop) n f g :
  (forall p, p < n -> P (f p) (g p)) ->
  Forall2 P (tabulate n f) (tabulate n g).
Proof.
  intros H. unfold tabulate.
  assert (G : forall l, (forall p, In p l -> p < n) ->
                        Forall2 P (map f l) (map g l)).
  { induction l as [|a l IH]; intros Hl; simpl; constructor.
    - apply H, Hl. now left.
    - apply IH. intros p Hp. apply Hl. now right. }
  apply G. intros p Hp. apply in_seq in Hp. lia.
Qed.

(** Elementwise operations on tabulated buffers fuse into one tabulation. *)
Ltac fuse_tabulate :=
  repeat (rewrite map_tabulate || rewrite map2_tabulate).

(** Every kernel is a pointwise function of the pixel's components: the
    closed form of each, on an image of shape [lead ++ [n]]. *)
Section Pointwise.
Context {T : Type} {AT : Arith T}.
Variables (img : ndarray T) (lead : list nat) (n : nat).
Hypothesis Hshape : shape img = lead ++ [n].

Let s (k p : nat) : T := stokes_at fzero img p k.
(** the shared term sqrt(S1^2 + S2^2) *)
Let rho (p : nat) : T := fsqrt (fadd (fmul (s 1 p) (s 1 p)) (fmul (s 2 p) (s 2 p))).

Lemma last_axis : last (shape img) 0 = n.
Proof. rewrite Hshape. apply last_last. Qed.

Lemma component_eq k :
  k < n ->
  component k img =
    Some (mk_ndarray (dtype_of img) lead (tabulate (npixels img) (s k))).
Proof.
  intros Hk. unfold component.
  rewrite (ellipsis_index_some _ _ _ _ _ Hshape Hk).
  unfold npixels, s, stokes_at. now rewrite last_axis.
Qed.

Hypothesis Hn : 3 <= n.

Lemma Imax_eq :
  cvtStokesToImax img =
    Some (mk_ndarray (dtype_of img) lead
            (tabulate (npixels img)
               (fun p => fmul (fadd (s 0 p) (rho p)) lit_half))).
Proof.
  unfold cvtStokesToImax. rewrite !component_eq by lia.
  unfold arr_mul_scalar, arr_add, arr_sqrt, arr_sq, ufunc1, ufunc2. simpl.
  now fuse_tabulate.
Qed.

Lemma Imin_eq :
  cvtStokesToImin img =
    Some (mk_ndarray (dtype_of img) lead
            (tabulate (npixels img)
               (fun p => fmul (fsub (s 0 p) (rho p)) lit_half))).
Proof.
  unfold cvtStokesToImin. rewrite !component_eq by lia.
  unfold arr_mul_scalar, arr_add, arr_sub, arr_sqrt, arr_sq, ufunc1, ufunc2.
  simpl. now fuse_tabulate.
Qed.

Lemma Specular_eq :
  cvtStokesToSpecular img =
    Some (mk_ndarray (dtype_of img) lead (tabulate (npixels img) rho)).
Proof.
  unfold cvtStokesToSpecular. rewrite !component_eq by lia.
  unfold arr_add, arr_sqrt, arr_sq, ufunc1, ufunc2. simpl.
  now fuse_tabulate.
Qed.

Lemma Intensity_eq :
  cvtStokesToIntensity img =
    Some (mk_ndarray (dtype_of img) lead
            (tabulate (npixels img) (fun p => fmul (s 0 p) lit_half))).
Proof.
  unfold cvtStokesToIntensity. rewrite !component_eq by lia.
  unfold arr_mul_scalar, ufunc1. simpl. now fuse_tabulate.
Qed.

Lemma DoLP_eq :
  cvtStokesToDoLP img =
    Some (mk_ndarray (dtype_of img) lead
            (tabulate (npixels img) (fun p => fdiv (rho p) (s 0 p)))).
Proof.
  unfold cvtStokesToDoLP. rewrite !component_eq by lia.
  unfold arr_div, arr_add, arr_sqrt, arr_sq, ufunc1, ufunc2. simpl.
  now fuse_tabulate.
Qed.

End Pointwise.

(** *** Over the reals *)
Section RealKernels.
Local Open Scope R_scope.

(** C5. Kernel symmetry: on every Stokes image (last axis of length at
    least 3) the four kernels return, and as arrays
    [Imax - Imin = Specular] and [Intensity = (Imax + Imin) / 2], in exact
    real arithmetic. *)
Theorem kernel_symmetry (img : ndarray R) :
  stokes_image 3 img ->
  exists Imax Imin Specular Intensity,
    cvtStokesToImax img = Some Imax /\
    cvtStokesToImin img = Some Imin /\
    cvtStokesToSpecular img = Some Specular /\
    cvtStokesToIntensity img = Some Intensity /\
    arr_sub Imax Imin = Specular /\
    Intensity = arr_div_scalar (arr_add Imax Imin) 2.
Proof.
  intros (lead & n & Hs & Hn).
  rewrite (Imax_eq img lead n Hs Hn), (Imin_eq img lead n Hs Hn),
    (Specular_eq img lead n Hs Hn), (Intensity_eq img lead n Hs Hn).
  do 4 eexists. repeat split; try reflexivity.
  - unfold arr_sub, ufunc2. simpl. f_equal.
    rewrite map2_tabulate. apply tabulate_ext. intros p _. lra.
  - unfold arr_div_scalar, arr_add, ufunc1, ufunc2. simpl. f_equal.
    rewrite map2_tabulate, map_tabulate. apply tabulate_ext.
    intros p _. lra.
Qed.

Lemma stokes_two_pixels_image : stokes_image 3 stokes_two_pixels.
Proof. exists [1; 2]%nat, 3%nat. split; [reflexivity | lia]. Qed.

Lemma kernel_symmetry_witness :
  exists Imax Imin Specular Intensity,
    cvtStokesToImax stokes_two_pixels = Some Imax /\
    cvtStokesToImin stokes_two_pixels = Some Imin /\
    cvtStokesToSpecular stokes_two_pixels = Some Specular /\
    cvtStokesToIntensity stokes_two_pixels = Some Intensity /\
    arr_sub Imax Imin = Specular /\
    Intensity = arr_div_scalar (arr_add Imax Imin) 2.
Proof.
  apply (kernel_symmetry stokes_two_pixels). exact stokes_two_pixels_image.
Defined.

(** C10. Ordering: on every real Stokes image, pixel by pixel,
    [Imin <= Intensity <= Imax] and [Specular >= 0], whatever the sign of
    [S0]. *)
Theorem kernel_ordering (img : ndarray R) :
  stokes_image 3 img ->
  exists Imax Imin Specular Intensity,
    cvtStokesToImax img = Some Imax /\
    cvtStokesToImin img = Some Imin /\
    cvtStokesToSpecular img = Some Specular /\
    cvtStokesToIntensity img = Some Intensity /\
    arr_le Imin Intensity /\
    arr_le Intensity Imax /\
    Forall (fun x => 0 <= x) (data Specular).
Proof.
  intros (lead & n & Hs & Hn).
  rewrite (Imax_eq img lead n Hs Hn), (Imin_eq img lead n Hs Hn),
    (Specular_eq img lead n Hs Hn), (Intensity_eq img lead n Hs Hn).
  do 4 eexists. repeat split; try reflexivity; simpl.
  - apply Forall2_tabulate. intros p _.
    match goal with |- context [sqrt ?x] => pose proof (sqrt_pos x) end.
    lra.
  - apply Forall2_tabulate. intros p _.
    match goal with |- context [sqrt ?x] => pose proof (sqrt_pos x) end.
    lra.
  - apply Forall_tabulate. intros p _. apply sqrt_pos.
Qed.

Lemma kernel_ordering_witness :
  exists Imax Imin Specular Intensity,
    cvtStokesToImax stokes_two_pixels = Some Imax /\
    cvtStokesToImin stokes_two_pixels = Some Imin /\
    cvtStokesToSpecular stokes_two_pixels = Some Specular /\
    cvtStokesToIntensity stokes_two_pixels = Some Intensity /\
    arr_le Imin Intensity /\
    arr_le Intensity Imax /\
    Forall (fun x => 0 <= x) (data Specular).
Proof.
  apply (kernel_ordering stokes_two_pixels). exact stokes_two_pixels_image.
Defined.

Lemma np_mod_range (a b : R) : 0 < b -> 0 <= np_mod a b < b.
Proof.
  intros Hb. unfold np_mod.
  destruct (base_Int_part (a / b)) as [H1 H2].
  assert (E : a = a / b * b) by (field; lra).
  set (q := IZR (Int_part (a / b))) in *.
  split.
  - assert (q * b <= a / b * b) by (apply Rmult_le_compat_r; lra). lra.
  - assert ((a / b - 1) * b < q * b) by (apply Rmult_lt_compat_r; lra). lra.
Qed.

(** The angle in exact real arithmetic: on every Stokes image the kernel
    returns, and every element of [mod(0.5 * arctan2(S2, S1), pi)], with
    [mod] the remainder of the floored division, lies in [[0, pi)].  (On
    doubles the upper bound is not strict: see [AoLP64].) *)
Theorem aolp_range (img : ndarray R) :
  stokes_image 3 img ->
  exists AoLP,
    cvtStokesToAoLP img = Some AoLP /\
    length (data AoLP) = npixels img /\
    Forall (fun x => 0 <= x < PI) (data AoLP).
Proof.
  intros (lead & n & Hs & Hn).
  unfold cvtStokesToAoLP.
  rewrite !(component_eq img lead n Hs) by lia.
  eexists. split; [reflexivity|]. simpl. split.
  - now rewrite !length_map, map2_length, !tabulate_length, Nat.min_id.
  - apply Forall_forall. intros x Hx. apply in_map_iff in Hx.
    destruct Hx as [y [<- _]]. apply np_mod_range, PI_RGT_0.
Qed.

Lemma aolp_range_witness :
  exists AoLP,
    cvtStokesToAoLP stokes_two_pixels = Some AoLP /\
    length (data AoLP) = npixels stokes_two_pixels /\
    Forall (fun x => 0 <= x < PI) (data AoLP).
Proof.
  apply (aolp_range stokes_two_pixels). exact stokes_two_pixels_image.
Defined.

End RealKernels.

(** *** Over IEEE-754 binary64 *)
Section FloatKernels.

Lemma div_by_zero_nonfinite (x y : spec_float) :
  is_zero y = true -> nonfinite (SFdiv prec64 emax64 x y) = true.
Proof. destruct y; try discriminate. intros _. now destruct x. Qed.

Lemma zero_dolp_nan (s0 s1 s2 : spec_float) :
  is_zero s0 = true -> is_zero s1 = true -> is_zero s2 = true ->
  fdiv (fsqrt (fadd (fmul s1 s1) (fmul s2 s2))) s0 = S754_nan.
Proof.
  destruct s0 as [b0| | |]; try discriminate.
  destruct s1 as [b1| | |]; try discriminate.
  destruct s2 as [b2| | |]; try discriminate.
  intros _ _ _. now destruct b0, b1, b2.
Qed.

(** C9. DoLP on degenerate input.  On every binary64 Stokes image the
    kernel returns an array (it does not raise), with one value per pixel;
    wherever [S0] is a zero the value is NaN or an infinity; and on an
    image whose every sample is a zero, every value is NaN. *)
Theorem dolp_degenerate (img : ndarray spec_float) :
  stokes_image 3 img ->
  exists DoLP,
    cvtStokesToDoLP img = Some DoLP /\
    length (data DoLP) = npixels img /\
    (forall p, p < npixels img ->
       is_zero (stokes_at fzero img p 0) = true ->
       nonfinite (nth p (data DoLP) fzero) = true) /\
    (Forall (fun x => is_zero x = true) (data img) ->
     Forall (fun x => x = S754_nan) (data DoLP)).
Proof.
  intros (lead & n & Hs & Hn).
  rewrite (DoLP_eq img lead n Hs Hn).
  eexists. split; [reflexivity|]. simpl. split; [|split].
  - apply tabulate_length.
  - intros p Hp Hz. rewrite tabulate_nth by assumption.
    now apply div_by_zero_nonfinite.
  - intros Hall. apply Forall_tabulate. intros p Hp.
    assert (Z : forall k, k < n -> is_zero (stokes_at fzero img p k) = true).
    { intros k Hk. unfold stokes_at.
      rewrite (last_axis img lead n Hs).
      rewrite Forall_forall in Hall. apply Hall, nth_In.
      unfold npixels in Hp. rewrite (last_axis img lead n Hs) in Hp.
      assert (n * (length (data img) / n) <= length (data img))
        by (apply Nat.Div0.mul_div_le).
      nia. }
    apply zero_dolp_nan; apply Z; lia.
Qed.

Lemma dolp_degenerate_witness :
  exists DoLP,
    cvtStokesToDoLP stokes_zeros = Some DoLP /\
    length (data DoLP) = npixels stokes_zeros /\
    (forall p, p < npixels stokes_zeros ->
       is_zero (stokes_at fzero stokes_zeros p 0) = true ->
       nonfinite (nth p (data DoLP) fzero) = true) /\
    (Forall (fun x => is_zero x = true) (data stokes_zeros) ->
     Forall (fun x => x = S754_nan) (data DoLP)).
Proof.
  apply (dolp_degenerate stokes_zeros).
  exists [1; 2], 3. split; [reflexivity | lia].
Defined.

(** On the all-zero image the kernel evaluates to NaN at both pixels. *)
Example dolp_zeros :
  cvtStokesToDoLP stokes_zeros =
    Some (mk_ndarray float64 [1; 2] [S754_nan; S754_nan]).
Proof. reflexivity. Qed.

End FloatKernels.

End StokesKernels.

(** ** Rounding to nearest in [SpecFloat]: an upper bound that is a float
    is never crossed *)
Module RoundingFacts.
Import Stokes64.
Local Open Scope Z_scope.

Lemma bpow_pos (e : Z) : (0 < powerRZ 2 e)%R.
Proof. apply powerRZ_lt; lra. Qed.

Lemma bpow_add (a b : Z) : powerRZ 2 (a + b) = (powerRZ 2 a * powerRZ 2 b)%R.
Proof. apply powerRZ_add; lra. Qed.

Lemma bpow_IZR (k : Z) : 0 <= k -> IZR (2 ^ k) = powerRZ 2 k.
Proof.
  destruct k as [|p|p]; intros H; [reflexivity| |lia].
  rewrite <- Z.pow_pos_fold. apply Zpower_pos_powerRZ.
Qed.

Lemma bpow_le (a b : Z) : a <= b -> (powerRZ 2 a <= powerRZ 2 b)%R.
Proof.
  intros H. replace b with (a + (b - a)) by lia. rewrite bpow_add.
  rewrite <- (bpow_IZR (b - a)) by lia.
  assert (H0 : 0 < 2 ^ (b - a)) by (apply Z.pow_pos_nonneg; lia).
  assert (H1 : 1 <= 2 ^ (b - a)) by lia.
  apply IZR_le in H1. pose proof (bpow_pos a). nra.
Qed.

Lemma bpow_lt_inv (a b : Z) : (powerRZ 2 a < powerRZ 2 b)%R -> a < b.
Proof.
  intros H. destruct (Z_lt_le_dec a b) as [L|L]; [exact L|].
  apply bpow_le in L. lra.
Qed.

Lemma F2R_shift (m e j : Z) : 0 <= j -> F2R (m * 2 ^ j) e = F2R m (e + j).
Proof.
  intros H. unfold F2R. rewrite mult_IZR, bpow_IZR, bpow_add by lia. ring.
Qed.

Lemma F2R_le (m n e : Z) : m <= n -> (F2R m e <= F2R n e)%R.
Proof.
  intros H. unfold F2R. apply IZR_le in H. pose proof (bpow_pos e). nra.
Qed.

Lemma F2R_le_inv (m n e : Z) : (F2R m e <= F2R n e)%R -> m <= n.
Proof.
  unfold F2R. intros H. apply le_IZR. pose proof (bpow_pos e). nra.
Qed.

Lemma digits2_pos_bounds (m : positive) :
  2 ^ (Zpos (digits2_pos m) - 1) <= Zpos m < 2 ^ Zpos (digits2_pos m).
Proof.
  induction m as [p IH|p IH|]; cbn [digits2_pos];
    [rewrite Pos2Z.inj_succ, (Pos2Z.inj_xI p)|
     rewrite Pos2Z.inj_succ, (Pos2Z.inj_xO p)|
     cbn; lia].
  - replace (Z.succ (Zpos (digits2_pos p)) - 1)
      with (Z.succ (Zpos (digits2_pos p) - 1)) by lia.
    rewrite !Z.pow_succ_r by lia. destruct IH as [L U]. revert L U.
    generalize (2 ^ (Zpos (digits2_pos p) - 1)) (2 ^ Zpos (digits2_pos p)).
    intros; lia.
  - replace (Z.succ (Zpos (digits2_pos p)) - 1)
      with (Z.succ (Zpos (digits2_pos p) - 1)) by lia.
    rewrite !Z.pow_succ_r by lia. destruct IH as [L U]. revert L U.
    generalize (2 ^ (Zpos (digits2_pos p) - 1)) (2 ^ Zpos (digits2_pos p)).
    intros; lia.
Qed.

Lemma F2R_bounds (m : positive) (e : Z) :
  (powerRZ 2 (Zpos (digits2_pos m) - 1 + e) <= F2R (Zpos m) e
   < powerRZ 2 (Zpos (digits2_pos m) + e))%R.
Proof.
  destruct (digits2_pos_bounds m) as [L U].
  rewrite !bpow_add.
  rewrite <- (bpow_IZR (Zpos (digits2_pos m) - 1)) by lia.
  rewrite <- (bpow_IZR (Zpos (digits2_pos m))) by lia.
  apply IZR_le in L. apply IZR_lt in U. unfold F2R.
  pose proof (bpow_pos e). split; nra.
Qed.

(** The magnitude of a positive number bounds that of a smaller one. *)
Lemma magnitude_le (a b : positive) (ea eb : Z) :
  (F2R (Zpos a) ea <= F2R (Zpos b) eb)%R ->
  Zpos (digits2_pos a) + ea <= Zpos (digits2_pos b) + eb.
Proof.
  intros H. pose proof (F2R_bounds a ea) as [La _].
  pose proof (F2R_bounds b eb) as [_ Ub].
  assert (Zpos (digits2_pos a) - 1 + ea < Zpos (digits2_pos b) + eb)
    by (apply bpow_lt_inv; lra).
  lia.
Qed.

Lemma digits2_pos_unique (m : positive) (d : Z) :
  2 ^ (d - 1) <= Zpos m < 2 ^ d -> 0 < d -> Zpos (digits2_pos m) = d.
Proof.
  intros [L U] Hd. destruct (digits2_pos_bounds m) as [L' U'].
  assert (d - 1 < Zpos (digits2_pos m))
    by (apply (Z.pow_lt_mono_r_iff 2); lia).
  assert (Zpos (digits2_pos m) - 1 < d)
    by (apply (Z.pow_lt_mono_r_iff 2); lia).
  lia.
Qed.

Lemma digits2_pos_shift (m m' : positive) (j : Z) :
  0 <= j -> Zpos m' = Zpos m * 2 ^ j ->
  Zpos (digits2_pos m') = Zpos (digits2_pos m) + j.
Proof.
  intros Hj E. apply digits2_pos_unique; [|lia].
  destruct (digits2_pos_bounds m) as [L U]. rewrite E.
  replace (Zpos (digits2_pos m) + j - 1) with (Zpos (digits2_pos m) - 1 + j)
    by lia.
  rewrite !Z.pow_add_r by lia.
  assert (0 < 2 ^ j) by (apply Z.pow_pos_nonneg; lia). nia.
Qed.

Lemma shl_align_spec (m : positive) (e e0 : Z) :
  Zpos (fst (shl_align m e e0)) = Zpos m * 2 ^ (e - snd (shl_align m e e0)) /\
  snd (shl_align m e e0) = Z.min e e0.
Proof.
  unfold shl_align. destruct (e0 - e) as [|d|d] eqn:Ed; cbn [fst snd].
  - rewrite Z.sub_diag. cbn. lia.
  - rewrite Z.sub_diag. cbn. lia.
  - split; [|lia]. replace (e - e0) with (Zpos d) by lia.
    change (Zpos (shift_pos d m) = Zpos m * 2 ^ Zpos d).
    rewrite shift_pos_correct, Z.pow_pos_fold. ring.
Qed.

Lemma shl_align_F2R (m : positive) (e e0 : Z) :
  F2R (Zpos (fst (shl_align m e e0))) (snd (shl_align m e e0)) = F2R (Zpos m) e.
Proof.
  destruct (shl_align_spec m e e0) as [E1 E2]. rewrite E1.
  rewrite F2R_shift by lia. f_equal. lia.
Qed.

Lemma iter_pos_nat {A} (f : A -> A) (p : positive) (x : A) :
  iter_pos f p x = Nat.iter (Pos.to_nat p) f x.
Proof.
  revert x. induction p as [p IH|p IH|]; intros x; cbn [iter_pos].
  - rewrite !IH, Pos2Nat.inj_xI, <- Nat.iter_add, Nat.iter_succ_r.
    f_equal. lia.
  - rewrite !IH, Pos2Nat.inj_xO, <- Nat.iter_add. f_equal. lia.
  - reflexivity.
Qed.

Lemma shr_1_spec (mrs : shr_record) :
  0 <= shr_m mrs ->
  shr_m (shr_1 mrs) = shr_m mrs / 2 /\
  shr_r (shr_1 mrs) = Z.odd (shr_m mrs) /\
  shr_s (shr_1 mrs) = (shr_r mrs || shr_s mrs)%bool.
Proof.
  destruct mrs as [m r s]. cbn [shr_m shr_r shr_s]. intros H.
  destruct m as [|[p|p|]|q]; cbn [shr_1 shr_m shr_r shr_s];
    try lia; repeat split.
  - rewrite (Pos2Z.inj_xI p). apply (Z.div_unique _ 2 _ 1); lia.
  - rewrite (Pos2Z.inj_xO p). apply (Z.div_unique _ 2 _ 0); lia.
Qed.

Lemma shr_iter (n : nat) (m : Z) :
  0 <= m ->
  let mrs := Nat.iter n shr_1 (Build_shr_record m false false) in
  shr_m mrs = m / 2 ^ Z.of_nat n /\
  (m mod 2 ^ Z.of_nat n = 0 -> shr_r mrs = false /\ shr_s mrs = false).
Proof.
  intros Hm. induction n as [|n IH].
  - cbn. rewrite Z.div_1_r. auto.
  - cbn zeta in *. rewrite Nat.iter_succ.
    set (mrs := Nat.iter n shr_1 _) in *. destruct IH as [IH1 IH2].
    assert (P : 0 < 2 ^ Z.of_nat n) by (apply Z.pow_pos_nonneg; lia).
    assert (H0 : 0 <= shr_m mrs) by (rewrite IH1; apply Z.div_pos; lia).
    destruct (shr_1_spec mrs H0) as (E1 & E2 & E3).
    rewrite Nat2Z.inj_succ, Z.pow_succ_r by lia.
    rewrite E1, E2, E3, IH1. split.
    + rewrite Z.div_div by lia. f_equal. lia.
    + intros Hz. apply Z.mod_divide in Hz; [|lia]. destruct Hz as [q Hq].
      assert (Hm' : m = (2 * q) * 2 ^ Z.of_nat n) by lia.
      assert (Hz' : m mod 2 ^ Z.of_nat n = 0)
        by (rewrite Hm'; apply Z_mod_mult).
      destruct (IH2 Hz') as [-> ->].
      rewrite Hm', Z_div_mult by lia.
      rewrite Z.odd_mul. auto.
Qed.


Lemma shr_exact (m e k : Z) :
  0 <= m ->
  snd (shr (shr_record_of_loc m loc_Exact) e k) = e + Z.max 0 k /\
  shr_m (fst (shr (shr_record_of_loc m loc_Exact) e k)) = m / 2 ^ Z.max 0 k /\
  (m mod 2 ^ Z.max 0 k = 0 ->
   shr_r (fst (shr (shr_record_of_loc m loc_Exact) e k)) = false /\
   shr_s (fst (shr (shr_record_of_loc m loc_Exact) e k)) = false).
Proof.
  intros Hm. unfold shr.
  destruct k as [|p|p]; cbn [fst snd shr_record_of_loc shr_m shr_r shr_s].
  - rewrite Z.max_id. cbn. rewrite Z.div_1_r. split; [lia | auto].
  - rewrite Z.max_r by lia. rewrite iter_pos_nat.
    pose proof (shr_iter (Pos.to_nat p) m Hm) as H. cbn zeta in H.
    rewrite positive_nat_Z in H. split; [reflexivity | exact H].
  - rewrite Z.max_l by lia. cbn. rewrite Z.div_1_r. split; [lia | auto].
Qed.

Lemma round_nearest_even_cases (mrs : shr_record) :
  round_nearest_even (shr_m mrs) (loc_of_shr_record mrs) = shr_m mrs \/
  (round_nearest_even (shr_m mrs) (loc_of_shr_record mrs) = shr_m mrs + 1 /\
   shr_r mrs = true).
Proof.
  destruct mrs as [m [|] [|]]; cbn; auto. destruct (Z.even m); auto.
Qed.

Section Rounding.
Variables prec emax : Z.
Hypothesis Hemax : 3 <= 2 * emax.

Lemma fexp_mono (a b : Z) : a <= b -> fexp prec emax a <= fexp prec emax b.
Proof. unfold fexp. lia. Qed.

(** Rounding to nearest never crosses a float: a positive number that is at
    most the float [M * 2^E] rounds to a float that is at most [M * 2^E]. *)
Lemma binary_round_aux_le (sx : bool) (mx : positive) (ex : Z)
    (M : positive) (E : Z) :
  E = fexp prec emax (Zpos (digits2_pos M) + E) ->
  Zpos (digits2_pos M) + E <= emax ->
  ex <= fexp prec emax (Zpos (digits2_pos mx) + ex) ->
  (F2R (Zpos mx) ex <= F2R (Zpos M) E)%R ->
  le_result sx (binary_round_aux prec emax sx (Zpos mx) ex loc_Exact)
    (F2R (Zpos M) E).
Proof.
  intros HE HdB Hex Hle.
  pose proof (magnitude_le mx M ex E Hle) as Hmag.
  apply fexp_mono in Hmag. rewrite <- HE in Hmag.
  unfold binary_round_aux, shr_fexp. cbn [Zdigits2].
  set (e1 := fexp prec emax (Zpos (digits2_pos mx) + ex)) in *.
  destruct (shr_exact (Zpos mx) ex (e1 - ex) ltac:(lia)) as (He' & Hm' & Hfl).
  destruct (shr (shr_record_of_loc (Zpos mx) loc_Exact) ex (e1 - ex))
    as [mrs' e'].
  cbn [fst snd] in He', Hm', Hfl.
  rewrite (Z.max_r 0 (e1 - ex)) in He', Hm', Hfl by lia.
  assert (Ee : e' = e1) by lia. clear He'. subst e'.
  set (k := e1 - ex) in *.
  assert (Pk : 0 < 2 ^ k) by (apply Z.pow_pos_nonneg; lia).
  set (P := Zpos M * 2 ^ (E - e1)).
  assert (HP : F2R P e1 = F2R (Zpos M) E).
  { unfold P. rewrite F2R_shift by lia. f_equal. lia. }
  assert (Hmx : Zpos mx <= 2 ^ k * P).
  { apply (F2R_le_inv _ _ ex). rewrite (Z.mul_comm (2 ^ k)).
    rewrite F2R_shift by lia. replace (ex + k) with e1 by (unfold k; lia).
    now rewrite HP. }
  set (m1 := round_nearest_even (shr_m mrs') (loc_of_shr_record mrs')).
  assert (Hm1 : 0 <= m1 <= P).
  { destruct (round_nearest_even_cases mrs') as [E1 | [E1 Hr]];
      fold m1 in E1; rewrite E1, Hm'.
    - split; [apply Z.div_pos; lia|].
      apply Z.div_le_upper_bound; lia.
    - assert (Hnz : Zpos mx mod 2 ^ k <> 0).
      { intros Hz. destruct (Hfl Hz) as [Hr' _]. congruence. }
      assert (Zpos mx <> 2 ^ k * P).
      { intros Heq. apply Hnz. rewrite Heq, Z.mul_comm. apply Z_mod_mult. }
      assert (Zpos mx / 2 ^ k < P) by (apply Z.div_lt_upper_bound; lia).
      split; [|lia].
      assert (0 <= Zpos mx / 2 ^ k) by (apply Z.div_pos; lia). lia. }
  assert (Hm1B : (F2R m1 e1 <= F2R (Zpos M) E)%R).
  { rewrite <- HP. apply F2R_le. lia. }
  destruct (shr_exact m1 e1 (fexp prec emax (Zdigits2 m1 + e1) - e1)
              ltac:(lia)) as (He'' & Hm'' & _).
  destruct (shr (shr_record_of_loc m1 loc_Exact) e1
              (fexp prec emax (Zdigits2 m1 + e1) - e1)) as [mrs'' e''].
  cbn [fst snd] in He'', Hm''.
  set (j := Z.max 0 (fexp prec emax (Zdigits2 m1 + e1) - e1)) in *.
  assert (Pj : 0 < 2 ^ j) by (apply Z.pow_pos_nonneg; lia).
  assert (Hm2 : (F2R (shr_m mrs'') e'' <= F2R (Zpos M) E)%R).
  { rewrite He'', <- F2R_shift by lia.
    apply Rle_trans with (2 := Hm1B). apply F2R_le.
    rewrite Hm'', Z.mul_comm. apply Z.mul_div_le. lia. }
  destruct (shr_m mrs'') as [|m2|m2] eqn:E2.
  - reflexivity.
  - assert (He : e'' <= emax - prec).
    { assert (HEm : E <= emax - prec)
        by (rewrite HE; unfold fexp, emin; lia).
      destruct m1 as [|q|q]; [|cbn [Zdigits2] in *|lia].
      - rewrite Z.div_0_l in Hm'' by lia. lia.
      - pose proof (magnitude_le q M e1 E Hm1B) as Hq.
        unfold j in He''. revert He''. unfold fexp, emin. lia. }
    apply Z.leb_le in He. rewrite He. cbn. auto.
  - assert (0 <= m1 / 2 ^ j) by (apply Z.div_pos; lia). lia.
Qed.

Lemma binary_round_le (sx : bool) (mx : positive) (ex : Z)
    (M : positive) (E : Z) :
  E = fexp prec emax (Zpos (digits2_pos M) + E) ->
  Zpos (digits2_pos M) + E <= emax ->
  (F2R (Zpos mx) ex <= F2R (Zpos M) E)%R ->
  le_result sx (binary_round prec emax sx mx ex) (F2R (Zpos M) E).
Proof.
  intros HE HdB Hle. unfold binary_round.
  set (e0 := fexp prec emax (Zpos (digits2_pos mx) + ex)).
  pose proof (shl_align_spec mx ex e0) as [E1 E2].
  pose proof (shl_align_F2R mx ex e0) as E3.
  destruct (shl_align mx ex e0) as [mz ez]. cbn [fst snd] in *.
  assert (Hd : Zpos (digits2_pos mz) + ez = Zpos (digits2_pos mx) + ex).
  { rewrite (digits2_pos_shift mx mz (ex - ez)) by (trivial; lia). lia. }
  apply binary_round_aux_le; trivial.
  - rewrite Hd. fold e0. lia.
  - now rewrite E3.
Qed.

(** Rounding an integer multiple [n * 2^e] of a power of two, [0 <= n]. *)
Lemma binary_normalize_le (n e : Z) (M : positive) (E : Z) :
  E = fexp prec emax (Zpos (digits2_pos M) + E) ->
  Zpos (digits2_pos M) + E <= emax ->
  0 <= n ->
  (F2R n e <= F2R (Zpos M) E)%R ->
  le_result false (binary_normalize prec emax n e false) (F2R (Zpos M) E).
Proof.
  intros HE HdB Hn Hle. destruct n as [|p|p]; [reflexivity| |lia].
  now apply binary_round_le.
Qed.

End Rounding.

End RoundingFacts.

(** ** The angle of linear polarization in binary64 *)
Module AoLP64.
Import NumPy NumPyFacts Stokes Stokes64 StokesKernels RoundingFacts.

(** The closed form of the binary64 kernel on an image of shape
    [lead ++ [n]], [3 <= n]. *)
Lemma AoLP64_eq (atan2 : spec_float -> spec_float -> spec_float)
    (img : ndarray spec_float) (lead : list nat) (n : nat) :
  shape img = lead ++ [n] -> 3 <= n ->
  cvtStokesToAoLP64 atan2 img =
    Some (mk_ndarray (dtype_of img) lead
            (tabulate (npixels img)
               (fun p => np_mod64
                           (fmul lit_half
                              (atan2 (stokes_at fzero img p 2)
                                     (stokes_at fzero img p 1)))
                           pi64))).
Proof.
  intros Hs Hn. unfold cvtStokesToAoLP64.
  rewrite !(component_eq img lead n Hs) by lia.
  unfold scalar_mul_arr, ufunc1, ufunc2. cbn [data shape dtype_of].
  now fuse_tabulate.
Qed.

Section Modulus.
Variables (M : positive) (E : Z).
Hypothesis HE : E = fexp prec64 emax64 (Zpos (digits2_pos M) + E).
Hypothesis HdB : (Zpos (digits2_pos M) + E <= emax64)%Z.

Let b : spec_float := S754_finite false M E.

(** [fmod(a, b)] of a number [a] is a zero or a float of magnitude at most
    [b], with the sign of [a]. *)
Lemma SFfmod_le (a : spec_float) :
  nonfinite a = false ->
  exists s, le_result s (SFfmod a b) (F2R (Zpos M) E).
Proof.
  destruct a as [s| | |s m e]; try discriminate; intros _.
  - exists s. reflexivity.
  - exists s. unfold b, SFfmod.
    set (ez := Z.min e E).
    pose proof (shl_align_spec M E ez) as [_ B2].
    pose proof (shl_align_F2R M E ez) as B3.
    rewrite B2 in B3. replace (Z.min E ez) with ez in B3 by (unfold ez; lia).
    set (x := Zpos (fst (shl_align m e ez))).
    set (y := Zpos (fst (shl_align M E ez))) in *.
    assert (Hr : (0 <= x mod y < y)%Z) by (apply Z.mod_pos_bound; reflexivity).
    destruct (x mod y)%Z as [|r|r] eqn:Er; [|  |lia].
    + destruct s; reflexivity.
    + assert (Hle : (F2R (Zpos r) ez <= F2R (Zpos M) E)%R).
      { rewrite <- B3. apply F2R_le. lia. }
      destruct s; cbn [cond_Zopp Z.opp binary_normalize];
        apply binary_round_le; trivial; unfold emax64; lia.
Qed.

(** [np.mod(a, b)] of a number [a] is [+0.0] or a positive float that is
    at most [b]. *)
Lemma np_mod64_le (a : spec_float) :
  nonfinite a = false ->
  le_result false (np_mod64 a b) (F2R (Zpos M) E).
Proof.
  intros Ha. destruct (SFfmod_le a Ha) as [s Hres].
  unfold np_mod64. destruct (SFfmod a b) as [s'| | |s' m e];
    cbn [le_result] in Hres; try contradiction.
  - subst s'. destruct s; reflexivity.
  - destruct Hres as [-> Hle]. destruct s.
    + change (le_result false
                (SFadd prec64 emax64 (S754_finite true m e) b)
                (F2R (Zpos M) E)).
      unfold b. cbn [SFadd cond_Zopp].
      set (ez := Z.min e E).
      pose proof (shl_align_spec m e ez) as [_ A2].
      pose proof (shl_align_F2R m e ez) as A3.
      rewrite A2 in A3. replace (Z.min e ez) with ez in A3 by (unfold ez; lia).
      pose proof (shl_align_spec M E ez) as [_ B2].
      pose proof (shl_align_F2R M E ez) as B3.
      rewrite B2 in B3. replace (Z.min E ez) with ez in B3 by (unfold ez; lia).
      set (x := Zpos (fst (shl_align m e ez))) in *.
      set (y := Zpos (fst (shl_align M E ez))) in *.
      assert (Hxy : (x <= y)%Z).
      { apply (F2R_le_inv _ _ ez). now rewrite A3, B3. }
      apply binary_normalize_le; trivial; try (unfold emax64; lia).
      rewrite <- B3. apply F2R_le. unfold x. lia.
    + change (le_result false
                (SFadd prec64 emax64 (S754_finite false m e) (S754_zero false))
                (F2R (Zpos M) E)).
      cbn. auto.
Qed.

Lemma np_mod64_nan (a : spec_float) :
  nonfinite a = true -> np_mod64 a b = S754_nan.
Proof. destruct a as [| s | |]; try discriminate; reflexivity. Qed.

End Modulus.

Lemma le_result_value (v : spec_float) (B : R) :
  le_result false v B -> (0 <= B)%R ->
  nonfinite v = false /\ (0 <= SF2R v <= B)%R.
Proof.
  destruct v as [s| | |s m e]; cbn [le_result]; try contradiction.
  - intros _ HB. split; [reflexivity|]. cbn. lra.
  - intros [-> H] _. split; [reflexivity|]. cbn [SF2R cond_Zopp].
    assert (0 < F2R (Zpos m) e)%R.
    { unfold F2R. apply Rmult_lt_0_compat; [now apply IZR_lt | apply bpow_pos]. }
    lra.
Qed.

(** C8 (amended). AoLP range, as the program computes it, in binary64: on
    every Stokes image the kernel returns, with one value per pixel, the
    double [np.mod(0.5 * arctan2(S2, S1), np.pi)].  Wherever the half angle
    [0.5 * arctan2(S2, S1)] is a number, the value is a number of the
    closed range [[0, pi]]: it is not negative and it is at most the double
    [np.pi]; wherever the half angle is NaN or an infinity, the value is
    NaN.  (The bound [np.pi] is reached: see
    [aolp_reaches_pi_counterexample].  [atan2] is the C library's, any
    function of two doubles here.) *)
Theorem aolp_closed_range (atan2 : spec_float -> spec_float -> spec_float)
    (img : ndarray spec_float) :
  stokes_image 3 img ->
  exists AoLP,
    cvtStokesToAoLP64 atan2 img = Some AoLP /\
    length (data AoLP) = npixels img /\
    forall p, p < npixels img ->
      let half_angle :=
        fmul lit_half
          (atan2 (stokes_at fzero img p 2) (stokes_at fzero img p 1)) in
      let v := nth p (data AoLP) fzero in
      v = np_mod64 half_angle pi64 /\
      (nonfinite half_angle = true -> v = S754_nan) /\
      (nonfinite half_angle = false ->
       nonfinite v = false /\ (0 <= SF2R v <= SF2R pi64)%R).
Proof.
  intros (lead & n & Hs & Hn).
  rewrite (AoLP64_eq atan2 img lead n Hs Hn).
  eexists. split; [reflexivity|]. cbn [data]. split; [apply tabulate_length|].
  intros p Hp. cbn zeta. rewrite tabulate_nth by assumption.
  split; [reflexivity|]. split.
  - intros Hnf. now apply np_mod64_nan.
  - intros Hf. apply le_result_value.
    + apply np_mod64_le; [reflexivity | unfold emax64; cbn; lia | exact Hf].
    + unfold F2R. apply Rmult_le_pos; [now apply IZR_le | apply Rlt_le, bpow_pos].
Qed.

Lemma aolp_closed_range_witness :
  exists AoLP,
    cvtStokesToAoLP64 atan2_near_axis stokes_tiny_negative = Some AoLP /\
    length (data AoLP) = npixels stokes_tiny_negative /\
    forall p, p < npixels stokes_tiny_negative ->
      let half_angle :=
        fmul lit_half
          (atan2_near_axis (stokes_at fzero stokes_tiny_negative p 2)
                           (stokes_at fzero stokes_tiny_negative p 1)) in
      let v := nth p (data AoLP) fzero in
      v = np_mod64 half_angle pi64 /\
      (nonfinite half_angle = true -> v = S754_nan) /\
      (nonfinite half_angle = false ->
       nonfinite v = false /\ (0 <= SF2R v <= SF2R pi64)%R).
Proof.
  apply (aolp_closed_range atan2_near_axis stokes_tiny_negative).
  exists [1], 3. split; [reflexivity | lia].
Defined.

(** C8, as stated, fails in binary64: at the pixel (1.0, 1.0, -1e-300) the
    angle [0.5 * arctan2(S2, S1)] is -5e-301, its remainder is that same
    tiny negative number, and adding [np.pi] to it rounds to [np.pi]
    itself, so that the kernel returns pi, which is not below pi. *)
Lemma aolp_reaches_pi_counterexample :
  stokes_image 3 stokes_tiny_negative /\
  cvtStokesToAoLP64 atan2_near_axis stokes_tiny_negative
    = Some (mk_ndarray float64 [1] [pi64]) /\
  SFltb pi64 pi64 = false.
Proof.
  split; [exists [1], 3; split; [reflexivity | lia]|].
  split; [vm_compute; reflexivity | reflexivity].
Qed.

End AoLP64.

(** ** The Stokes fit *)
Module StokesFit.
Import NumPy NumPyFacts LinAlg LinAlgFacts Stokes.
Local Open Scope R_scope.

Lemma first_rows_eq M lead r c :
  shape M = lead ++ [r; c] -> (0 < r)%nat ->
  first_rows M =
    Some (mk_ndarray (dtype_of M) (lead ++ [c])
            (concat (map (firstn c) (chunks (r * c) (data M))))).
Proof.
  intros Hs Hr. unfold first_rows.
  rewrite Hs, rev_app_distr. simpl.
  apply Nat.ltb_lt in Hr. rewrite Hr. now rewrite rev_involutive.
Qed.

Lemma first_rows_uniform (l : list R) r c :
  (0 < r)%nat ->
  Forall (fun row => length row = c) (map (firstn c) (chunks (r * c) l)).
Proof.
  intros Hr. apply Forall_forall. intros row Hrow.
  apply in_map_iff in Hrow. destruct Hrow as [slab [<- Hslab]].
  pose proof (chunks_uniform (r * c) l) as U.
  rewrite Forall_forall in U. rewrite length_firstn, (U slab Hslab). nia.
Qed.

(** The rows of [M[..., 0, :]] are the first rows of the matrices of [M]. *)
Lemma first_rows_rows M lead r c A :
  shape M = lead ++ [r; c] -> (0 < r)%nat -> (0 < c)%nat ->
  first_rows M = Some A ->
  shape A = lead ++ [c] /\
  rows A = map (firstn c) (chunks (r * c) (data M)).
Proof.
  intros Hs Hr Hc HA. rewrite (first_rows_eq M lead r c Hs Hr) in HA.
  injection HA as <-. split; [reflexivity|].
  unfold rows. simpl. rewrite last_last.
  apply chunks_concat; [assumption|]. now apply first_rows_uniform.
Qed.

Lemma tensordot_eq P I c n lead :
  shape P = [c; n] -> shape I = lead ++ [n] ->
  tensordot_1_last P I =
    Some (mk_ndarray (dtype_of P) (c :: lead)
            (concat (map (fun row => map (dot row) (rows I)) (rows P)))).
Proof.
  intros HP HI. unfold tensordot_1_last.
  rewrite HP, HI, rev_app_distr. simpl.
  now rewrite Nat.eqb_refl, rev_involutive.
Qed.

(** [moveaxis(tensordot(P, I), 0, -1)], pixel by pixel, is [P] applied to the
    pixel's vector. *)
Lemma contraction_rows (P I : ndarray R) c n lead :
  shape P = [c; n] -> wf P -> shape I = lead ++ [n] -> wf I ->
  (0 < c)%nat -> (0 < n)%nat ->
  exists St,
    match tensordot_1_last P I with
    | Some T => moveaxis_0_last T
    | None => None
    end = Some St /\
    shape St = lead ++ [c] /\ wf St /\
    rows St = map (matvec (rows P)) (rows I).
Proof.
  intros HP WP HI WI Hc Hn.
  rewrite (tensordot_eq P I c n lead HP HI).
  unfold moveaxis_0_last. simpl shape. cbv iota.
  eexists. split; [reflexivity|].
  set (rI := rows I). set (rP := rows P).
  set (T := concat (map (fun row => map (dot row) rI) rP)).
  assert (LP : length rP = c).
  { unfold rP, rows. rewrite chunks_length, HP. simpl.
    unfold wf in WP. rewrite WP, HP. simpl.
    rewrite Nat.mul_1_r. apply Nat.div_mul. lia. }
  assert (LI : length rI = size lead).
  { unfold rI, rows. rewrite chunks_length, HI, last_last.
    unfold wf in WI. rewrite WI, HI, size_app. simpl.
    rewrite Nat.mul_1_r. apply Nat.div_mul. lia. }
  assert (UT : Forall (fun r => length r = size lead)
                 (map (fun row => map (dot row) rI) rP)).
  { apply Forall_forall. intros r Hr. apply in_map_iff in Hr.
    destruct Hr as [row [<- _]]. now rewrite length_map. }
  assert (LT : length T = (size lead * c)%nat).
  { unfold T. rewrite (length_concat_uniform _ _ UT), length_map, LP. lia. }
  simpl. rewrite LT. split; [reflexivity|]. split.
  { unfold wf. simpl. rewrite tabulate_length, size_app. simpl. lia. }
  unfold rows at 1. simpl. rewrite last_last.
  rewrite chunks_tabulate by assumption.
  apply nth_ext with (d := []) (d' := []).
  { now rewrite tabulate_length, length_map. }
  intros p Hp. rewrite tabulate_length in Hp.
  rewrite tabulate_nth by assumption.
  rewrite (nth_map_in _ _ _ [] []) by lia.
  unfold matvec. fold rP.
  apply nth_ext with (d := 0) (d' := 0).
  { now rewrite tabulate_length, length_map. }
  intros k Hk. rewrite tabulate_length in Hk.
  rewrite tabulate_nth by assumption.
  rewrite (nth_map_in _ _ _ [] 0) by lia.
  replace ((p * c + k) mod c)%nat with k.
  2:{ rewrite Nat.add_comm, Nat.Div0.mod_add. symmetry. now apply Nat.mod_small. }
  replace ((p * c + k) / c)%nat with p.
  2:{ rewrite Nat.add_comm, Nat.div_add by lia. rewrite Nat.div_small; lia. }
  rewrite Nat.div_mul by lia.
  unfold T. rewrite (nth_concat_uniform _ _ _ _ _ UT) by (rewrite ?length_map; lia).
  rewrite (nth_map_in _ _ _ [] []) by lia.
  now rewrite (nth_map_in _ _ _ [] 0) by lia.
Qed.

Lemma Forall2_map_r {A B} (P : A -> B -> Prop) (f : A -> B) l :
  (forall x, In x l -> P x (f x)) -> Forall2 P l (map f l).
Proof.
  induction l as [|a l IH]; intros H; simpl; constructor.
  - apply H. now left.
  - apply IH. intros x Hx. apply H. now right.
Qed.

(** The general fit, on a stack [M] of [N] matrices of [r] x [c] and an
    intensity image [I] with [N] acquisitions on its last axis: with
    [A = M[..., 0, :]] and [pinv A] its pseudo-inverse, the result exists, has
    the shape of [I] with [c] in place of [N], and each of its pixels is
    [pinv A] applied to the pixel of [I]. *)
Lemma calcStokes_rows (pinv : ndarray R -> ndarray R) (I M A : ndarray R)
      (N r c : nat) (lead : list nat) :
  (0 < c)%nat -> (0 < N)%nat ->
  first_rows M = Some A ->
  shape I = lead ++ [N] -> wf I ->
  shape (pinv A) = [c; N] -> wf (pinv A) ->
  exists St,
    calcStokes pinv I M = Some St /\
    shape St = lead ++ [c] /\ wf St /\
    rows St = map (matvec (rows (pinv A))) (rows I).
Proof.
  intros Hc HN HA HI WI HP WP. unfold calcStokes. rewrite HA.
  exact (contraction_rows (pinv A) I c N lead HP WP HI WI Hc HN).
Qed.

(** C2. [calcStokes] solves the least-squares problem pixel by pixel.  With
    [A = M[..., 0, :]] (row 0 of each of the [N] matrices of [M]) and
    [pinv A] its Moore-Penrose pseudo-inverse, [calcStokes I M] returns an
    image of the shape of [I] with the [c] Stokes components on the last
    axis; every pixel of it is the one matrix [pinv A] applied to that pixel's
    intensity vector; and that vector minimises [|A s - i|^2] over all [s]
    and has the least norm among the minimisers (exact real arithmetic). *)
Theorem calcStokes_least_squares
        (pinv : ndarray R -> ndarray R) (I M A : ndarray R)
        (N r c : nat) (lead : list nat) :
  shape M = [N; r; c] -> (0 < r)%nat -> (0 < c)%nat -> (0 < N)%nat ->
  shape I = lead ++ [N] -> wf I ->
  first_rows M = Some A ->
  shape (pinv A) = [c; N] -> wf (pinv A) ->
  is_pinv N c (rows A) (rows (pinv A)) ->
  exists St,
    calcStokes pinv I M = Some St /\
    shape St = lead ++ [c] /\ wf St /\
    rows A = map (firstn c) (chunks (r * c) (data M)) /\
    rows St = map (matvec (rows (pinv A))) (rows I) /\
    Forall2 (fun i s => least_squares c (rows A) i s /\
                        minimum_norm c (rows A) i s)
            (rows I) (rows St).
Proof.
  intros HM Hr Hc HN HI WI HA HP WP Hpinv.
  destruct (calcStokes_rows pinv I M A N r c lead Hc HN HA HI WI HP WP)
    as (St & E & Hs & Wf & Hrows).
  exists St.
  split; [exact E|]. split; [exact Hs|]. split; [exact Wf|].
  split; [|split; [exact Hrows|]].
  - change [N; r; c] with ([N] ++ [r; c]) in HM.
    apply (first_rows_rows M [N] r c A HM Hr Hc HA).
  - rewrite Hrows. apply Forall2_map_r. intros i Hi.
    assert (Li : length i = N).
    { pose proof (chunks_uniform (last (shape I) 0%nat) (data I)) as U.
      rewrite Forall_forall in U. unfold rows in Hi.
      rewrite (U i Hi), HI. apply last_last. }
    split.
    + now apply (pinv_least_squares N c).
    + now apply (pinv_minimum_norm N c).
Qed.

(** Closes goals that are equalities of real vectors or matrices whose
    entries are arithmetic expressions. *)
Ltac real_lists :=
  repeat match goal with
         | |- @eq (list _) (_ :: _) (_ :: _) => f_equal
         | |- @eq (list _) [] [] => reflexivity
         | |- @eq R _ _ => try field; try lra
         end.

Lemma pinv_mean_is_pinv :
  is_pinv 2 1 [[1]; [1]] [[/ 2; / 2]].
Proof.
  unfold is_pinv, is_matrix. cbn.
  repeat split; repeat constructor; real_lists.
Qed.

Lemma calcStokes_least_squares_witness :
  exists St,
    calcStokes pinv_mean intensity_1_3 mueller_ones = Some St /\
    shape St = ([1] ++ [1])%nat /\ wf St /\
    rows design_ones =
      map (firstn 1) (chunks (1 * 1)%nat (data mueller_ones)) /\
    rows St =
      map (matvec (rows (pinv_mean design_ones)))
          (rows intensity_1_3) /\
    Forall2 (fun i s =>
               least_squares 1 (rows design_ones) i s /\
               minimum_norm 1 (rows design_ones) i s)
            (rows intensity_1_3) (rows St).
Proof.
  apply (calcStokes_least_squares pinv_mean intensity_1_3 mueller_ones
           design_ones 2 1 1 [1%nat]);
    try reflexivity; try lia.
  exact pinv_mean_is_pinv.
Defined.

(** *** The linear fit on the four angles 0, 45, 90, 135 degrees *)

Lemma linear_design_eq k :
  linear_design k theta_0_45_90_135 = Some (design_0_45_90_135 k).
Proof. reflexivity. Qed.

Lemma trig_0 : cos (2 * 0) = 1 /\ sin (2 * 0) = 0.
Proof. rewrite Rmult_0_r. split; [apply cos_0 | apply sin_0]. Qed.

Lemma trig_45 : cos (2 * (PI / 4)) = 0 /\ sin (2 * (PI / 4)) = 1.
Proof.
  replace (2 * (PI / 4)) with (PI / 2) by lra.
  split; [apply cos_PI2 | apply sin_PI2].
Qed.

Lemma trig_90 : cos (2 * (PI / 2)) = -1 /\ sin (2 * (PI / 2)) = 0.
Proof.
  replace (2 * (PI / 2)) with PI by lra.
  split; [apply cos_PI | apply sin_PI].
Qed.

Lemma trig_135 : cos (2 * (3 * (PI / 4))) = 0 /\ sin (2 * (3 * (PI / 4))) = -1.
Proof.
  replace (2 * (3 * (PI / 4))) with (3 * (PI / 2)) by lra.
  split; [apply cos_3PI2 | apply sin_3PI2].
Qed.

Ltac trig_values :=
  rewrite ?(proj1 trig_0), ?(proj2 trig_0), ?(proj1 trig_45), ?(proj2 trig_45),
    ?(proj1 trig_90), ?(proj2 trig_90), ?(proj1 trig_135), ?(proj2 trig_135).

(** The design matrix is [k [[1, 1, 0], [1, 0, 1], [1, -1, 0], [1, 0, -1]]]. *)
Lemma design_rows k :
  rows (design_0_45_90_135 k) =
    [[k * 1; k * 1; k * 0]; [k * 1; k * 0; k * 1];
     [k * 1; k * -1; k * 0]; [k * 1; k * 0; k * -1]].
Proof.
  unfold rows, design_0_45_90_135. cbn. trig_values. reflexivity.
Qed.

Lemma pinv_linear_rows k A :
  rows (pinv_linear k A) =
    [[/ k * / 4; / k * / 4; / k * / 4; / k * / 4];
     [/ k * / 2; 0; - (/ k * / 2); 0];
     [0; / k * / 2; 0; - (/ k * / 2)]].
Proof. reflexivity. Qed.

(** [pinv_linear k] is the pseudo-inverse of the design matrix. *)
Lemma pinv_linear_is_pinv k A :
  k <> 0 ->
  is_pinv 4 3 (rows (design_0_45_90_135 k)) (rows (pinv_linear k A)).
Proof.
  intros Hk. rewrite design_rows, pinv_linear_rows.
  unfold is_pinv, is_matrix. cbn.
  repeat split; repeat constructor; real_lists.
Qed.

(** With a non-zero scale the design matrix is injective. *)
Lemma design_injective k z :
  k <> 0 -> length z = 3%nat ->
  Forall (fun a => a = 0) (matvec (rows (design_0_45_90_135 k)) z) ->
  Forall (fun a => a = 0) z.
Proof.
  intros Hk Hz. rewrite design_rows.
  destruct z as [|z0 [|z1 [|z2 [|]]]]; try discriminate.
  cbn. intros H.
  inversion H as [|? ? E0 H1]; subst. inversion H1 as [|? ? E1 H2]; subst.
  inversion H2 as [|? ? E2 H3]; subst. inversion H3 as [|? ? E3 _]; subst.
  assert (F0 : z0 + z1 = 0) by (apply (Rmult_eq_reg_l k); lra).
  assert (F1 : z0 + z2 = 0) by (apply (Rmult_eq_reg_l k); lra).
  assert (F2 : z0 - z1 = 0) by (apply (Rmult_eq_reg_l k); lra).
  repeat constructor; lra.
Qed.

Lemma rows_ufunc1 (f : R -> R) (a : ndarray R) :
  rows (ufunc1 f a) = map (map f) (rows a).
Proof. unfold rows, ufunc1. simpl. apply chunks_map. Qed.

(** The synthetic stack of a 3-component Stokes image, pixel by pixel. *)
Lemma synthetic_rows theta (St : ndarray R) lead :
  shape St = lead ++ [3%nat] -> (0 < length (data theta))%nat ->
  shape (synthetic_intensity theta St) = lead ++ [length (data theta)] /\
  rows (synthetic_intensity theta St) =
    map (fun s => map (fun t => nth 0 s 0 + nth 1 s 0 * cos (2 * t)
                                + nth 2 s 0 * sin (2 * t)) (data theta))
        (rows St).
Proof.
  intros Hs Ht. unfold synthetic_intensity. simpl.
  rewrite Hs, removelast_last. split; [reflexivity|].
  unfold rows at 1. simpl. rewrite last_last.
  apply chunks_concat; [assumption|].
  apply Forall_forall. intros r Hr. apply in_map_iff in Hr.
  destruct Hr as [s [<- _]]. apply length_map.
Qed.

Lemma rows_length (a : ndarray R) lead n :
  shape a = lead ++ [n] -> wf a -> (0 < n)%nat ->
  length (rows a) = size lead.
Proof.
  intros Hs W Hn. unfold rows. rewrite chunks_length, Hs, last_last.
  unfold wf in W. rewrite W, Hs, size_app. simpl.
  rewrite Nat.mul_1_r. apply Nat.div_mul. lia.
Qed.

Lemma rows_uniform (a : ndarray R) lead n :
  shape a = lead ++ [n] -> Forall (fun r => length r = n) (rows a).
Proof.
  intros Hs. unfold rows. rewrite Hs, last_last. apply chunks_uniform.
Qed.

Lemma concat_rows (a : ndarray R) lead n :
  shape a = lead ++ [n] -> wf a -> (0 < n)%nat -> concat (rows a) = data a.
Proof.
  intros Hs W Hn. unfold rows. rewrite Hs, last_last.
  apply (concat_chunks n (size lead)); [assumption|].
  unfold wf in W. rewrite W, Hs, size_app. simpl. lia.
Qed.

(** One pixel: the synthetic intensities of [s], scaled by [g], are the
    design matrix applied to [(g / k) s]. *)
Lemma synthetic_pixel k g s :
  k <> 0 -> length s = 3%nat ->
  map (Rmult g)
      (map (fun t => nth 0 s 0 + nth 1 s 0 * cos (2 * t) + nth 2 s 0 * sin (2 * t))
           (data theta_0_45_90_135)) =
    matvec (rows (design_0_45_90_135 k)) (vscale (g / k) s).
Proof.
  intros Hk Hs. rewrite design_rows.
  destruct s as [|s0 [|s1 [|s2 [|]]]]; try discriminate.
  cbn. trig_values. real_lists.
Qed.

(** The linear fit on a synthetic stack generated with gain [g], through a
    polarizer model of scale [k]: every Stokes vector comes back multiplied by
    [g / k]. *)
Lemma calcLinearStokes_synthetic (pinv : ndarray R -> ndarray R) (k g : R)
      (St : ndarray R) (lead : list nat) :
  k <> 0 -> shape St = lead ++ [3%nat] -> wf St ->
  shape (pinv (design_0_45_90_135 k)) = [3; 4]%nat ->
  wf (pinv (design_0_45_90_135 k)) ->
  is_pinv 4 3 (rows (design_0_45_90_135 k))
              (rows (pinv (design_0_45_90_135 k))) ->
  exists St',
    calcLinearStokes pinv k
      (scalar_mul_arr g (synthetic_intensity theta_0_45_90_135 St))
      theta_0_45_90_135 = Some St' /\
    shape St' = shape St /\ wf St' /\
    rows St' = map (vscale (g / k)) (rows St) /\
    data St' = map (Rmult (g / k)) (data St).
Proof.
  intros Hk Hs W HP WP Hpinv.
  set (I := scalar_mul_arr g (synthetic_intensity theta_0_45_90_135 St)).
  destruct (synthetic_rows theta_0_45_90_135 St lead Hs) as [HsI HrI];
    [simpl; lia|].
  assert (HI : shape I = lead ++ [4%nat]) by exact HsI.
  assert (RI : rows I =
               map (fun s => matvec (rows (design_0_45_90_135 k)) (vscale (g / k) s))
                   (rows St)).
  { unfold I, scalar_mul_arr. rewrite rows_ufunc1, HrI, map_map.
    apply map_ext_in. intros s Hin.
    apply synthetic_pixel; [assumption|].
    pose proof (rows_uniform St lead 3 Hs) as U.
    rewrite Forall_forall in U. now apply U. }
  assert (WI : wf I).
  { unfold wf. rewrite HI, size_app.
    unfold I, scalar_mul_arr, ufunc1, synthetic_intensity. simpl.
    rewrite length_map, (length_concat_uniform 4).
    - rewrite length_map, (rows_length St lead 3 Hs W) by lia. simpl. lia.
    - apply Forall_forall. intros r Hr. apply in_map_iff in Hr.
      destruct Hr as [s [<- _]]. reflexivity. }
  unfold calcLinearStokes.
  pose proof (linear_design_eq k) as L. unfold linear_design in L.
  destruct (slice_3_3 (polarizer k theta_0_45_90_135)) as [M|]; [|discriminate].
  destruct (calcStokes_rows pinv I M (design_0_45_90_135 k) 4 3 3 lead)
    as (St' & E & Hs' & W' & R'); try assumption; try lia.
  exists St'. split; [exact E|].
  assert (RR : rows St' = map (vscale (g / k)) (rows St)).
  { rewrite R', RI, map_map. apply map_ext_in. intros s Hin.
    apply (pinv_left_inverse 4 3 _ _ Hpinv).
    - unfold vscale. rewrite length_map.
      pose proof (rows_uniform St lead 3 Hs) as U.
      rewrite Forall_forall in U. now apply U.
    - intros z Hz. now apply design_injective. }
  split; [congruence|]. split; [exact W'|]. split; [exact RR|].
  rewrite <- (concat_rows St' lead 3 Hs' W') by lia.
  rewrite <- (concat_rows St lead 3 Hs W) by lia.
  rewrite RR. unfold vscale. now rewrite concat_map.
Qed.

Lemma scalar_mul_arr_one (a : ndarray R) : scalar_mul_arr 1 a = a.
Proof.
  destruct a as [dt sh l]. unfold scalar_mul_arr, ufunc1. simpl. f_equal.
  rewrite <- (map_id l) at 2. apply map_ext. intros x. lra.
Qed.

(** C4 (amended). Linear-fit consistency on the angles 0, 45, 90, 135
    degrees.  Let the polarizer model have first row
    [k [1, cos 2t, sin 2t]] with [k <> 0], and let [pinv] return the
    Moore-Penrose pseudo-inverse of the design matrix.  On the synthetic
    stack [I_j = S0 + S1 cos 2t_j + S2 sin 2t_j] of any Stokes image,
    [calcLinearStokes] returns the image [(S0, S1, S2) / k] of the same
    shape; so it returns [(S0, S1, S2)] itself when [k = 1], and on the
    stack generated through the model, [k I], for every [k]. *)
Theorem linear_fit_consistency (pinv : ndarray R -> ndarray R) (k : R)
        (St : ndarray R) (lead : list nat) :
  k <> 0 -> shape St = lead ++ [3%nat] -> wf St ->
  shape (pinv (design_0_45_90_135 k)) = [3; 4]%nat ->
  wf (pinv (design_0_45_90_135 k)) ->
  is_pinv 4 3 (rows (design_0_45_90_135 k))
              (rows (pinv (design_0_45_90_135 k))) ->
  (exists St',
     calcLinearStokes pinv k (synthetic_intensity theta_0_45_90_135 St)
       theta_0_45_90_135 = Some St' /\
     shape St' = shape St /\
     data St' = map (fun x => x / k) (data St) /\
     (k = 1 -> data St' = data St)) /\
  (exists St',
     calcLinearStokes pinv k
       (scalar_mul_arr k (synthetic_intensity theta_0_45_90_135 St))
       theta_0_45_90_135 = Some St' /\
     shape St' = shape St /\
     data St' = data St).
Proof.
  intros Hk Hs W HP WP Hpinv. split.
  - destruct (calcLinearStokes_synthetic pinv k 1 St lead Hk Hs W HP WP Hpinv)
      as (St' & E & Hs' & _ & _ & D).
    rewrite scalar_mul_arr_one in E. exists St'. split; [exact E|]. split; [exact Hs'|].
    split.
    + rewrite D. apply map_ext. intros x. field. exact Hk.
    + intros ->. rewrite D. rewrite <- (map_id (data St)) at 2.
      apply map_ext. intros x. field.
  - destruct (calcLinearStokes_synthetic pinv k k St lead Hk Hs W HP WP Hpinv)
      as (St' & E & Hs' & _ & _ & D).
    exists St'. split; [exact E|]. split; [exact Hs'|].
    rewrite D. rewrite <- (map_id (data St)) at 2.
    apply map_ext. intros x. field. exact Hk.
Qed.

Lemma linear_fit_consistency_witness :
  (exists St',
     calcLinearStokes (pinv_linear 1) 1
       (synthetic_intensity theta_0_45_90_135 stokes_1_0_0)
       theta_0_45_90_135 = Some St' /\
     shape St' = shape stokes_1_0_0 /\
     data St' = map (fun x => x / 1) (data stokes_1_0_0) /\
     (1 = 1 -> data St' = data stokes_1_0_0)) /\
  (exists St',
     calcLinearStokes (pinv_linear 1) 1
       (scalar_mul_arr 1 (synthetic_intensity theta_0_45_90_135 stokes_1_0_0))
       theta_0_45_90_135 = Some St' /\
     shape St' = shape stokes_1_0_0 /\
     data St' = data stokes_1_0_0).
Proof.
  apply (linear_fit_consistency (pinv_linear 1) 1 stokes_1_0_0 [1%nat]).
  - lra.
  - reflexivity.
  - reflexivity.
  - reflexivity.
  - reflexivity.
  - apply pinv_linear_is_pinv. lra.
Defined.

(** C4, the claim as stated, fails for a polarizer model of scale 1/2 (a
    scaling the spec allows): with [pinv_linear (1/2)], which is the
    pseudo-inverse of the design matrix, the synthetic stack of the Stokes
    vector (1, 0, 0) is fitted to (2, 0, 0). *)
Lemma linear_fit_scale_counterexample :
  is_pinv 4 3 (rows (design_0_45_90_135 (1 / 2)))
    (rows (pinv_linear (1 / 2) (design_0_45_90_135 (1 / 2)))) /\
  exists St',
    calcLinearStokes (pinv_linear (1 / 2)) (1 / 2)
      (synthetic_intensity theta_0_45_90_135 stokes_1_0_0)
      theta_0_45_90_135 = Some St' /\
    data St' = [2; 0; 0] /\
    data St' <> data stokes_1_0_0.
Proof.
  assert (Hk : 1 / 2 <> 0) by lra.
  pose proof (pinv_linear_is_pinv (1 / 2) (design_0_45_90_135 (1 / 2)) Hk) as P.
  split; [exact P|].
  destruct (calcLinearStokes_synthetic (pinv_linear (1 / 2)) (1 / 2) 1
              stokes_1_0_0 [1%nat] Hk eq_refl eq_refl eq_refl eq_refl P)
    as (St' & E & _ & _ & _ & D).
  rewrite scalar_mul_arr_one in E.
  exists St'. split; [exact E|].
  assert (D2 : data St' = [2; 0; 0]).
  { rewrite D. cbn. real_lists. }
  split; [exact D2|].
  rewrite D2. cbn. intros H. injection H as H. lra.
Qed.

End StokesFit.

(** ** More on the derived-quantity kernels *)
Module StokesKernelsMore.
Import NumPy NumPyFacts Stokes StokesKernels StokesSamples.

(** *** Closed forms of the remaining kernels *)
Section PointwiseMore.
Context {T : Type} {AT : Arith T}.
Variables (img : ndarray T) (lead : list nat) (n : nat).
Hypothesis Hshape : shape img = lead ++ [n].

Let s (k p : nat) : T := stokes_at fzero img p k.

Lemma Diffuse_eq :
  3 <= n ->
  cvtStokesToDiffuse img =
    Some (mk_ndarray (dtype_of img) lead
            (tabulate (npixels img)
               (fun p =>
                  fmul lit_one
                    (fmul (fsub (s 0 p)
                             (fsqrt (fadd (fmul (s 1 p) (s 1 p))
                                          (fmul (s 2 p) (s 2 p)))))
                          lit_half)))).
Proof.
  intros Hn. unfold cvtStokesToDiffuse.
  rewrite (Imin_eq img lead n Hshape Hn).
  unfold scalar_mul_arr, ufunc1. simpl. now fuse_tabulate.
Qed.

Lemma DoP_eq :
  4 <= n ->
  cvtStokesToDoP img =
    Some (mk_ndarray (dtype_of img) lead
            (tabulate (npixels img)
               (fun p =>
                  fdiv (fsqrt (fadd (fadd (fmul (s 1 p) (s 1 p))
                                          (fmul (s 2 p) (s 2 p)))
                                    (fmul (s 3 p) (s 3 p))))
                       (s 0 p)))).
Proof.
  intros Hn. unfold cvtStokesToDoP.
  rewrite !(component_eq img lead n Hshape) by lia.
  unfold arr_div, arr_add, arr_sqrt, arr_sq, ufunc1, ufunc2. simpl.
  now fuse_tabulate.
Qed.

End PointwiseMore.

Section PointwiseAngles.
Local Open Scope R_scope.
Variables (img : ndarray R) (lead : list nat) (n : nat).
Hypothesis Hshape : shape img = lead ++ [n].

Let s (k p : nat) : R := stokes_at 0 img p k.

Lemma AoLP_eq :
  (3 <= n)%nat ->
  cvtStokesToAoLP img =
    Some (mk_ndarray (dtype_of img) lead
            (tabulate (npixels img)
               (fun p => np_mod (0.5 * arctan2 (s 2 p) (s 1 p)) PI))).
Proof.
  intros Hn. unfold cvtStokesToAoLP.
  rewrite !(component_eq img lead n Hshape) by lia.
  unfold scalar_mul_arr, ufunc1, ufunc2. simpl. now fuse_tabulate.
Qed.

Lemma EllipticityAngle_eq :
  (4 <= n)%nat ->
  cvtStokesToEllipticityAngle img =
    Some (mk_ndarray (dtype_of img) lead
            (tabulate (npixels img)
               (fun p =>
                  0.5 * arctan2 (s 3 p)
                          (sqrt (s 1 p * s 1 p + s 2 p * s 2 p))))).
Proof.
  intros Hn. unfold cvtStokesToEllipticityAngle.
  rewrite !(component_eq img lead n Hshape) by lia.
  unfold scalar_mul_arr, arr_sqrt, arr_add, arr_sq, ufunc1, ufunc2. simpl.
  now fuse_tabulate.
Qed.

End PointwiseAngles.

(** *** The angle functions *)
Section Angles.
Local Open Scope R_scope.

(** [arctan2] lands in [(-pi, pi]]. *)
Lemma arctan2_range y x : - PI < arctan2 y x <= PI.
Proof.
  pose proof PI_RGT_0 as HPI.
  pose proof (atan_bound (y / x)) as [A1 A2].
  unfold arctan2.
  destruct (Rlt_dec 0 x); [lra|].
  destruct (Rlt_dec x 0).
  - destruct (Rle_dec 0 y) as [Hy|Hy].
    + assert (y / x <= 0).
      { unfold Rdiv. assert (/ x < 0) by now apply Rinv_lt_0_compat. nra. }
      assert (atan (y / x) <= 0).
      { destruct (Req_dec (y / x) 0) as [E|E].
        - rewrite E, atan_0. lra.
        - left. rewrite <- atan_0. apply atan_increasing. lra. }
      lra.
    + assert (0 < y / x).
      { unfold Rdiv. assert (/ x < 0) by now apply Rinv_lt_0_compat. nra. }
      assert (0 < atan (y / x)).
      { rewrite <- atan_0. now apply atan_increasing. }
      lra.
  - destruct (Rlt_dec 0 y); [lra|]. destruct (Rlt_dec y 0); lra.
Qed.

(** With a non-negative abscissa, [arctan2] lands in [[-pi/2, pi/2]]. *)
Lemma arctan2_right_half y x : 0 <= x -> - (PI / 2) <= arctan2 y x <= PI / 2.
Proof.
  intros Hx. pose proof PI_RGT_0 as HPI.
  pose proof (atan_bound (y / x)) as [A1 A2].
  unfold arctan2.
  destruct (Rlt_dec 0 x); [lra|].
  destruct (Rlt_dec x 0); [lra|].
  destruct (Rlt_dec 0 y); [lra|]. destruct (Rlt_dec y 0); lra.
Qed.

(** X1. Ellipticity range.  On every Stokes image with four components the
    kernel returns one value per pixel, and every value lies in
    [[-pi/4, pi/4]] (the range its docstring states). *)
Theorem ellipticity_range (img : ndarray R) :
  stokes_image 4 img ->
  exists E,
    cvtStokesToEllipticityAngle img = Some E /\
    length (data E) = npixels img /\
    Forall (fun x => - (PI / 4) <= x <= PI / 4) (data E).
Proof.
  intros (lead & n & Hs & Hn).
  rewrite (EllipticityAngle_eq img lead n Hs Hn).
  eexists. split; [reflexivity|]. simpl. split.
  - apply tabulate_length.
  - apply Forall_tabulate. intros p _.
    match goal with |- context [arctan2 ?y ?x] =>
      pose proof (arctan2_right_half y x (sqrt_pos _)) end.
    lra.
Qed.

Lemma stokes_four_components_image : stokes_image 4 stokes_four_components.
Proof. exists [1; 2]%nat, 4%nat. split; [reflexivity | lia]. Qed.

Lemma ellipticity_range_witness :
  exists E,
    cvtStokesToEllipticityAngle stokes_four_components = Some E /\
    length (data E) = npixels stokes_four_components /\
    Forall (fun x => - (PI / 4) <= x <= PI / 4) (data E).
Proof.
  apply (ellipticity_range stokes_four_components).
  exact stokes_four_components_image.
Defined.

End Angles.

(** *** Relations between the kernels, over the reals *)
Section Relations.
Local Open Scope R_scope.

(** X3. Diffuse and specular parts.  On every real Stokes image
    [cvtStokesToDiffuse] returns the same array as [cvtStokesToImin], and
    the diffuse and specular images add up to [cvtStokesToImax]. *)
Theorem diffuse_specular_decomposition (img : ndarray R) :
  stokes_image 3 img ->
  exists Imax Imin Diffuse Specular,
    cvtStokesToImax img = Some Imax /\
    cvtStokesToImin img = Some Imin /\
    cvtStokesToDiffuse img = Some Diffuse /\
    cvtStokesToSpecular img = Some Specular /\
    Diffuse = Imin /\
    arr_add Diffuse Specular = Imax.
Proof.
  intros (lead & n & Hs & Hn).
  rewrite (Imax_eq img lead n Hs Hn), (Imin_eq img lead n Hs Hn),
    (Diffuse_eq img lead n Hs Hn), (Specular_eq img lead n Hs Hn).
  do 4 eexists. repeat split; try reflexivity.
  - f_equal. apply tabulate_ext. intros p _. simpl. lra.
  - unfold arr_add, ufunc2. simpl. f_equal.
    rewrite map2_tabulate. apply tabulate_ext. intros p _. simpl. lra.
Qed.

Lemma diffuse_specular_decomposition_witness :
  exists Imax Imin Diffuse Specular,
    cvtStokesToImax stokes_two_pixels = Some Imax /\
    cvtStokesToImin stokes_two_pixels = Some Imin /\
    cvtStokesToDiffuse stokes_two_pixels = Some Diffuse /\
    cvtStokesToSpecular stokes_two_pixels = Some Specular /\
    Diffuse = Imin /\
    arr_add Diffuse Specular = Imax.
Proof.
  apply (diffuse_specular_decomposition stokes_two_pixels).
  exact stokes_two_pixels_image.
Defined.

(** X4. DoLP is the contrast of the extreme intensities.  On every real
    Stokes image, as arrays, [DoLP = (Imax - Imin) / (Imax + Imin)] and
    [DoLP = Specular / (2 Intensity)]. *)
Theorem dolp_contrast (img : ndarray R) :
  stokes_image 3 img ->
  exists Imax Imin DoLP Specular Intensity,
    cvtStokesToImax img = Some Imax /\
    cvtStokesToImin img = Some Imin /\
    cvtStokesToDoLP img = Some DoLP /\
    cvtStokesToSpecular img = Some Specular /\
    cvtStokesToIntensity img = Some Intensity /\
    DoLP = arr_div (arr_sub Imax Imin) (arr_add Imax Imin) /\
    DoLP = arr_div Specular (arr_mul_scalar Intensity 2).
Proof.
  intros (lead & n & Hs & Hn).
  rewrite (Imax_eq img lead n Hs Hn), (Imin_eq img lead n Hs Hn),
    (DoLP_eq img lead n Hs Hn), (Specular_eq img lead n Hs Hn),
    (Intensity_eq img lead n Hs Hn).
  do 5 eexists. repeat split; try reflexivity.
  - unfold arr_div, arr_sub, arr_add, ufunc2. simpl. f_equal.
    rewrite !map2_tabulate. apply tabulate_ext. intros p _. simpl.
    f_equal; lra.
  - unfold arr_div, arr_mul_scalar, ufunc1, ufunc2. simpl. f_equal.
    rewrite map_tabulate, map2_tabulate. apply tabulate_ext. intros p _.
    simpl. f_equal; lra.
Qed.

Lemma dolp_contrast_witness :
  exists Imax Imin DoLP Specular Intensity,
    cvtStokesToImax stokes_two_pixels = Some Imax /\
    cvtStokesToImin stokes_two_pixels = Some Imin /\
    cvtStokesToDoLP stokes_two_pixels = Some DoLP /\
    cvtStokesToSpecular stokes_two_pixels = Some Specular /\
    cvtStokesToIntensity stokes_two_pixels = Some Intensity /\
    DoLP = arr_div (arr_sub Imax Imin) (arr_add Imax Imin) /\
    DoLP = arr_div Specular (arr_mul_scalar Intensity 2).
Proof.
  apply (dolp_contrast stokes_two_pixels). exact stokes_two_pixels_image.
Defined.

(** X5. DoP dominates DoLP.  On a real Stokes image with four components
    whose [S0] is positive at every pixel, pixel by pixel
    [0 <= DoLP <= DoP]; and where [S3] is zero everywhere the two images are
    equal. *)
Theorem dop_dominates_dolp (img : ndarray R) :
  stokes_image 4 img ->
  (forall p, (p < npixels img)%nat -> 0 < stokes_at 0 img p 0) ->
  exists DoP DoLP,
    cvtStokesToDoP img = Some DoP /\
    cvtStokesToDoLP img = Some DoLP /\
    Forall (fun x => 0 <= x) (data DoLP) /\
    arr_le DoLP DoP /\
    ((forall p, (p < npixels img)%nat -> stokes_at 0 img p 3 = 0) ->
     DoP = DoLP).
Proof.
  intros (lead & n & Hs & Hn) Hpos.
  assert (Hn3 : (3 <= n)%nat) by lia.
  rewrite (DoP_eq img lead n Hs Hn), (DoLP_eq img lead n Hs Hn3).
  do 2 eexists. repeat split; try reflexivity; simpl.
  - apply Forall_tabulate. intros p Hp.
    apply Rmult_le_pos; [apply sqrt_pos|].
    left. apply Rinv_0_lt_compat. now apply Hpos.
  - apply Forall2_tabulate. intros p Hp.
    apply Rmult_le_compat_r.
    + left. apply Rinv_0_lt_compat. now apply Hpos.
    + apply sqrt_le_1_alt.
      pose proof (Rle_0_sqr (stokes_at 0 img p 3)) as H. unfold Rsqr in H. lra.
  - intros H3. f_equal. apply tabulate_ext. intros p Hp. simpl.
    rewrite (H3 p Hp). f_equal. f_equal. lra.
Qed.

Lemma dop_dominates_dolp_witness :
  exists DoP DoLP,
    cvtStokesToDoP stokes_four_components = Some DoP /\
    cvtStokesToDoLP stokes_four_components = Some DoLP /\
    Forall (fun x => 0 <= x) (data DoLP) /\
    arr_le DoLP DoP /\
    ((forall p, (p < npixels stokes_four_components)%nat ->
                stokes_at 0 stokes_four_components p 3 = 0) ->
     DoP = DoLP).
Proof.
  apply (dop_dominates_dolp stokes_four_components).
  - exact stokes_four_components_image.
  - intros p Hp. change (npixels stokes_four_components) with 2%nat in Hp.
    destruct p as [|[|p]]; [cbn; lra | cbn; lra | lia].
Defined.

End Relations.

(** *** Shapes *)
Section Shapes.
Context {T : Type} {AT : Arith T}.

Lemma npixels_size (img : ndarray T) lead n :
  shape img = lead ++ [n] -> wf img -> 0 < n -> npixels img = size lead.
Proof.
  intros Hs W Hn. unfold npixels. rewrite Hs, last_last.
  unfold wf in W. rewrite W, Hs, size_app. simpl.
  rewrite Nat.mul_1_r. apply Nat.div_mul. lia.
Qed.

(** X6. Kernels keep the leading axes.  On a well-formed image of shape
    [lead ++ [n]] with [n >= 3], each of Imax, Imin, DoLP, Intensity,
    Diffuse and Specular returns an array of shape [lead], with one value
    per pixel; with [n >= 4] so does DoP.  (Nothing is said of the dtype of
    the result, which numba promotes.) *)
Theorem kernels_keep_leading_axes (img : ndarray T) (lead : list nat) (n : nat) :
  shape img = lead ++ [n] -> wf img -> 3 <= n ->
  keeps_leading lead (cvtStokesToImax img) /\
  keeps_leading lead (cvtStokesToImin img) /\
  keeps_leading lead (cvtStokesToDoLP img) /\
  keeps_leading lead (cvtStokesToIntensity img) /\
  keeps_leading lead (cvtStokesToDiffuse img) /\
  keeps_leading lead (cvtStokesToSpecular img) /\
  (4 <= n -> keeps_leading lead (cvtStokesToDoP img)).
Proof.
  intros Hs W Hn.
  pose proof (npixels_size img lead n Hs W ltac:(lia)) as Np.
  rewrite (Imax_eq img lead n Hs Hn), (Imin_eq img lead n Hs Hn),
    (DoLP_eq img lead n Hs Hn), (Intensity_eq img lead n Hs Hn),
    (Diffuse_eq img lead n Hs Hn), (Specular_eq img lead n Hs Hn).
  repeat split;
    try (eexists; split; [reflexivity|]; repeat split;
         unfold wf; simpl; now rewrite tabulate_length).
  intros Hn4. rewrite (DoP_eq img lead n Hs Hn4).
  eexists. split; [reflexivity|]. repeat split.
  unfold wf. simpl. now rewrite tabulate_length.
Qed.

End Shapes.

Lemma kernels_keep_leading_axes_witness :
  keeps_leading [1; 2] (cvtStokesToImax stokes_four_components) /\
  keeps_leading [1; 2] (cvtStokesToImin stokes_four_components) /\
  keeps_leading [1; 2] (cvtStokesToDoLP stokes_four_components) /\
  keeps_leading [1; 2] (cvtStokesToIntensity stokes_four_components) /\
  keeps_leading [1; 2] (cvtStokesToDiffuse stokes_four_components) /\
  keeps_leading [1; 2] (cvtStokesToSpecular stokes_four_components) /\
  (4 <= 4 -> keeps_leading [1; 2] (cvtStokesToDoP stokes_four_components)).
Proof.
  apply (kernels_keep_leading_axes stokes_four_components [1; 2] 4);
    [reflexivity | reflexivity | lia].
Defined.

(** *** Rescaling the image, and the angle of polarized light *)
Section Scaling.
Local Open Scope R_scope.

Lemma arctan2_scale c y x : 0 < c -> arctan2 (c * y) (c * x) = arctan2 y x.
Proof.
  intros Hc. unfold arctan2.
  assert (E : x <> 0 -> c * y / (c * x) = y / x) by (intros; field; lra).
  destruct (Rlt_dec 0 x) as [Hx|Hx]; destruct (Rlt_dec 0 (c * x)) as [Hcx|Hcx];
    try (exfalso; nra); [rewrite E by lra; reflexivity|].
  destruct (Rlt_dec x 0) as [Hx'|Hx']; destruct (Rlt_dec (c * x) 0) as [Hcx'|Hcx'];
    try (exfalso; nra).
  - rewrite E by lra.
    destruct (Rle_dec 0 y); destruct (Rle_dec 0 (c * y));
      try reflexivity; exfalso; nra.
  - destruct (Rlt_dec 0 y); destruct (Rlt_dec 0 (c * y));
      try reflexivity; try (exfalso; nra).
    destruct (Rlt_dec y 0); destruct (Rlt_dec (c * y) 0);
      try reflexivity; exfalso; nra.
Qed.

Lemma sqrt_scale c a b :
  0 < c -> sqrt (c * a * (c * a) + c * b * (c * b)) = c * sqrt (a * a + b * b).
Proof.
  intros Hc.
  replace (c * a * (c * a) + c * b * (c * b)) with (c * c * (a * a + b * b))
    by ring.
  rewrite sqrt_mult; [| nra | nra]. rewrite sqrt_square by lra. reflexivity.
Qed.

Lemma stokes_at_scale c (img : ndarray R) p k :
  stokes_at 0 (scale_image c img) p k = c * stokes_at 0 img p k.
Proof.
  unfold stokes_at, scale_image, ufunc1. simpl.
  replace 0 with (c * 0) at 1 by ring. apply map_nth.
Qed.

Lemma npixels_scale c (img : ndarray R) :
  npixels (scale_image c img) = npixels img.
Proof. unfold npixels, scale_image, ufunc1. simpl. now rewrite length_map. Qed.

Lemma scale_image_mk c d sh (l : list R) :
  scale_image c (mk_ndarray d sh l) = mk_ndarray d sh (map (Rmult c) l).
Proof. reflexivity. Qed.

(** X7. Exposure.  Multiplying a real Stokes image by a factor [c > 0]
    leaves [cvtStokesToDoLP] and [cvtStokesToAoLP] unchanged, and multiplies
    the results of Imax, Imin, Intensity and Specular by [c]. *)
Theorem kernels_under_rescaling (c : R) (img : ndarray R) :
  0 < c -> stokes_image 3 img ->
  cvtStokesToDoLP (scale_image c img) = cvtStokesToDoLP img /\
  cvtStokesToAoLP (scale_image c img) = cvtStokesToAoLP img /\
  cvtStokesToImax (scale_image c img) =
    option_map (scale_image c) (cvtStokesToImax img) /\
  cvtStokesToImin (scale_image c img) =
    option_map (scale_image c) (cvtStokesToImin img) /\
  cvtStokesToIntensity (scale_image c img) =
    option_map (scale_image c) (cvtStokesToIntensity img) /\
  cvtStokesToSpecular (scale_image c img) =
    option_map (scale_image c) (cvtStokesToSpecular img).
Proof.
  intros Hc (lead & n & Hs & Hn).
  assert (Hs' : shape (scale_image c img) = lead ++ [n]) by exact Hs.
  rewrite (DoLP_eq _ lead n Hs' Hn), (DoLP_eq img lead n Hs Hn),
    (AoLP_eq _ lead n Hs' Hn), (AoLP_eq img lead n Hs Hn),
    (Imax_eq _ lead n Hs' Hn), (Imax_eq img lead n Hs Hn),
    (Imin_eq _ lead n Hs' Hn), (Imin_eq img lead n Hs Hn),
    (Intensity_eq _ lead n Hs' Hn), (Intensity_eq img lead n Hs Hn),
    (Specular_eq _ lead n Hs' Hn), (Specular_eq img lead n Hs Hn).
  rewrite !npixels_scale.
  unfold option_map. rewrite !scale_image_mk, !map_tabulate.
  change (dtype_of (scale_image c img)) with (dtype_of img).
  repeat split; f_equal; f_equal; apply tabulate_ext; intros p _;
    cbn [fzero fadd fsub fmul fdiv fsqrt lit_half Arith_R];
    rewrite ?stokes_at_scale, ?arctan2_scale, ?sqrt_scale by assumption;
    try reflexivity; try ring.
  (* DoLP *)
  unfold Rdiv. rewrite Rinv_mult.
  generalize (/ stokes_at 0 img p 0). intros u. field. lra.
Qed.

Lemma kernels_under_rescaling_witness :
  cvtStokesToDoLP (scale_image 2 stokes_two_pixels) =
    cvtStokesToDoLP stokes_two_pixels /\
  cvtStokesToAoLP (scale_image 2 stokes_two_pixels) =
    cvtStokesToAoLP stokes_two_pixels /\
  cvtStokesToImax (scale_image 2 stokes_two_pixels) =
    option_map (scale_image 2) (cvtStokesToImax stokes_two_pixels) /\
  cvtStokesToImin (scale_image 2 stokes_two_pixels) =
    option_map (scale_image 2) (cvtStokesToImin stokes_two_pixels) /\
  cvtStokesToIntensity (scale_image 2 stokes_two_pixels) =
    option_map (scale_image 2) (cvtStokesToIntensity stokes_two_pixels) /\
  cvtStokesToSpecular (scale_image 2 stokes_two_pixels) =
    option_map (scale_image 2) (cvtStokesToSpecular stokes_two_pixels).
Proof.
  apply (kernels_under_rescaling 2 stokes_two_pixels);
    [lra | exact stokes_two_pixels_image].
Defined.

(** [np.mod a b] is the representative of [a] in [[0, b)]. *)
Lemma np_mod_unique a b r k :
  0 < b -> 0 <= r < b -> a = r + IZR k * b -> np_mod a b = r.
Proof.
  intros Hb Hr ->. unfold np_mod.
  assert (E : (r + IZR k * b) / b = r / b + IZR k) by (field; lra).
  assert (Hq : 0 <= r / b < 1).
  { split.
    - apply Rmult_le_pos; [lra|]. left. now apply Rinv_0_lt_compat.
    - apply Rmult_lt_reg_r with b; [assumption|].
      unfold Rdiv. rewrite Rmult_assoc, Rinv_l by lra. lra. }
  rewrite <- (Int_part_spec ((r + IZR k * b) / b) k); [lra|].
  rewrite E. lra.
Qed.

Lemma polar_ratio rho s c : 0 < rho -> c <> 0 -> rho * s / (rho * c) = s / c.
Proof. intros. field. split; lra. Qed.

(** [arctan2] inverts the polar parametrisation on [(-pi, pi]]. *)
Lemma arctan2_polar rho theta :
  0 < rho -> - PI < theta <= PI ->
  arctan2 (rho * sin theta) (rho * cos theta) = theta.
Proof.
  intros Hrho [Hlo Hhi]. pose proof PI_RGT_0 as HPI. unfold arctan2.
  destruct (Rtotal_order theta (- (PI / 2))) as [H1|[H1|H1]].
  - (* third quadrant: theta + pi in (0, pi/2) *)
    set (t := theta + PI).
    assert (Ht : 0 < t < PI / 2) by (unfold t; lra).
    assert (Hc : 0 < cos t) by (apply cos_gt_0; lra).
    assert (Hs : 0 < sin t) by (apply sin_gt_0; lra).
    assert (Es : sin theta = - sin t) by (unfold t; rewrite neg_sin; lra).
    assert (Ec : cos theta = - cos t) by (unfold t; rewrite neg_cos; lra).
    rewrite Es, Ec.
    destruct (Rlt_dec 0 (rho * - cos t)); [exfalso; nra|].
    destruct (Rlt_dec (rho * - cos t) 0); [|exfalso; nra].
    destruct (Rle_dec 0 (rho * - sin t)); [exfalso; nra|].
    rewrite polar_ratio by lra.
    replace (- sin t / - cos t) with (tan t) by (unfold tan; field; lra).
    rewrite atan_tan by lra. unfold t. lra.
  - (* theta = -pi/2 *)
    subst theta. rewrite sin_neg, cos_neg, sin_PI2, cos_PI2.
    destruct (Rlt_dec 0 (rho * 0)); [exfalso; lra|].
    destruct (Rlt_dec (rho * 0) 0); [exfalso; lra|].
    destruct (Rlt_dec 0 (rho * - (1))); [exfalso; lra|].
    destruct (Rlt_dec (rho * - (1)) 0); [reflexivity|exfalso; lra].
  - destruct (Rtotal_order theta (PI / 2)) as [H2|[H2|H2]].
    + (* right half-plane *)
      assert (Hc : 0 < cos theta) by (apply cos_gt_0; lra).
      destruct (Rlt_dec 0 (rho * cos theta)); [|exfalso; nra].
      rewrite polar_ratio by lra.
      change (sin theta / cos theta) with (tan theta).
      apply atan_tan. lra.
    + (* theta = pi/2 *)
      subst theta. rewrite sin_PI2, cos_PI2.
      destruct (Rlt_dec 0 (rho * 0)); [exfalso; lra|].
      destruct (Rlt_dec (rho * 0) 0); [exfalso; lra|].
      destruct (Rlt_dec 0 (rho * 1)); [reflexivity|exfalso; lra].
    + (* second quadrant: theta - pi in (-pi/2, 0] *)
      set (t := theta - PI).
      assert (Ht : - (PI / 2) < t <= 0) by (unfold t; lra).
      assert (Hc : 0 < cos t) by (apply cos_gt_0; lra).
      assert (Hs : sin t <= 0).
      { destruct (Req_dec t 0) as [E|E]; [rewrite E, sin_0; lra|].
        left. rewrite <- (Ropp_involutive t), sin_neg.
        assert (0 < sin (- t)) by (apply sin_gt_0; lra). lra. }
      assert (Es : sin theta = - sin t).
      { replace theta with (t + PI) by (unfold t; ring). apply neg_sin. }
      assert (Ec : cos theta = - cos t).
      { replace theta with (t + PI) by (unfold t; ring). apply neg_cos. }
      rewrite Es, Ec.
      destruct (Rlt_dec 0 (rho * - cos t)); [exfalso; nra|].
      destruct (Rlt_dec (rho * - cos t) 0); [|exfalso; nra].
      destruct (Rle_dec 0 (rho * - sin t)); [|exfalso; nra].
      rewrite polar_ratio by lra.
      replace (- sin t / - cos t) with (tan t) by (unfold tan; field; lra).
      rewrite atan_tan by lra. unfold t. lra.
Qed.

(** X8. The angle of linearly polarized light.  At a pixel whose linear
    components are [S1 = rho cos(2 phi)] and [S2 = rho sin(2 phi)] with
    [rho > 0] and [0 <= phi < pi] (light polarized at angle [phi]),
    [cvtStokesToAoLP] returns exactly [phi]. *)
Theorem aolp_of_polarized_light (img : ndarray R) (p : nat) (rho phi : R) :
  stokes_image 3 img -> (p < npixels img)%nat ->
  0 < rho -> 0 <= phi < PI ->
  stokes_at 0 img p 1 = rho * cos (2 * phi) ->
  stokes_at 0 img p 2 = rho * sin (2 * phi) ->
  exists AoLP,
    cvtStokesToAoLP img = Some AoLP /\ nth p (data AoLP) 0 = phi.
Proof.
  intros (lead & n & Hs & Hn) Hp Hrho [H0 H1] E1 E2.
  pose proof PI_RGT_0 as HPI.
  rewrite (AoLP_eq img lead n Hs Hn).
  eexists. split; [reflexivity|]. simpl.
  rewrite tabulate_nth by assumption. rewrite E1, E2.
  destruct (Rle_dec (2 * phi) PI) as [Hle|Hgt].
  - rewrite arctan2_polar by lra.
    apply (np_mod_unique _ PI phi 0); simpl; lra.
  - set (t := 2 * phi - 2 * PI).
    assert (Es : sin (2 * phi) = sin t).
    { replace (2 * phi) with (t + PI + PI) by (unfold t; ring).
      rewrite !neg_sin. lra. }
    assert (Ec : cos (2 * phi) = cos t).
    { replace (2 * phi) with (t + PI + PI) by (unfold t; ring).
      rewrite !neg_cos. lra. }
    rewrite Es, Ec, arctan2_polar by (unfold t; lra).
    apply (np_mod_unique _ PI phi (-1)); unfold t; simpl; lra.
Qed.

Lemma aolp_of_polarized_light_witness :
  exists AoLP,
    cvtStokesToAoLP stokes_two_pixels = Some AoLP /\ nth 0 (data AoLP) 0 = 0.
Proof.
  apply (aolp_of_polarized_light stokes_two_pixels 0 1 0).
  - exact stokes_two_pixels_image.
  - change (npixels stokes_two_pixels) with 2%nat. lia.
  - lra.
  - pose proof PI_RGT_0. lra.
  - cbn. rewrite Rmult_0_r, cos_0. lra.
  - cbn. rewrite Rmult_0_r, sin_0. lra.
Defined.

End Scaling.

End StokesKernelsMore.

(** ** More on the Stokes fit *)
Module StokesFitMore.
Import NumPy NumPyFacts LinAlg LinAlgFacts Stokes StokesFit FitSamples.
Local Open Scope R_scope.

Lemma map2_nil_r {A B C} (f : A -> B -> C) l : map2 f l [] = [].
Proof. now destruct l. Qed.

Lemma firstn_map2 {A B C} (f : A -> B -> C) n l l' :
  firstn n (map2 f l l') = map2 f (firstn n l) (firstn n l').
Proof.
  revert l l'. induction n as [|n IH]; intros [|a l] [|b l']; simpl; auto.
  now rewrite IH.
Qed.

Lemma skipn_map2 {A B C} (f : A -> B -> C) n l l' :
  skipn n (map2 f l l') = map2 f (skipn n l) (skipn n l').
Proof.
  revert l l'. induction n as [|n IH]; intros [|a l] [|b l']; simpl; auto.
  now rewrite map2_nil_r.
Qed.

Lemma chunks_map2 {A B C} (f : A -> B -> C) n l l' :
  length l = length l' ->
  chunks n (map2 f l l') = map2 (map2 f) (chunks n l) (chunks n l').
Proof.
  intros E. unfold chunks.
  rewrite map2_length, <- E, Nat.min_id, map2_tabulate.
  apply tabulate_ext. intros p _. now rewrite skipn_map2, firstn_map2.
Qed.

Lemma rows_ufunc2 (f : R -> R -> R) (a b : ndarray R) :
  length (data a) = length (data b) ->
  rows (ufunc2 f a b) = map2 (map2 f) (rows a) (rows (mk_ndarray (dtype_of b) (shape a) (data b))).
Proof. intros E. unfold rows, ufunc2. simpl. now apply chunks_map2. Qed.

Lemma map2_map_l {A B C D} (f : B -> C -> D) (g : A -> B) l l' :
  map2 f (map g l) l' = map2 (fun x y => f (g x) y) l l'.
Proof. revert l'. induction l; intros [|b l']; simpl; congruence. Qed.

Lemma concat_map2_uniform {A} (f : A -> A -> A) n (ll ll' : list (list A)) :
  Forall (fun r => length r = n) ll -> Forall (fun r => length r = n) ll' ->
  concat (map2 (map2 f) ll ll') = map2 f (concat ll) (concat ll').
Proof.
  intros H. revert ll'. induction H as [|r ll Hr _ IH]; intros ll' H'.
  - reflexivity.
  - destruct H' as [|r' ll' Hr' H']; simpl.
    + clear. induction (r ++ concat ll); auto.
    + rewrite IH by assumption.
      clear IH. revert r' Hr Hr'. generalize (concat ll) (concat ll') n.
      induction r as [|a r IHr]; intros t t' m [|a' r'] Hr Hr'; simpl in *;
        try reflexivity; try (subst m; discriminate).
      f_equal. destruct m as [|m]; [discriminate|].
      apply (IHr t t' m); congruence.
Qed.

Lemma matvec_vscale B g x : matvec B (vscale g x) = vscale g (matvec B x).
Proof.
  unfold matvec. unfold vscale at 2. rewrite map_map. apply map_ext.
  intros row. rewrite dot_comm, dot_vscale_l, dot_comm. reflexivity.
Qed.

Lemma matvec_rows_vadd B n (r1 r2 : list (list R)) :
  Forall (fun row => length row = n) B ->
  Forall (fun r => length r = n) r1 -> Forall (fun r => length r = n) r2 ->
  map (matvec B) (map2 vadd r1 r2) =
    map2 vadd (map (matvec B) r1) (map (matvec B) r2).
Proof.
  intros HB H1. revert r2. induction H1 as [|x r1 Hx _ IH]; intros r2 H2.
  - reflexivity.
  - destruct H2 as [|y r2 Hy H2]; simpl; [reflexivity|].
    rewrite (matvec_vadd B x y n) by assumption. f_equal. now apply IH.
Qed.

(** X9. The fit is linear in the intensities.  For two intensity images of
    one shape (and any matrix that [pinv] returns of the fitting shape),
    [calcStokes] of their sum is the sum of their fits, and [calcStokes] of
    [g] times an image is [g] times its fit. *)
Theorem calcStokes_linear
        (pinv : ndarray R -> ndarray R) (I1 I2 M A : ndarray R)
        (N c : nat) (lead : list nat) (g : R) :
  (0 < c)%nat -> (0 < N)%nat ->
  first_rows M = Some A ->
  shape I1 = lead ++ [N] -> wf I1 -> shape I2 = lead ++ [N] -> wf I2 ->
  shape (pinv A) = [c; N]%nat -> wf (pinv A) ->
  exists S1 S2 S12 Sg,
    calcStokes pinv I1 M = Some S1 /\
    calcStokes pinv I2 M = Some S2 /\
    calcStokes pinv (arr_add I1 I2) M = Some S12 /\
    calcStokes pinv (scalar_mul_arr g I1) M = Some Sg /\
    shape S12 = shape S1 /\ data S12 = map2 Rplus (data S1) (data S2) /\
    shape Sg = shape S1 /\ data Sg = map (Rmult g) (data S1).
Proof.
  intros Hc HN HA Hs1 W1 Hs2 W2 HP WP.
  assert (L12 : length (data I1) = length (data I2)).
  { unfold wf in W1, W2. now rewrite W1, W2, Hs1, Hs2. }
  assert (Hs12 : shape (arr_add I1 I2) = lead ++ [N]) by exact Hs1.
  assert (W12 : wf (arr_add I1 I2)).
  { unfold wf, arr_add, ufunc2. simpl.
    rewrite map2_length, <- L12, Nat.min_id. exact W1. }
  assert (Hsg : shape (scalar_mul_arr g I1) = lead ++ [N]) by exact Hs1.
  assert (Wg : wf (scalar_mul_arr g I1)).
  { unfold wf, scalar_mul_arr, ufunc1. simpl. rewrite length_map. exact W1. }
  destruct (calcStokes_rows pinv I1 M A N 0 c lead Hc HN HA Hs1 W1 HP WP)
    as (S1 & E1 & Sh1 & Wf1 & R1).
  destruct (calcStokes_rows pinv I2 M A N 0 c lead Hc HN HA Hs2 W2 HP WP)
    as (S2 & E2 & Sh2 & Wf2 & R2).
  destruct (calcStokes_rows pinv _ M A N 0 c lead Hc HN HA Hs12 W12 HP WP)
    as (S12 & E12 & Sh12 & Wf12 & R12).
  destruct (calcStokes_rows pinv _ M A N 0 c lead Hc HN HA Hsg Wg HP WP)
    as (Sg & Eg & Shg & Wfg & Rg).
  exists S1, S2, S12, Sg.
  repeat (split; [assumption|]).
  assert (UB : Forall (fun row => length row = N) (rows (pinv A))).
  { apply (rows_uniform (pinv A) [c] N). exact HP. }
  split; [congruence|]. split; [|split; [congruence|]].
  - rewrite <- (concat_rows S12 lead c Sh12 Wf12),
      <- (concat_rows S1 lead c Sh1 Wf1), <- (concat_rows S2 lead c Sh2 Wf2)
      by assumption.
    rewrite R12, R1, R2.
    unfold arr_add. rewrite (rows_ufunc2 _ I1 I2 L12).
    replace (rows (mk_ndarray (dtype_of I2) (shape I1) (data I2)))
      with (rows I2) by (unfold rows; simpl; now rewrite Hs1, Hs2).
    change (map2 (map2 fadd)) with (map2 vadd).
    rewrite (matvec_rows_vadd _ N) by
      (try assumption; eapply rows_uniform; eassumption).
    apply (concat_map2_uniform Rplus (length (rows (pinv A))));
      apply Forall_forall; intros r Hr; apply in_map_iff in Hr;
      destruct Hr as [x [<- _]]; apply matvec_length.
  - rewrite <- (concat_rows Sg lead c Shg Wfg),
      <- (concat_rows S1 lead c Sh1 Wf1) by assumption.
    rewrite Rg, R1. unfold scalar_mul_arr. rewrite rows_ufunc1.
    rewrite !map_map, concat_map, map_map. f_equal.
    apply map_ext. intros x. apply matvec_vscale.
Qed.

Lemma calcStokes_linear_witness :
  exists S1 S2 S12 Sg,
    calcStokes pinv_mean intensity_1_3 mueller_ones = Some S1 /\
    calcStokes pinv_mean intensity_5_7 mueller_ones = Some S2 /\
    calcStokes pinv_mean (arr_add intensity_1_3 intensity_5_7) mueller_ones
      = Some S12 /\
    calcStokes pinv_mean (scalar_mul_arr 3 intensity_1_3) mueller_ones
      = Some Sg /\
    shape S12 = shape S1 /\ data S12 = map2 Rplus (data S1) (data S2) /\
    shape Sg = shape S1 /\ data Sg = map (Rmult 3) (data S1).
Proof.
  apply (calcStokes_linear pinv_mean intensity_1_3 intensity_5_7 mueller_ones
           design_ones 2 1 [1%nat] 3); try reflexivity; lia.
Defined.

(** X10. The fit inverts the observation.  Let [A = M[..., 0, :]] have
    linearly independent columns and let [pinv A] be its pseudo-inverse.  If
    every pixel's intensity vector is [A s] for the pixel [s] of a Stokes
    image, [calcStokes] returns that Stokes image: same shape, same values
    (exact real arithmetic). *)
Theorem calcStokes_recovers
        (pinv : ndarray R -> ndarray R) (M A St : ndarray R)
        (N r c : nat) (lead : list nat) :
  shape M = [N; r; c]%nat -> (0 < r)%nat -> (0 < c)%nat -> (0 < N)%nat ->
  first_rows M = Some A ->
  shape St = lead ++ [c] -> wf St ->
  shape (pinv A) = [c; N]%nat -> wf (pinv A) ->
  is_pinv N c (rows A) (rows (pinv A)) ->
  independent_columns c (rows A) ->
  exists St',
    calcStokes pinv (observe A St) M = Some St' /\
    shape St' = shape St /\ data St' = data St.
Proof.
  intros HM Hr Hc HN HA Hs W HP WP Hpinv Hind.
  assert (LA : length (rows A) = N) by apply Hpinv.
  assert (RO : rows (observe A St) = map (matvec (rows A)) (rows St)).
  { unfold observe, rows at 1. simpl. rewrite last_last, LA.
    apply chunks_concat; [assumption|].
    apply Forall_forall. intros x Hx. apply in_map_iff in Hx.
    destruct Hx as [s0 [<- _]]. now rewrite matvec_length. }
  assert (HsO : shape (observe A St) = lead ++ [N]).
  { unfold observe. simpl. now rewrite Hs, removelast_last, LA. }
  assert (WO : wf (observe A St)).
  { unfold wf. rewrite HsO, size_app. unfold observe. simpl.
    rewrite (length_concat_uniform N).
    - rewrite length_map, (rows_length St lead c Hs W Hc). lia.
    - apply Forall_forall. intros x Hx. apply in_map_iff in Hx.
      destruct Hx as [s0 [<- _]]. now rewrite matvec_length. }
  destruct (calcStokes_rows pinv _ M A N r c lead Hc HN HA HsO WO HP WP)
    as (St' & E & Sh' & Wf' & R').
  exists St'. split; [exact E|]. split; [congruence|].
  rewrite <- (concat_rows St' lead c Sh' Wf' Hc),
    <- (concat_rows St lead c Hs W Hc).
  f_equal. rewrite R', RO, map_map.
  rewrite <- (map_id (rows St)) at 2. apply map_ext_in. intros s0 Hin.
  apply (pinv_left_inverse N c _ _ Hpinv); [|exact Hind].
  pose proof (rows_uniform St lead c Hs) as U.
  rewrite Forall_forall in U. now apply U.
Qed.

Lemma design_ones_independent : independent_columns 1 (rows design_ones).
Proof.
  intros z Hz. destruct z as [|z0 [|]]; try discriminate.
  cbn. intros H. inversion H as [|? ? E _]; subst.
  repeat constructor. lra.
Qed.

Lemma calcStokes_recovers_witness :
  exists St',
    calcStokes pinv_mean (observe design_ones stokes_scalar_4) mueller_ones
      = Some St' /\
    shape St' = shape stokes_scalar_4 /\ data St' = data stokes_scalar_4.
Proof.
  apply (calcStokes_recovers pinv_mean mueller_ones design_ones
           stokes_scalar_4 2 1 1 [1%nat]); try reflexivity; try lia.
  - exact pinv_mean_is_pinv.
  - exact design_ones_independent.
Defined.

(** X11. The number of acquisitions.  With the pseudo-inverse having one
    column per Mueller matrix ([N] of them), [calcStokes] returns an image
    exactly when the intensity image has a last axis and that axis has
    length [N]; otherwise it fails (numpy's shape-mismatch error) instead of
    returning anything. *)
Theorem calcStokes_acquisitions
        (pinv : ndarray R -> ndarray R) (I M A : ndarray R) (N c : nat) :
  first_rows M = Some A ->
  shape (pinv A) = [c; N]%nat ->
  (calcStokes pinv I M <> None <-> exists lead, shape I = lead ++ [N]).
Proof.
  intros HA HP. unfold calcStokes, tensordot_1_last. rewrite HA, HP.
  destruct (rev (shape I)) as [|n' lead'] eqn:E.
  - split; [intros H; now destruct H|].
    intros (lead & Hs). rewrite Hs, rev_app_distr in E. discriminate.
  - assert (Hs : shape I = rev lead' ++ [n']).
    { rewrite <- (rev_involutive (shape I)), E. reflexivity. }
    destruct (Nat.eqb_spec N n') as [<-|Hne].
    + split; [intros _; now exists (rev lead')|].
      intros _. unfold moveaxis_0_last. simpl. discriminate.
    + split; [intros H; now destruct H|].
      intros (lead & Hs'). rewrite Hs' in Hs.
      apply app_inj_tail in Hs. destruct Hs as [_ Hn]. congruence.
Qed.

Lemma calcStokes_acquisitions_witness :
  calcStokes pinv_mean intensity_1_3 mueller_ones <> None <->
  exists lead, shape intensity_1_3 = lead ++ [2%nat].
Proof.
  apply (calcStokes_acquisitions pinv_mean intensity_1_3 mueller_ones
           design_ones 2 1); reflexivity.
Defined.

End StokesFitMore.



(** ** The colour map of the angle image *)
Module ColorMapSpec.
Import NumPy NumPyFacts Py Cv2 Demosaicing MonadFacts ImageFacts ImageIndex ColorMap.

Section Hue.
Local Open Scope R_scope.

Lemma Rtrunc_bounds x n :
  0 <= x -> x < IZR n + 1 -> (0 <= Rtrunc x <= n)%Z.
Proof.
  intros H0 H1. unfold Rtrunc. destruct (Rle_dec 0 x); [|lra].
  destruct (base_Int_part x) as [B1 B2]. split.
  - assert (IZR (Int_part x) > -1) by lra.
    assert (-1 < Int_part x)%Z by (apply lt_IZR; simpl; lra).
    lia.
  - assert (IZR (Int_part x) < IZR n + 1) by lra.
    rewrite <- plus_IZR in H. apply lt_IZR in H. lia.
Qed.

(** The hue of any angle is an integer from 0 to 178. *)
Lemma hue_bounds x :
  (0 <= Rtrunc (Stokes.np_mod x PI / PI * 179) mod 256 <= 178)%Z.
Proof.
  pose proof PI_RGT_0 as HPI.
  destruct (StokesKernels.np_mod_range x PI HPI) as [M0 M1].
  assert (Q0 : 0 <= Stokes.np_mod x PI / PI * 179).
  { apply Rmult_le_pos; [|lra]. apply Rmult_le_pos; [lra|].
    left. now apply Rinv_0_lt_compat. }
  assert (Q1 : Stokes.np_mod x PI / PI * 179 < 179).
  { assert (Stokes.np_mod x PI / PI < 1).
    { apply Rmult_lt_reg_r with PI; [assumption|].
      unfold Rdiv. rewrite Rmult_assoc, Rinv_l by lra. lra. }
    lra. }
  destruct (Rtrunc_bounds _ 178 Q0) as [T0 T1]; [simpl; lra|].
  rewrite Z.mod_small; lia.
Qed.

Lemma byte_bounds x :
  (0 <= Rtrunc (Rmin (Rmax x 0) 255) mod 256 <= 255)%Z.
Proof.
  assert (0 <= Rmin (Rmax x 0) 255 <= 255).
  { split.
    - apply Rmin_glb; [apply Rmax_r | lra].
    - apply Rmin_r. }
  destruct (Rtrunc_bounds _ 255 (proj1 H)) as [T0 T1]; [simpl; lra|].
  rewrite Z.mod_small; lia.
Qed.

End Hue.

Lemma inject_Z_range (z lo hi : Z) :
  (lo <= z <= hi)%Z -> (inject_Z lo <= inject_Z z <= inject_Z hi)%Q.
Proof. intros [H0 H1]. split; now rewrite <- Zle_Qle. Qed.

Lemma Rtrunc_IZR (z : Z) : (0 <= z)%Z -> Rtrunc (IZR z) = z.
Proof.
  intros Hz. unfold Rtrunc.
  destruct (Rle_dec 0 (IZR z)) as [_|N]; [|exfalso; apply N; now apply IZR_le].
  symmetry. apply Int_part_spec. lra.
Qed.

Lemma np_mod_period (x : R) : Stokes.np_mod (x + PI) PI = Stokes.np_mod x PI.
Proof.
  pose proof PI_RGT_0 as HPI.
  apply (StokesKernelsMore.np_mod_unique _ PI _ (Int_part (x / PI) + 1)).
  - exact HPI.
  - now apply StokesKernels.np_mod_range.
  - unfold Stokes.np_mod. rewrite plus_IZR. simpl. lra.
Qed.

(** X12. The colour map, for float [saturation] and [value], over exact
    real arithmetic.  On a well-formed 2-D angle image, when cv2 knows
    [COLOR_HSV2BGR], [applyColorToAoLP] makes exactly one [cv2.cvtColor]
    call, on an HSV image that is [uint8] of shape [(h, w, 3)], with every
    sample in the byte range and every hue between 0 and 179, the range the
    code's comment gives (in exact arithmetic 179 itself is not reached; on
    doubles it is, when [np.mod] returns pi); a saturation (or value) of
    1.0 or more gives the byte 255 at every pixel, one of 0.0 or less the
    byte 0.  What the function returns is what that call returns. *)
Theorem colormap_hsv_image
        (cv : cv2) (img : ndarray R) (s v : R) (h w : nat) (code : Z) :
  shape img = [h; w] -> wf img -> getattr cv "COLOR_HSV2BGR" = Some code ->
  applyColorToAoLP cv img (Scalar s) (Scalar v)
    = cv2_cvtColor cv (hsv_of img s v) code /\
  good uint8 [h; w; 3] (hsv_of img s v) /\
  (forall r c, (0 <= get3 (hsv_of img s v) r c 0 <= 179)%Q) /\
  (forall r c, r < h -> c < w ->
     ((1 <= s)%R -> get3 (hsv_of img s v) r c 1 = 255%Q) /\
     ((s <= 0)%R -> get3 (hsv_of img s v) r c 1 = 0%Q) /\
     ((1 <= v)%R -> get3 (hsv_of img s v) r c 2 = 255%Q) /\
     ((v <= 0)%R -> get3 (hsv_of img s v) r c 2 = 0%Q)).
Proof.
  intros Hs Hwf Hget.
  assert (Hlen : length (data img) = h * w).
  { unfold wf in Hwf. rewrite Hs in Hwf. simpl in Hwf. lia. }
  assert (Ehsv : hsv_of img s v = build3 uint8 h w 3
            (fun r col k =>
               match k with
               | 0 => inject_Z
                        (Rtrunc (Stokes.np_mod (nth (r * w + col) (data img) 0%R) PI
                                 / PI * 179) mod 256)
               | 1 => inject_Z (Rtrunc (Rmin (Rmax (1 * s * 255) 0) 255) mod 256)
               | _ => inject_Z (Rtrunc (Rmin (Rmax (1 * v * 255) 0) 255) mod 256)
               end)).
  { unfold hsv_of. now rewrite Hs. }
  split; [|split; [|split]].
  - unfold applyColorToAoLP, to_byte_plane, times. rewrite !bind_ret_l.
    unfold cv2_merge3. cbn [astype_uint8 ufunc1 np_clip_R np_ones_like shape dtype_of].
    rewrite Hs, !shape_eqb_refl. cbn [andb]. rewrite bind_ret_l.
    unfold cv2_getattr. rewrite Hget, bind_ret_l. f_equal.
    rewrite Ehsv. apply build3_ext. intros r c k Hr Hc Hk.
    assert (Hp : r * w + c < length (data img)) by (rewrite Hlen; nia).
    unfold get2, astype_uint8, np_clip_R, ufunc1, np_ones_like.
    cbn [shape data dtype_of]. rewrite ?Hs.
    destruct k as [|[|k]].
    + rewrite ?map_map. now rewrite (nth_map_in _ _ _ 0%R).
    + rewrite ?map_map. now rewrite (nth_map_in _ _ _ 0%R).
    + rewrite ?map_map. now rewrite (nth_map_in _ _ _ 0%R).
  - rewrite Ehsv. apply build3_good. intros r c k.
    destruct k as [|[|k]]; cbn [in_range];
      first [ apply (inject_Z_range _ 0 255);
              pose proof (hue_bounds (nth (r * w + c) (data img) 0%R)); lia
            | apply (inject_Z_range _ 0 255); apply byte_bounds ].
  - intros r c. rewrite Ehsv. unfold get3, build3. cbn [shape data].
    destruct (Nat.lt_ge_cases ((r * w + c) * 3 + 0) (h * w * 3)) as [Hp|Hp].
    + rewrite tabulate_nth by assumption.
      replace (((r * w + c) * 3 + 0) mod 3) with 0
        by (rewrite Nat.add_0_r, Nat.Div0.mod_mul; reflexivity).
      apply (inject_Z_range _ 0 179).
      pose proof (hue_bounds (nth (((r * w + c) * 3 + 0) / (w * 3) * w
                                   + ((r * w + c) * 3 + 0) / 3 mod w)
                                  (data img) 0%R)).
      lia.
    + rewrite nth_overflow by (rewrite tabulate_length; assumption).
      split; discriminate.
  - intros r c Hr Hc. rewrite Ehsv.
    rewrite !get3_build3 by (assumption || lia).
    repeat split; intros Hb.
    + replace (Rmin (Rmax (1 * s * 255) 0) 255) with (IZR 255).
      { now rewrite Rtrunc_IZR. }
      rewrite Rmax_left by lra. rewrite Rmin_right by lra. reflexivity.
    + replace (Rmin (Rmax (1 * s * 255) 0) 255) with (IZR 0).
      { now rewrite Rtrunc_IZR. }
      rewrite Rmax_right by lra. rewrite Rmin_left by lra. reflexivity.
    + replace (Rmin (Rmax (1 * v * 255) 0) 255) with (IZR 255).
      { now rewrite Rtrunc_IZR. }
      rewrite Rmax_left by lra. rewrite Rmin_right by lra. reflexivity.
    + replace (Rmin (Rmax (1 * v * 255) 0) 255) with (IZR 0).
      { now rewrite Rtrunc_IZR. }
      rewrite Rmax_right by lra. rewrite Rmin_left by lra. reflexivity.
Qed.

Lemma colormap_hsv_image_witness :
  applyColorToAoLP cv2_identity aolp_two_pixels (Scalar 1) (Scalar 1)
    = cv2_cvtColor cv2_identity (hsv_of aolp_two_pixels 1 1) 54 /\
  get3 (hsv_of aolp_two_pixels 1 1) 0 1 1 = 255%Q.
Proof.
  destruct (colormap_hsv_image cv2_identity aolp_two_pixels 1 1 1 2 54
              eq_refl eq_refl eq_refl) as (E & _ & _ & Hsat).
  split; [exact E|].
  apply (Hsat 0 1); [lia | lia | lra].
Defined.

(** X13. The colour map has period pi: adding pi to every angle of the
    image changes nothing of what [applyColorToAoLP] does, whatever the
    saturation and the value (floats or arrays). *)
Theorem colormap_period (cv : cv2) (img : ndarray R) (s v : scalar_or_array) :
  applyColorToAoLP cv (ufunc1 (fun x => (x + PI)%R) img) s v
    = applyColorToAoLP cv img s v.
Proof.
  unfold applyColorToAoLP.
  assert (E1 : np_ones_like (ufunc1 (fun x => (x + PI)%R) img) = np_ones_like img).
  { unfold np_ones_like, ufunc1. cbn [dtype_of shape data]. now rewrite map_map. }
  assert (E2 : astype_uint8
                 (ufunc1 (fun x => (Stokes.np_mod x PI / PI * 179)%R)
                         (ufunc1 (fun x => (x + PI)%R) img))
               = astype_uint8
                   (ufunc1 (fun x => (Stokes.np_mod x PI / PI * 179)%R) img)).
  { unfold astype_uint8, ufunc1. cbn [dtype_of shape data]. f_equal.
    rewrite !map_map. apply map_ext. intros x. now rewrite np_mod_period. }
  now rewrite E1, E2.
Qed.

End ColorMapSpec.

(** ** The colour path of the demosaicing *)
Module ColorPathSpec.
Import NumPy NumPyFacts Py Cv2 Demosaicing MonadFacts ImageFacts ImageIndex.
Import ColorPath DemosaicingRuns.

Section WithCv2.
Variable cv : cv2.
Hypothesis Hcv : debayer_contract cv.

(** X14. The colour path.  On every good 2-D [uint8] or [uint16] frame
    and a colour descriptor of a known variant, [demosaicing] performs
    exactly ten [cv2.cvtColor] passes.  The first four debayer, with the
    BG code, the four sub-mosaics [img[j::2, i::2]] in the order (0, 0),
    (0, 1), (1, 0), (1, 1); interleaved, their results form a BGR image in
    which every entry of the [np.empty] buffer has been overwritten.  The
    other six debayer each colour plane of that image with the BG and the
    GR code, as the monochrome path does.  Colour channel [k] of the
    images for 0 and 90 degrees is channel 0 and 2 of the BG pass on
    plane [k], that of the images for 45 and 135 degrees channel 0 and 2
    of the GR pass. *)
Theorem color_ten_debayer_passes
        (c : ColorConversionCode) (img : image) (d : dtype) (h w : nat) :
  is_color c = true -> In (suffix c) known_suffixes ->
  is_u8_u16 d = true -> good d [h; w] img ->
  exists code_bg code_gr,
    getattr cv ("COLOR_BayerBG2BGR" ++ suffix c)%string = Some code_bg /\
    getattr cv ("COLOR_BayerGR2BGR" ++ suffix c)%string = Some code_gr /\
    let bgr := interleaved_bgr cv code_bg img h w in
    demosaicing cv img (PyCode c) =
      (color_log img code_bg code_gr bgr,
       inr (RList [per_channel cv code_bg 0 bgr h w;
                   per_channel cv code_gr 0 bgr h w;
                   per_channel cv code_bg 2 bgr h w;
                   per_channel cv code_gr 2 bgr h w])).
Proof.
  intros Hcol Hsuf Hd Hg.
  destruct (Hcv "BG"%string (suffix c)) as (code_bg & Gbg & _);
    [simpl; auto | assumption |].
  destruct (Hcv "GR"%string (suffix c)) as (code_gr & Ggr & _);
    [simpl; auto | assumption |].
  change (bayer_name "BG" (suffix c))
    with ("COLOR_BayerBG2BGR" ++ suffix c)%string in Gbg.
  change (bayer_name "GR" (suffix c))
    with ("COLOR_BayerGR2BGR" ++ suffix c)%string in Ggr.
  exists code_bg, code_gr. split; [assumption|]. split; [assumption|].
  intros bgr.
  pose proof Hg as (Hdt & Hs & _ & _).
  pose proof (contract_calls_succeed cv (suffix c) true d img code_bg code_gr
                h w Hcv Hsuf Gbg Ggr Hd Hg) as C.
  unfold demosaicing.
  rewrite (integer_branch cv 1 img c h w) by (rewrite ?Hdt; assumption).
  rewrite Hcol.
  rewrite (color_run cv (suffix c) img d h w code_bg code_gr Hg Gbg Ggr C).
  cbn [bind ret app]. now rewrite app_nil_r.
Qed.

End WithCv2.

Lemma color_ten_debayer_passes_witness :
  exists l r,
    demosaicing cv2_nearest mosaic_u8 (PyCode COLOR_PolarRGB) = (l, inr r) /\
    length l = 10.
Proof.
  destruct (color_ten_debayer_passes cv2_nearest DemosaicingSpec.nearest_contract
              COLOR_PolarRGB mosaic_u8 uint8 2 2 eq_refl
              (or_introl eq_refl) eq_refl DemosaicingSpec.mosaic_u8_good)
    as (code_bg & code_gr & _ & _ & E).
  eexists _, _. split; [exact E | reflexivity].
Defined.

End ColorPathSpec.

(** ** Failures of cv2 *)
Module DemosaicingEdges.
Import NumPy NumPyFacts Py Cv2 Demosaicing MonadFacts ImageFacts.
Import ColorPath.

(** X15. Failures of cv2.  On a 2-D [uint8] or [uint16] frame: when cv2
    lacks the attribute "COLOR_BayerBG2BGR" + suffix, [demosaicing] fails
    with the AttributeError on that name, on the monochrome and on the
    colour path, before any [cv2.cvtColor] call; on the monochrome path,
    when only the "COLOR_BayerGR2BGR" + suffix attribute is missing it
    fails with the AttributeError on that name, again before any call (both
    names are looked up first); and when the first [cv2.cvtColor] call
    fails, the error is raised after that one call and the second pass is
    not attempted. *)
Theorem cv2_failures
        (cv : cv2) (c : ColorConversionCode) (img : image) (h w : nat) :
  is_u8_u16 (dtype_of img) = true -> shape img = [h; w] ->
  let bg := ("COLOR_BayerBG2BGR" ++ suffix c)%string in
  let gr := ("COLOR_BayerGR2BGR" ++ suffix c)%string in
  (getattr cv bg = None ->
   demosaicing cv img (PyCode c) = ([], inl (AttributeError bg))) /\
  (forall code_bg,
     is_color c = false ->
     getattr cv bg = Some code_bg -> getattr cv gr = None ->
     demosaicing cv img (PyCode c) = ([], inl (AttributeError gr))) /\
  (forall code_bg code_gr,
     is_color c = false ->
     getattr cv bg = Some code_bg -> getattr cv gr = Some code_gr ->
     cvtColor cv img code_bg = None ->
     demosaicing cv img (PyCode c) = ([Ev_cvtColor img code_bg], inl Cv2Error)).
Proof.
  intros Hd Hs bg gr.
  assert (E : demosaicing cv img (PyCode c) =
              if is_color c
              then bind (__demosaicing_color cv img (suffix c))
                        (fun l => ret (RList l))
              else bind (__demosaicing_mono cv img (suffix c))
                        (fun l => ret (RList l))).
  { unfold demosaicing. cbn [demosaicing_fuel].
    replace (issubdtype_floating (dtype_of img)) with false
      by (destruct (dtype_of img); try reflexivity; discriminate Hd).
    rewrite Hd. unfold ndim. rewrite Hs. reflexivity. }
  rewrite E. repeat split.
  - intros G. destruct (is_color c).
    + unfold __demosaicing_color, cv2_getattr. rewrite Hs. fold bg.
      now rewrite G.
    + unfold __demosaicing_mono, cv2_getattr. fold bg. now rewrite G.
  - intros code_bg -> Gbg Ggr.
    unfold __demosaicing_mono, cv2_getattr. fold bg gr.
    now rewrite Gbg, Ggr.
  - intros code_bg code_gr -> Gbg Ggr Ecv.
    unfold __demosaicing_mono, cv2_getattr, cv2_cvtColor. fold bg gr.
    rewrite Gbg, Ggr. cbn [bind ret tell app]. now rewrite Ecv.
Qed.

Lemma cv2_failures_witness :
  demosaicing cv2_no_names mosaic_u8 (PyCode COLOR_PolarRGB)
    = ([], inl (AttributeError "COLOR_BayerBG2BGR")) /\
  demosaicing cv2_failing mosaic_u8 (PyCode COLOR_PolarMono)
    = ([Ev_cvtColor mosaic_u8 46], inl Cv2Error).
Proof.
  split.
  - apply (cv2_failures cv2_no_names COLOR_PolarRGB mosaic_u8 2 2 eq_refl eq_refl).
    reflexivity.
  - apply (cv2_failures cv2_failing COLOR_PolarMono mosaic_u8 2 2 eq_refl eq_refl)
      with (code_gr := 49%Z); reflexivity.
Defined.

End DemosaicingEdges.

(** ** The polarization ellipse *)
Module PolarizationEllipse.
Import NumPy NumPyFacts Stokes StokesKernels StokesKernelsMore StokesSamples.

Section Ellipse.
Local Open Scope R_scope.

Lemma sin_cos_square (x : R) : cos x * cos x + sin x * sin x = 1.
Proof. pose proof (sin2_cos2 x) as H. unfold Rsqr in H. lra. Qed.

Lemma sqrt_polar (a x : R) :
  0 <= a -> sqrt (a * cos x * (a * cos x) + a * sin x * (a * sin x)) = a.
Proof.
  intros Ha.
  replace (a * cos x * (a * cos x) + a * sin x * (a * sin x))
    with (a * a * (cos x * cos x + sin x * sin x)) by ring.
  rewrite sin_cos_square, Rmult_1_r. now apply sqrt_square.
Qed.

(** X17. The polarization ellipse, round trip.  At a pixel whose Stokes
    vector is [S0 (1, P cos 2chi cos 2phi, P cos 2chi sin 2phi, P sin 2chi)]
    with [S0 > 0], [P > 0] and [-pi/4 <= chi <= pi/4] (light of intensity
    [S0], degree of polarization [P], ellipticity angle [chi], azimuth
    [phi]), [cvtStokesToDoP] returns [P], [cvtStokesToEllipticityAngle]
    returns [chi], and [cvtStokesToDoLP] returns [P cos 2chi]. *)
Theorem polarization_ellipse
        (img : ndarray R) (p : nat) (S0 P chi phi : R) :
  stokes_image 4 img -> (p < npixels img)%nat ->
  0 < S0 -> 0 < P -> - (PI / 4) <= chi <= PI / 4 ->
  stokes_at 0 img p 0 = S0 ->
  stokes_at 0 img p 1 = S0 * P * cos (2 * chi) * cos (2 * phi) ->
  stokes_at 0 img p 2 = S0 * P * cos (2 * chi) * sin (2 * phi) ->
  stokes_at 0 img p 3 = S0 * P * sin (2 * chi) ->
  exists DoP DoLP Chi,
    cvtStokesToDoP img = Some DoP /\
    cvtStokesToDoLP img = Some DoLP /\
    cvtStokesToEllipticityAngle img = Some Chi /\
    nth p (data DoP) 0 = P /\
    nth p (data DoLP) 0 = P * cos (2 * chi) /\
    nth p (data Chi) 0 = chi.
Proof.
  intros (lead & n & Hs & Hn) Hp HS0 HP [Hlo Hhi] E0 E1 E2 E3.
  pose proof PI_RGT_0 as HPI.
  assert (Hc : 0 <= cos (2 * chi)) by (apply cos_ge_0; lra).
  assert (Hrho : 0 < S0 * P) by nra.
  assert (Ha : 0 <= S0 * P * cos (2 * chi)) by nra.
  assert (Elin : sqrt (stokes_at 0 img p 1 * stokes_at 0 img p 1
                       + stokes_at 0 img p 2 * stokes_at 0 img p 2)
                 = S0 * P * cos (2 * chi)).
  { rewrite E1, E2. now apply sqrt_polar. }
  rewrite (DoP_eq img lead n Hs) by assumption.
  rewrite (DoLP_eq img lead n Hs) by lia.
  rewrite (EllipticityAngle_eq img lead n Hs) by assumption.
  do 3 eexists. repeat (split; [reflexivity|]).
  cbn [data]. rewrite !tabulate_nth by assumption.
  cbn [fzero fadd fsub fmul fdiv fsqrt lit_half Arith_R].
  repeat split.
  - replace (stokes_at 0 img p 1 * stokes_at 0 img p 1
             + stokes_at 0 img p 2 * stokes_at 0 img p 2
             + stokes_at 0 img p 3 * stokes_at 0 img p 3)
      with (S0 * P * cos (2 * chi) * (S0 * P * cos (2 * chi))
            + S0 * P * sin (2 * chi) * (S0 * P * sin (2 * chi))).
    + rewrite sqrt_polar by lra. rewrite E0. field. lra.
    + rewrite E1, E2, E3.
      pose proof (sin_cos_square (2 * phi)) as T.
      replace (S0 * P * cos (2 * chi) * cos (2 * phi)
               * (S0 * P * cos (2 * chi) * cos (2 * phi))
               + S0 * P * cos (2 * chi) * sin (2 * phi)
                 * (S0 * P * cos (2 * chi) * sin (2 * phi)))
        with (S0 * P * cos (2 * chi) * (S0 * P * cos (2 * chi))
              * (cos (2 * phi) * cos (2 * phi) + sin (2 * phi) * sin (2 * phi)))
        by ring.
      rewrite T. ring.
  - rewrite Elin, E0. field. lra.
  - rewrite Elin, E3. rewrite arctan2_polar by lra. lra.
Qed.

Lemma polarization_ellipse_witness :
  exists DoP DoLP Chi,
    cvtStokesToDoP stokes_circular = Some DoP /\
    cvtStokesToDoLP stokes_circular = Some DoLP /\
    cvtStokesToEllipticityAngle stokes_circular = Some Chi /\
    nth 0 (data DoP) 0 = 1 /\
    nth 0 (data DoLP) 0 = 1 * cos (2 * (PI / 4)) /\
    nth 0 (data Chi) 0 = PI / 4.
Proof.
  pose proof PI_RGT_0 as HPI.
  assert (C : cos (2 * (PI / 4)) = 0).
  { replace (2 * (PI / 4)) with (PI / 2) by field. apply cos_PI2. }
  assert (S_ : sin (2 * (PI / 4)) = 1).
  { replace (2 * (PI / 4)) with (PI / 2) by field. apply sin_PI2. }
  apply (polarization_ellipse stokes_circular 0 1 1 (PI / 4) 0).
  - exists [1%nat], 4%nat. split; [reflexivity | lia].
  - change (npixels stokes_circular) with 1%nat. lia.
  - lra.
  - lra.
  - lra.
  - reflexivity.
  - cbn. rewrite C. lra.
  - cbn. rewrite C. lra.
  - cbn. rewrite S_. lra.
Defined.

End Ellipse.
End PolarizationEllipse.
